(** * decoupled-search: the lexical fallback scorer, the content normalizer,
      the indexer and the routes

    A shallow embedding of these pieces of the TypeScript sources:
    - [mockSearch] and [getMockArticleBySlug], of the demo mode module
      (lib/demo-mode.ts, the file src/unnamed/part_000);
    - [transformArticle], of the GraphQL queries module (the TypeScript
      that follows the README in src/README.md);
    - [getAccessToken], [fetchArticles], [ensureIndexExists] and [main],
      of scripts/index-content.ts;
    - [GET], of the search route (the second route of
      src/app/api/revalidate/route.ts, which imports [searchArticles] and
      [mockSearch]), and [POST], of the revalidation webhook (the first
      route of that file);
    - [getArticle], of the article page, and [HomePage], of the home
      page in its two versions.

    Conventions of the embedding.
    - A JavaScript string is a [string]: a sequence of one-byte code units,
      read as the code points U+0000..U+00FF.
    - A JavaScript number that holds a score is an IEEE-754 binary64 value:
      a [spec_float] with the operations of [SpecFloat] at precision 53
      and maximal exponent 1024.  A number that counts (a limit, a
      length, a delay) is a [Z].
    - A value of type [any] is a [value]: the JSON data model and
      [undefined].
    - Code that talks to the outside (the vector store, the content
      source, the clock) runs against explicit answers of the outside and
      leaves a trace of the calls it made; what goes to the console is
      left out. *)

From Stdlib Require Import ZArith Lia Bool List Ascii String Permutation Sorted.
From Stdlib Require Import Floats.
Import ListNotations.

Set Implicit Arguments.
Local Open Scope string_scope.
Local Open Scope Z_scope.

(* ================================================================== *)
(** * JavaScript strings *)
(* ================================================================== *)

Module JsString.

Definition code (c : ascii) : N := N_of_ascii c.

Definition in_range (lo hi : N) (c : ascii) : bool :=
  (N.leb lo (code c) && N.leb (code c) hi)%bool.

(** [String.prototype.toLowerCase] on U+0000..U+00FF: the letters A..Z
    and the Latin-1 capitals U+00C0..U+00DE (the multiplication sign
    U+00D7 apart) move up by 32, every other code unit stays. *)
Definition lower_char (c : ascii) : ascii :=
  if in_range 65 90 c then ascii_of_N (code c + 32)
  else if (in_range 192 222 c && negb (N.eqb (code c) 215))%bool
       then ascii_of_N (code c + 32)
       else c.

Fixpoint toLowerCase (s : string) : string :=
  match s with
  | EmptyString => EmptyString
  | String c s' => String (lower_char c) (toLowerCase s')
  end.

(** The class [\s] of a regular expression, which is also what [trim]
    removes: TAB, LF, VT, FF, CR, SPACE and NO-BREAK SPACE. *)
Definition is_space (c : ascii) : bool :=
  (in_range 9 13 c || N.eqb (code c) 32 || N.eqb (code c) 160)%bool.

(** [s.startsWith(p)], and what is left of [s] behind [p]. *)
Fixpoint strip_prefix (p s : string) : option string :=
  match p, s with
  | EmptyString, _ => Some s
  | String a p', String b s' =>
      if Ascii.eqb a b then strip_prefix p' s' else None
  | String _ _, EmptyString => None
  end.

Definition startsWith (s p : string) : bool :=
  match strip_prefix p s with Some _ => true | None => false end.

(** [s.includes(t)]: [t] occurs in [s] as a contiguous substring. *)
Fixpoint includes (s t : string) : bool :=
  (startsWith s t ||
   match s with
   | EmptyString => false
   | String _ s' => includes s' t
   end)%bool.

(** [parts.join(sep)]. *)
Fixpoint join (sep : string) (parts : list string) : string :=
  match parts with
  | [] => EmptyString
  | [p] => p
  | p :: rest => p ++ sep ++ join sep rest
  end.

(** [s.split(/\s+/)]: the pieces between the maximal runs of white
    space.  [cur] is the piece being read, in reverse; [in_run] says
    that the previous code unit was white space. *)
Fixpoint rev_string (acc s : string) : string :=
  match s with
  | EmptyString => acc
  | String c s' => rev_string (String c acc) s'
  end.

Fixpoint split_ws_from (cur : string) (in_run : bool) (s : string)
  : list string :=
  match s with
  | EmptyString => [rev_string EmptyString cur]
  | String c s' =>
      if is_space c then
        if in_run then split_ws_from cur true s'
        else rev_string EmptyString cur :: split_ws_from EmptyString true s'
      else split_ws_from (String c cur) false s'
  end.

Definition split_ws (s : string) : list string :=
  split_ws_from EmptyString false s.

(** [s.split(sep)] for a separator of one code unit. *)
Fixpoint split_char_from (sep : ascii) (cur : string) (s : string)
  : list string :=
  match s with
  | EmptyString => [rev_string EmptyString cur]
  | String c s' =>
      if Ascii.eqb c sep
      then rev_string EmptyString cur :: split_char_from sep EmptyString s'
      else split_char_from sep (String c cur) s'
  end.

Definition split_char (sep : ascii) (s : string) : list string :=
  split_char_from sep EmptyString s.

(** [s.trim()]. *)
Fixpoint trimStart (s : string) : string :=
  match s with
  | EmptyString => EmptyString
  | String c s' => if is_space c then trimStart s' else s
  end.

Definition trim (s : string) : string :=
  rev_string EmptyString
    (trimStart (rev_string EmptyString (trimStart s))).

(** [s.slice(0, n)] for [n >= 0]: the first [n] code units. *)
Fixpoint take (n : nat) (s : string) : string :=
  match n, s with
  | O, _ => EmptyString
  | S n', String c s' => String c (take n' s')
  | S _, EmptyString => EmptyString
  end.

(** [s.slice(0, n)]; a negative [n] counts from the end. *)
Definition slice0 (s : string) (n : Z) : string :=
  let len := Z.of_nat (String.length s) in
  let final := if n <? 0 then Z.max (len + n) 0 else Z.min n len in
  take (Z.to_nat final) s.

(** [s.replace(/<[^>]*>/g, ' ')]: every [<], up to and including the
    next [>], becomes one space; a [<] with no [>] behind it stays.
    [cut_tag s] is what follows the first [>] of [s]; [in_tag] says
    that the scan is inside a match, whose space is already written. *)
Fixpoint cut_tag (s : string) : option string :=
  match s with
  | EmptyString => None
  | String c s' => if Ascii.eqb c ">" then Some s' else cut_tag s'
  end.

Fixpoint replace_tags_from (in_tag : bool) (s : string) : string :=
  match s with
  | EmptyString => EmptyString
  | String c s' =>
      if in_tag then
        replace_tags_from (negb (Ascii.eqb c ">")) s'
      else if Ascii.eqb c "<" then
        match cut_tag s' with
        | Some _ => String " " (replace_tags_from true s')
        | None => String c (replace_tags_from false s')
        end
      else String c (replace_tags_from false s')
  end.

Definition replace_tags (s : string) : string := replace_tags_from false s.

(** [s.replace(/\s+/g, ' ')]: every maximal run of white space becomes
    one space. *)
Fixpoint collapse_ws_from (in_run : bool) (s : string) : string :=
  match s with
  | EmptyString => EmptyString
  | String c s' =>
      if is_space c then
        if in_run then collapse_ws_from true s'
        else String " " (collapse_ws_from true s')
      else String c (collapse_ws_from false s')
  end.

Definition collapse_ws (s : string) : string := collapse_ws_from false s.

End JsString.
Import JsString.


(* ================================================================== *)
(** * JavaScript numbers: IEEE-754 binary64 *)
(* ================================================================== *)

Module Number.

Definition number : Type := spec_float.

Definition prec : Z := 53.
Definition emax : Z := 1024.

Definition add (x y : number) : number := SFadd prec emax x y.
Definition sub (x y : number) : number := SFsub prec emax x y.
Definition ltb (x y : number) : bool := SFltb x y.
Definition leb (x y : number) : bool := SFleb x y.

Definition is_nan (x : number) : bool :=
  match x with S754_nan => true | _ => false end.

#[local] Set Warnings "-inexact-float".

(** The literals of [mockSearch], each the binary64 value nearest to the
    decimal numeral. *)
Definition zero : number := Eval vm_compute in Prim2SF 0%float.
Definition one : number := Eval vm_compute in Prim2SF 1%float.
Definition lit_0_5 : number := Eval vm_compute in Prim2SF 0.5%float.
Definition lit_0_1 : number := Eval vm_compute in Prim2SF 0.1%float.
Definition lit_0_2 : number := Eval vm_compute in Prim2SF 0.2%float.
Definition lit_0_3 : number := Eval vm_compute in Prim2SF 0.3%float.
Definition lit_0_8 : number := Eval vm_compute in Prim2SF 0.8%float.
Definition pos_infinity : number := S754_infinity false.

(** [Math.min(x, y)] (ECMA-262, Math.min on two arguments): NaN if an
    argument is NaN; otherwise [lowest] starts at +Infinity and takes
    each argument that is below it, -0 being below +0. *)
Definition min_step (lowest x : number) : number :=
  match x, lowest with
  | S754_zero true, S754_zero false => x
  | _, _ => if ltb x lowest then x else lowest
  end.

Definition Math_min (x y : number) : number :=
  if (is_nan x || is_nan y)%bool then S754_nan
  else min_step (min_step pos_infinity x) y.

End Number.
Import Number.

Declare Scope number_scope.
Delimit Scope number_scope with num.
Infix "+" := Number.add : number_scope.
Infix "-" := Number.sub : number_scope.
Infix "<?" := Number.ltb : number_scope.
Infix "<=?" := Number.leb : number_scope.


(* ================================================================== *)
(** * JavaScript arrays *)
(* ================================================================== *)

Module JsArray.
Section Ops.
Variable A : Type.

(** [arr.slice(start, end)]: a negative index counts from the end, and
    both indices are clamped to the array. *)
Definition slice (arr : list A) (start end_ : Z) : list A :=
  let len := Z.of_nat (List.length arr) in
  let k := if start <? 0 then Z.max (len + start) 0 else Z.min start len in
  let final := if end_ <? 0 then Z.max (len + end_) 0 else Z.min end_ len in
  firstn (Z.to_nat (Z.max (final - k) 0)) (skipn (Z.to_nat k) arr).

(** [arr.sort(comparefn)].  ECMA-262 makes the sort stable, and for a
    consistent [comparefn] that fixes the result: the sorted
    arrangement in which elements that compare equal keep their order.
    [sort] computes it by insertion; [SortCompare] reads a NaN from
    [comparefn] as +0, and [x] stays in front of [y] unless
    [comparefn x y > 0]. *)
Variable comparefn : A -> A -> number.

Definition SortCompare (x y : A) : number :=
  let v := comparefn x y in
  if is_nan v then zero else v.

Definition keeps_order (x y : A) : bool :=
  negb (zero <? SortCompare x y)%num.

Fixpoint insert (x : A) (sorted : list A) : list A :=
  match sorted with
  | [] => [x]
  | y :: rest =>
      if keeps_order x y then x :: y :: rest else y :: insert x rest
  end.

Fixpoint sort (arr : list A) : list A :=
  match arr with
  | [] => []
  | x :: rest => insert x (sort rest)
  end.
End Ops.
End JsArray.
Import JsArray.

(* ================================================================== *)
(** * The data model *)
(* ================================================================== *)

(** Modelled from the spec: [lib/types.ts] is not among the sources; the
    fields of [Image], [Article] and [SearchResult] are those of section 3
    and of the interface that [scripts/index-content.ts] declares.  [tags]
    and [image] may be absent, which [mockSearch] allows for with
    [article.tags || []]. *)
Record Image : Type := mkImage {
  url : string;
  alt : string;
  width : Z;
  height : Z
}.

Record Article : Type := mkArticle {
  id : string;
  title : string;
  slug : string;
  body : string;
  summary : string;
  category : string;
  tags : option (list string);
  readTime : string;
  publishedAt : string;
  image : option Image
}.

(** [result_id] is the field [id] of a search result. *)
Record SearchResult : Type := mkSearchResult {
  result_id : string;
  score : number;
  article : Article
}.

Definition Image_eq_dec (x y : Image) : {x = y} + {x <> y}.
Proof. decide equality; first [apply Z.eq_dec | apply string_dec]. Defined.

Definition Article_eq_dec (x y : Article) : {x = y} + {x <> y}.
Proof.
  decide equality; try apply string_dec.
  - decide equality. apply Image_eq_dec.
  - decide equality. apply list_eq_dec, string_dec.
Defined.

(* ================================================================== *)
(** * lib/demo-mode.ts: the lexical fallback scorer *)
(* ================================================================== *)

Module DemoMode.

(** [article.tags || []]. *)
Definition tags_or_empty (a : Article) : list string :=
  match tags a with Some ts => ts | None => [] end.

(** The array literal that is joined into [searchableContent]. *)
Definition searchableContent (a : Article) : string :=
  toLowerCase
    (join " " ([title a; summary a; body a; category a] ++ tags_or_empty a)).

(** The body of [for (const word of queryWords)], as a step on [score]. *)
Definition word_step (content titleLower : string) (score : number)
           (word : string) : number :=
  if includes content word then
    let score := (score + lit_0_1)%num in
    if includes titleLower word then (score + lit_0_2)%num else score
  else score.

(** The callback of [articles.map]. *)
Definition score_article (queryLower : string) (queryWords : list string)
           (a : Article) : SearchResult :=
  let score := zero in
  let content := searchableContent a in
  let score :=
    if includes content queryLower then (score + lit_0_5)%num else score in
  let score :=
    fold_left (word_step content (toLowerCase (title a))) queryWords score in
  let score := Math_min score one in
  {| result_id := id a; score := score; article := a |}.

(** [queryLower.split(/\s+/).filter(w => w.length > 2)]. *)
Definition queryWords_of (queryLower : string) : list string :=
  filter (fun w => (2 <? Z.of_nat (String.length w))) (split_ws queryLower).

(** [(a, b) => b.score - a.score]. *)
Definition comparefn (a b : SearchResult) : number :=
  (score b - score a)%num.

(** [const scored = articles.map(...)].  The corpus, which the source
    reads from the module-level [getMockArticles()], is a parameter. *)
Definition scored (articles : list Article) (query : string)
  : list SearchResult :=
  let queryLower := toLowerCase query in
  let queryWords := queryWords_of queryLower in
  map (score_article queryLower queryWords) articles.

(** [mockSearch(query, limit)].  [limit] is an integral number, as
    [parseInt] gives it to the route; it is used in [slice(0, limit)]
    alone. *)
Definition mockSearch (articles : list Article) (query : string)
           (limit : Z) : list SearchResult :=
  slice
    (sort comparefn
       (filter (fun item => (zero <? score item)%num)
               (scored articles query)))
    0 limit.

End DemoMode.
Import DemoMode.


(* ================================================================== *)
(** * Values of type [any], and calls that can throw *)
(* ================================================================== *)

(** A call returns or throws; what is thrown carries the [message] that
    the handlers read with [err.message?.includes(...)]. *)
Record Error : Type := mkError { message : option string }.

Inductive result (A : Type) : Type :=
| Return (a : A)
| Throw (e : Error).
Arguments Return {A} a.
Arguments Throw {A} e.

Definition bind {A B : Type} (m : result A) (k : A -> result B) : result B :=
  match m with
  | Return a => k a
  | Throw e => Throw e
  end.

Notation "x <- m ;; k" := (bind m (fun x => k))
  (at level 61, m at next level, right associativity).

(** The [TypeError] of calling a property that is no function. *)
Definition TypeError (what : string) : Error :=
  mkError (Some (what ++ " is not a function")).

(** The [TypeError] of reading a property of [null] or [undefined]. *)
Definition ReadError (what key : string) : Error :=
  mkError (Some ("Cannot read properties of " ++ what ++
                 " (reading '" ++ key ++ "')")).

Module Any.

#[local] Set Warnings "-register-all".

(** What a GraphQL response can hold, and [undefined] for what it does
    not hold.  The first binding of a key in [VObj] is its property. *)
Inductive value : Type :=
| VUndefined
| VNull
| VBool (b : bool)
| VNum (x : number)
| VStr (s : string)
| VArr (items : list value)
| VObj (fields : list (string * value)).

(** ToBoolean. *)
Definition truthy (v : value) : bool :=
  match v with
  | VUndefined | VNull => false
  | VBool b => b
  | VNum (S754_zero _) | VNum S754_nan => false
  | VNum _ => true
  | VStr EmptyString => false
  | VStr _ => true
  | VArr _ | VObj _ => true
  end.

Fixpoint lookup (key : string) (fields : list (string * value)) : value :=
  match fields with
  | [] => VUndefined
  | (k, v) :: rest => if String.eqb k key then v else lookup key rest
  end.

(** [v.key] for a [v] that is neither [null] nor [undefined], and for the
    keys that [transformArticle] reads, none of which is a property of a
    built-in prototype: only an object of the response can hold them. *)
Definition get (v : value) (key : string) : value :=
  match v with
  | VObj fields => lookup key fields
  | _ => VUndefined
  end.

(** [v?.key]. *)
Definition opt_get (v : value) (key : string) : value :=
  match v with
  | VUndefined | VNull => VUndefined
  | _ => get v key
  end.

(** [a || b], both operands being free of effects. *)
Definition or_else (a b : value) : value := if truthy a then a else b.

End Any.
Import Any.

(* ================================================================== *)
(** * lib/queries.ts: the content normalizer *)
(* ================================================================== *)

Module Queries.

Definition num_1200 : number := Eval vm_compute in Prim2SF 1200%float.
Definition num_630 : number := Eval vm_compute in Prim2SF 630%float.

(** [path?.replace(/^\/articles\//, '')]: nothing is called on a [path]
    that is [null] or [undefined]; a string loses the prefix; any other
    value has no [replace] to call. *)
Definition path_replace (path : value) : result value :=
  match path with
  | VUndefined | VNull => Return VUndefined
  | VStr p =>
      Return (VStr (match strip_prefix "/articles/" p with
                    | Some rest => rest
                    | None => p
                    end))
  | _ => Throw (TypeError "node.path?.replace")
  end.

(** [node.tags ? node.tags.split(',').map(t => t.trim()) : []]. *)
Definition split_tags (tags : value) : result value :=
  if truthy tags then
    match tags with
    | VStr s => Return (VArr (map (fun t => VStr (trim t)) (split_char "," s)))
    | _ => Throw (TypeError "node.tags.split")
    end
  else Return (VArr []).

(** [transformArticle(node)].  [now] is what [new Date().toISOString()]
    reads off the clock. *)
Definition transformArticle (now : string) (node : value) : result value :=
  if negb (truthy node) then Return VNull
  else
    replaced <- path_replace (get node "path") ;;
    let slug := or_else replaced (get node "id") in
    tags <- split_tags (get node "tags") ;;
    Return (VObj
      [ ("id", get node "id");
        ("title", get node "title");
        ("slug", slug);
        ("body", or_else (opt_get (get node "body") "processed") (VStr ""));
        ("summary", or_else (opt_get (get node "summary") "value") (VStr ""));
        ("category", or_else (get node "category") (VStr "General"));
        ("tags", tags);
        ("readTime", or_else (get node "readTime") (VStr "5 min read"));
        ("publishedAt",
          or_else (opt_get (get node "created") "time") (VStr now));
        ("image",
          if truthy (get node "image") then
            VObj
              [ ("url", get (get node "image") "url");
                ("alt", or_else (get (get node "image") "alt")
                                (get node "title"));
                ("width", or_else (get (get node "image") "width")
                                  (VNum num_1200));
                ("height", or_else (get (get node "image") "height")
                                   (VNum num_630)) ]
          else VUndefined) ]).

End Queries.
Import Queries.

(* ================================================================== *)
(** * scripts/index-content.ts: the indexer *)
(* ================================================================== *)

Module IndexContent.

Definition EMBEDDING_MODEL : string := "llama-text-embed-v2".

Definition LF : ascii := ascii_of_N 10.
Definition blank_line : string := String LF (String LF EmptyString).

(** The calls that leave the process, in the order they are made.  What
    goes to the console is not part of the trace. *)
Inductive event : Type :=
| ListIndexes
| CreateIndex (name : string) (dimension : Z) (metric : string)
| Sleep (ms : Z)
| DeleteAll (indexName : string)
| FetchArticles
| Embed (model : string) (text : string) (inputType truncate : string)
| Upsert (indexName : string) (recordId : value) (values : list number)
         (metadata : list (string * value)).

(** How [index.deleteAll()] settles.  A promise can be rejected with any
    value, and the handler of the reset reads what it is given. *)
Inductive settled : Type :=
| Fulfilled
| Rejected (reason : value).

(** The process environment and the answers of the services.
    [fetchArticles] stands for the token request, the GraphQL request and
    the mapping of the nodes, as one call; an article is the object that
    the mapping builds, and its fields hold whatever the node held, the
    interface [Article] being erased when the script runs.  [toString]
    is the conversion of a number, an array or an object to a string, by
    a template literal or by [join].  The rejection of a call other than
    [deleteAll] is an error object. *)
Record World : Type := mkWorld {
  argv : list string;
  PINECONE_API_KEY : option string;
  PINECONE_INDEX : option string;
  listIndexes : result (option (list string));
  createIndex : string -> result unit;
  deleteAll : string -> settled;
  fetchArticles : result (list value);
  toString : value -> result string;
  embed : string -> result (list number);
  upsert : string -> value -> result unit
}.

(** How a run of the script ends: it returns, an exception is in flight,
    or [process.exit(code)] stopped it. *)
Inductive outcome (A : Type) : Type :=
| Done (a : A)
| Raised (e : Error)
| Exited (code : Z).
Arguments Done {A} a.
Arguments Raised {A} e.
Arguments Exited {A} code.

Definition run (A : Type) : Type := (list event * outcome A)%type.

Definition ret {A : Type} (a : A) : run A := ([], Done a).

Definition exit {A : Type} (code : Z) : run A := ([], Exited code).

Definition seq {A B : Type} (m : run A) (k : A -> run B) : run B :=
  match m with
  | (t, Done a) => let (t', o) := k a in ((t ++ t')%list, o)
  | (t, Raised e) => (t, Raised e)
  | (t, Exited c) => (t, Exited c)
  end.

(** [await] of a call to a service: the call is recorded, and its answer
    is returned or thrown. *)
Definition call {A : Type} (ev : event) (answer : result A) : run A :=
  ([ev], match answer with Return a => Done a | Throw e => Raised e end).

(** An expression that makes no call: its value, or what it throws. *)
Definition eval {A : Type} (r : result A) : run A :=
  ([], match r with Return a => Done a | Throw e => Raised e end).

(** [try { m } catch (err) { handler }]. *)
Definition try_catch {A : Type} (m : run A) (handler : Error -> run A)
  : run A :=
  match m with
  | (t, Raised e) => let (t', o) := handler e in ((t ++ t')%list, o)
  | other => other
  end.

Notation "x <~ m ;; k" := (seq m (fun x => k))
  (at level 61, m at next level, right associativity).
Notation "m ;;; k" := (seq m (fun _ => k))
  (at level 61, right associativity).

Definition ensureIndexExists (w : World) (indexName : string) : run unit :=
  indexes <~ call ListIndexes (listIndexes w) ;;
  let indexExists :=
    match indexes with
    | Some names => existsb (fun name => String.eqb name indexName) names
    | None => false
    end in
  if negb indexExists then
    call (CreateIndex indexName 1024 "cosine") (createIndex w indexName) ;;;
    call (Sleep 30000) (Return tt)
  else ret tt.

(** [`${v}`]: a string is itself, [undefined], [null] and the booleans
    have their names, and the rest is [toString]'s. *)
Definition text_of (w : World) (v : value) : result string :=
  match v with
  | VStr s => Return s
  | VUndefined => Return "undefined"
  | VNull => Return "null"
  | VBool true => Return "true"
  | VBool false => Return "false"
  | other => toString w other
  end.

(** [`... ${article.title.slice(0, 50)}...`], of the progress line:
    strings and arrays have a [slice], and what it returns is printed,
    a string as it is, the first 50 elements of an array as their
    text. *)
Definition title_slice (w : World) (title : value) : result unit :=
  match title with
  | VStr _ => Return tt
  | VArr items => _ <- toString w (VArr (firstn 50 items)) ;; Return tt
  | VUndefined => Throw (ReadError "undefined" "slice")
  | VNull => Throw (ReadError "null" "slice")
  | _ => Throw (TypeError "article.title.slice")
  end.

(** [body.replace(/<[^>]*>/g, ' ').replace(/\s+/g, ' ').trim()] on a
    string. *)
Definition plainBody (body : string) : string :=
  trim (collapse_ws (replace_tags body)).

(** [article.body.replace(...)...]: only a string has a [replace]. *)
Definition body_plain (body : value) : result string :=
  match body with
  | VStr b => Return (plainBody b)
  | VUndefined => Throw (ReadError "undefined" "replace")
  | VNull => Throw (ReadError "null" "replace")
  | _ => Throw (TypeError "article.body.replace")
  end.

(** [`${title}\n\n${summary}\n\n${plainBody}`] and its [slice(0, 32000)]. *)
Definition textToEmbed (title summary plain : string) : string :=
  title ++ blank_line ++ summary ++ blank_line ++ plain.

Definition truncatedText (text : string) : string := slice0 text 32000.

(** The top of a turn of the loop, up to [truncatedText]: the progress
    line, the plain body, the text and its cut. *)
Definition embed_input (w : World) (article : value) : result string :=
  match article with
  | VUndefined => Throw (ReadError "undefined" "title")
  | VNull => Throw (ReadError "null" "title")
  | _ =>
      _ <- title_slice w (get article "title") ;;
      plain <- body_plain (get article "body") ;;
      title <- text_of w (get article "title") ;;
      summary <- text_of w (get article "summary") ;;
      Return (truncatedText (textToEmbed title summary plain))
  end.

(** [tags.join(', ')]: an element that is [null] or [undefined] counts as
    the empty string, any other as its text. *)
Definition element_text (w : World) (v : value) : result string :=
  match v with
  | VUndefined | VNull => Return EmptyString
  | other => text_of w other
  end.

Fixpoint elements_text (w : World) (items : list value)
  : result (list string) :=
  match items with
  | [] => Return []
  | item :: rest =>
      t <- element_text w item ;;
      ts <- elements_text w rest ;;
      Return (t :: ts)
  end.

Definition tags_join (w : World) (tags : value) : result string :=
  match tags with
  | VArr items =>
      texts <- elements_text w items ;;
      Return (join ", " texts)
  | VUndefined => Throw (ReadError "undefined" "join")
  | VNull => Throw (ReadError "null" "join")
  | _ => Throw (TypeError "article.tags.join")
  end.

(** The [metadata] of an upsert. *)
Definition metadata_of (w : World) (article : value)
  : result (list (string * value)) :=
  tags <- tags_join w (get article "tags") ;;
  Return
    [ ("title", get article "title"); ("slug", get article "slug");
      ("summary", get article "summary");
      ("category", get article "category"); ("tags", VStr tags);
      ("readTime", get article "readTime");
      ("publishedAt", get article "publishedAt");
      ("imageUrl", or_else (opt_get (get article "image") "url") (VStr ""));
      ("imageAlt", or_else (opt_get (get article "image") "alt") (VStr "")) ].

(** One turn of [for (let i = 0; i < articles.length; i++)]. *)
Definition index_article (w : World) (indexName : string) (article : value)
  : run unit :=
  text <~ eval (embed_input w article) ;;
  embedding <~ call (Embed EMBEDDING_MODEL text "passage" "END")
                    (embed w text) ;;
  metadata <~ eval (metadata_of w article) ;;
  call (Upsert indexName (get article "id") embedding metadata)
       (upsert w indexName (get article "id")) ;;;
  call (Sleep 100) (Return tt).

Fixpoint index_articles (w : World) (indexName : string)
         (articles : list value) : run unit :=
  match articles with
  | [] => ret tt
  | a :: rest =>
      index_article w indexName a ;;; index_articles w indexName rest
  end.

(** [process.env.X || fallback] and [!process.env.X]. *)
Definition env_or (x : option string) (fallback : string) : string :=
  match x with
  | Some (String c s) => String c s
  | _ => fallback
  end.

Definition env_set (x : option string) : bool :=
  match x with
  | Some (String _ _) => true
  | _ => false
  end.

Definition shouldReset (w : World) : bool :=
  existsb (String.eqb "--reset") (argv w).

Definition indexName_of (w : World) : string :=
  env_or (PINECONE_INDEX w) "decoupled-search".

(** The part of [main] behind the reset: fetch, then index each article. *)
Definition fetch_and_index (w : World) (indexName : string) : run unit :=
  articles <~ call FetchArticles (fetchArticles w) ;;
  match articles with
  | [] => exit 0
  | _ => index_articles w indexName articles
  end.

(** The handler of the reset,
    [if (!err.message?.includes('empty')) { log(...) }]: the message of
    a reason that is [null] or [undefined] cannot be read; a message that
    is absent ends the chain, a string or an array has [includes], and
    any other message has nothing to call. *)
Definition clear_failed (err : value) : result unit :=
  match err with
  | VUndefined => Throw (ReadError "undefined" "message")
  | VNull => Throw (ReadError "null" "message")
  | _ =>
      match get err "message" with
      | VUndefined | VNull | VStr _ | VArr _ => Return tt
      | _ => Throw (TypeError "err.message?.includes")
      end
  end.

(** [if (shouldReset) { try { await index.deleteAll() } catch (err) {
    ... } }]. *)
Definition reset_index (w : World) (indexName : string) : run unit :=
  if shouldReset w then
    match deleteAll w indexName with
    | Fulfilled => ([DeleteAll indexName], Done tt)
    | Rejected err =>
        ([DeleteAll indexName],
         match clear_failed err with
         | Return _ => Done tt
         | Throw e => Raised e
         end)
    end
  else ret tt.

Definition main (w : World) : run unit :=
  if negb (env_set (PINECONE_API_KEY w)) then exit 1
  else
    let indexName := indexName_of w in
    try_catch
      (ensureIndexExists w indexName ;;;
       reset_index w indexName ;;;
       fetch_and_index w indexName)
      (fun _ => exit 1).

End IndexContent.

(* ================================================================== *)
(** * app/api/search/route.ts: the search route *)
(* ================================================================== *)

Module SearchRoute.

(** [request.nextUrl.searchParams]: [get] answers [null] for a parameter
    that the URL does not have. *)
Record Request : Type := mkRequest {
  q : option string;
  limit : option string
}.

(** Modelled from the spec: [lib/pinecone.ts] is not among the sources;
    [searchArticles] is the vector path of section 4.3, an outbound call
    that answers with results or throws.  A limit of [None] is NaN. *)
Record Env : Type := mkEnv {
  NEXT_PUBLIC_DEMO_MODE : option string;
  mockArticles : list Article;
  searchArticles : string -> option Z -> result (list SearchResult)
}.

Inductive backend_call : Type :=
| CallMockSearch (query : string) (limit : option Z)
| CallSearchArticles (query : string) (limit : option Z).

Inductive Json : Type :=
| ErrorBody (error : string)
| ResultsBody (query : string) (results : list SearchResult)
              (totalResults : Z).

Record Response : Type := mkResponse {
  status : Z;
  json : Json
}.

Definition digit_of (c : ascii) : option Z :=
  if in_range 48 57 c then Some (Z.of_N (code c) - 48) else None.

Fixpoint read_digits (acc : option Z) (s : string) : option Z :=
  match s with
  | EmptyString => acc
  | String c s' =>
      match digit_of c with
      | Some d =>
          read_digits (Some (10 * match acc with Some n => n | None => 0 end + d)) s'
      | None => acc
      end
  end.

(** [parseInt(s, 10)]: white space, a sign, then the longest run of
    decimal digits; [None], which is NaN, when there is no digit. *)
Definition parseInt (s : string) : option Z :=
  match trimStart s with
  | String "-" s' => option_map Z.opp (read_digits None s')
  | String "+" s' => read_digits None s'
  | s' => read_digits None s'
  end.

Definition isDemoMode (env : Env) : bool :=
  match NEXT_PUBLIC_DEMO_MODE env with
  | Some v => String.eqb v "true"
  | None => false
  end.

Definition dquote : string := String (ascii_of_N 34) EmptyString.

Definition q_required : string :=
  "Query parameter " ++ dquote ++ "q" ++ dquote ++ " is required".

(** [mockSearch] uses its limit in [slice(0, limit)] alone, which reads
    NaN as 0. *)
Definition limit_for_slice (limit : option Z) : Z :=
  match limit with Some n => n | None => 0 end.

(** [GET(request)]: the backend calls it made, and its response. *)
Definition GET (env : Env) (request : Request)
  : list backend_call * Response :=
  let query := q request in
  let limit :=
    parseInt (match limit request with
              | Some (String c s) => String c s
              | _ => "10"
              end) in
  match query with
  | None | Some EmptyString =>
      ([], mkResponse 400 (ErrorBody q_required))
  | Some query =>
      if isDemoMode env then
        let results :=
          mockSearch (mockArticles env) query (limit_for_slice limit) in
        ([CallMockSearch query limit],
         mkResponse 200
           (ResultsBody query results (Z.of_nat (List.length results))))
      else
        match searchArticles env query limit with
        | Return results =>
            ([CallSearchArticles query limit],
             mkResponse 200
               (ResultsBody query results (Z.of_nat (List.length results))))
        | Throw error =>
            ([CallSearchArticles query limit],
             match message error with
             | Some m =>
                 if includes m "PINECONE_API_KEY" then
                   mkResponse 503
                     (ErrorBody
                        "Pinecone is not configured. Please run npm run setup.")
                 else mkResponse 500 (ErrorBody "Search failed. Please try again.")
             | None => mkResponse 500 (ErrorBody "Search failed. Please try again.")
             end)
        end
  end.

End SearchRoute.

(* ================================================================== *)
(** * The specification's wording of the scorer and of the embedded
      text *)
(* ================================================================== *)

(** The rules of the specification, in its own words: what it is for a
    text to contain a string, to be lowercased, to be split on white
    space, to lose its tags and to be cut is said here without the
    functions of the code. *)
Module Spec.

(** [t] is in [text] as a contiguous substring. *)
Definition contains (text t : string) : Prop :=
  exists before after, text = before ++ t ++ after.

(** White space is TAB, LF, VT, FF, CR, SPACE and NO-BREAK SPACE. *)
Definition white_codes : list N := [9; 10; 11; 12; 13; 32; 160]%N.

Definition white (c : ascii) : bool :=
  existsb (N.eqb (N_of_ascii c)) white_codes.

(** All of [s] is white space; none of [s] is. *)
Definition blank (s : string) : Prop :=
  Forall (fun c => white c = true) (list_ascii_of_string s).

Definition solid (s : string) : Prop :=
  Forall (fun c => white c = false) (list_ascii_of_string s).

(** The capital letters and their small letters, side by side: A to Z,
    and the capitals of Latin-1, U+00C0 to U+00DE without the
    multiplication sign U+00D7. *)
Definition capitals : list ascii :=
  (list_ascii_of_string "ABCDEFGHIJKLMNOPQRSTUVWXYZ" ++
   map ascii_of_N
     [192; 193; 194; 195; 196; 197; 198; 199; 200; 201; 202; 203; 204;
      205; 206; 207; 208; 209; 210; 211; 212; 213; 214;
      216; 217; 218; 219; 220; 221; 222]%N)%list.

Definition smalls : list ascii :=
  (list_ascii_of_string "abcdefghijklmnopqrstuvwxyz" ++
   map ascii_of_N
     [224; 225; 226; 227; 228; 229; 230; 231; 232; 233; 234; 235; 236;
      237; 238; 239; 240; 241; 242; 243; 244; 245; 246;
      248; 249; 250; 251; 252; 253; 254]%N)%list.

Definition lowercase_unit (c : ascii) : ascii :=
  match find (fun pair => Ascii.eqb (fst pair) c) (combine capitals smalls)
  with
  | Some (_, small) => small
  | None => c
  end.

(** [s], lowercased: every capital letter becomes its small letter. *)
Definition lowercase (s : string) : string :=
  string_of_list_ascii (map lowercase_unit (list_ascii_of_string s)).

(** Step 1: the lowercased query, split on white space.  The tokens of
    a string are its maximal runs of units that are not white space, in
    their order: a string of white space alone has none; otherwise the
    string is a gap of white space, the first token, and a rest that is
    empty or starts with white space and holds the other tokens. *)
Inductive Tokens : string -> list string -> Prop :=
| tokens_none (s : string) : blank s -> Tokens s []
| tokens_word (gap word rest : string) (others : list string) :
    blank gap -> word <> EmptyString -> solid word ->
    (rest = EmptyString \/
     exists c rest', rest = String c rest' /\ white c = true) ->
    Tokens rest others ->
    Tokens (gap ++ word ++ rest) (word :: others).

(** Tokens of length at most 2 are discarded. *)
Definition long (t : string) : bool := negb (Nat.leb (String.length t) 2).

(** Step 2: the searchable text, title, summary, body, category and
    tags concatenated with a space between them, lowercased. *)
Definition searchable_text (a : Article) : string :=
  lowercase
    (String.concat " "
       (title a :: summary a :: body a :: category a ::
        match tags a with Some ts => ts | None => [] end)).

(** Step 3: the exact phrase bonus on a score that starts at 0. *)
Definition Phrase (text phrase : string) (x : number) : Prop :=
  (contains text phrase /\ x = (zero + lit_0_5)%num) \/
  (~ contains text phrase /\ x = zero).

(** Then the tokens in turn: 0.1 for a token that the text contains, and
    a further 0.2 if the lowercased title contains it as well.
    [Bonus text titleLower tokens x y]: the tokens take the score from
    [x] to [y]. *)
Inductive Bonus (text titleLower : string)
  : list string -> number -> number -> Prop :=
| bonus_done (x : number) : Bonus text titleLower [] x x
| bonus_miss (t : string) (rest : list string) (x y : number) :
    ~ contains text t ->
    Bonus text titleLower rest x y ->
    Bonus text titleLower (t :: rest) x y
| bonus_text (t : string) (rest : list string) (x y : number) :
    contains text t -> ~ contains titleLower t ->
    Bonus text titleLower rest (x + lit_0_1)%num y ->
    Bonus text titleLower (t :: rest) x y
| bonus_title (t : string) (rest : list string) (x y : number) :
    contains text t -> contains titleLower t ->
    Bonus text titleLower rest ((x + lit_0_1) + lit_0_2)%num y ->
    Bonus text titleLower (t :: rest) x y.

(** The cap at 1.0. *)
Definition clamp (x : number) : number := if (one <? x)%num then one else x.

(** [x] is the score of article [a] for [query]. *)
Definition Score (query : string) (a : Article) (x : number) : Prop :=
  exists (words : list string) (start total : number),
    Tokens (lowercase query) words /\
    Phrase (searchable_text a) (lowercase query) start /\
    Bonus (searchable_text a) (lowercase (title a)) (filter long words)
          start total /\
    x = clamp total.






(** The input is title, blank line, summary, blank line and plain body,
    cut to 32000 units. *)
Definition blank_line : string :=
  String (ascii_of_N 10) (String (ascii_of_N 10) EmptyString).


End Spec.

(* ================================================================== *)
(** * The scores that the scorer can produce *)
(* ================================================================== *)

Module ScoreRange.

Definition number_eqb (x y : number) : bool :=
  match x, y with
  | S754_zero a, S754_zero b => Bool.eqb a b
  | S754_infinity a, S754_infinity b => Bool.eqb a b
  | S754_nan, S754_nan => true
  | S754_finite a m e, S754_finite b m' e' =>
      (Bool.eqb a b && Pos.eqb m m' && Z.eqb e e')%bool
  | _, _ => false
  end.

Definition mem (x : number) (l : list number) : bool :=
  existsb (number_eqb x) l.

(** A number that is at least 1: +Infinity, or a positive mantissa of at
    least 2^52 at an exponent of at least -52. *)
Definition is_big (x : number) : bool :=
  match x with
  | S754_infinity false => true
  | S754_finite false m e => ((-52 <=? e) && (2 ^ 52 <=? Zpos m))%bool
  | _ => false
  end.

(** The sums below 1 that the accumulation can pass through: the least
    set that holds 0 and 0 + 0.5 and is closed under adding 0.1 and 0.2,
    as long as the sum stays below 1. *)
Definition add_new (l : list number) (x : number) : list number :=
  if mem x l then l else if (x <? one)%num then (l ++ [x])%list else l.

Fixpoint close (fuel : nat) (l : list number) : list number :=
  match fuel with
  | O => l
  | S fuel' =>
      close fuel'
        (fold_left
           (fun acc x => add_new (add_new acc (x + lit_0_1)%num)
                                 (x + lit_0_2)%num)
           l l)
  end.

Definition partial_sums : list number :=
  Eval vm_compute in close 12 [zero; (zero + lit_0_5)%num].

Definition reachable (x : number) : bool :=
  (mem x partial_sums || is_big x)%bool.

(** What a score can be once it is capped. *)
Definition final_scores : list number := (partial_sums ++ [one])%list.

(** The value of a final score in units of 2^-56, which orders them. *)
Definition rank (x : number) : Z :=
  match x with
  | S754_finite false m e => Zpos m * 2 ^ (e + 56)
  | _ => 0
  end.

Definition all_pairs (p : number -> number -> bool) (l : list number) : bool :=
  forallb (fun a => forallb (p a) l) l.

End ScoreRange.
Import ScoreRange.

(** A query of white space alone (the empty query is one). *)
Fixpoint all_space (s : string) : bool :=
  match s with
  | EmptyString => true
  | String c s' => (is_space c && all_space s')%bool
  end.

(** The result that an article gets for the exact phrase bonus alone. *)
Definition phrase_result (a : Article) : SearchResult :=
  {| result_id := id a; score := lit_0_5; article := a |}.

(** Results in non-increasing order of score. *)
Definition non_increasing (rs : list SearchResult) : Prop :=
  StronglySorted (fun r1 r2 => (score r2 <=? score r1)%num = true) rs.

(** A score that is above 0 and within [0, 1]. *)
Definition score_in_range (r : SearchResult) : Prop :=
  (score r <=? zero)%num = false /\
  (zero <=? score r)%num = true /\
  (score r <=? one)%num = true.

(** The results with the score [v]. *)
Definition has_score (v : number) (r : SearchResult) : bool :=
  number_eqb (score r) v.

(** The key that [comparefn] orders results by. *)
Definition score_rank (r : SearchResult) : Z := rank (score r).

(** [comparefn] is consistent on [l], with [key] as its witness: [x] stays
    in front of [y] exactly when the key of [y] is at most that of [x]. *)
Definition agrees (A : Type) (comparefn : A -> A -> number) (key : A -> Z)
           (l : list A) : Prop :=
  forall x y, In x l -> In y l ->
    keeps_order comparefn x y = (key y <=? key x).

(** The results that are kept and then sorted. *)
Definition kept (articles : list Article) (query : string)
  : list SearchResult :=
  filter (fun item => (zero <? score item)%num) (scored articles query).

(** The one-article corpus of the round-trip example; the fields that
    the example leaves open are parameters. *)
Definition guide (i sl rt pa : string) (img : option Image) : Article :=
  {| id := i; title := "TypeScript Guide"; slug := sl; body := "";
     summary := ""; category := "Dev"; tags := Some []; readTime := rt;
     publishedAt := pa; image := img |}.

Definition guide_1 : Article :=
  guide "1" "typescript-guide" "5 min read" "2024-01-01T00:00:00.000Z" None.

(** What [guide_1] scores for a query that its title holds: the phrase
    bonus, the word match and the title bonus. *)
Definition guide_hit : SearchResult :=
  {| result_id := "1"; score := lit_0_8; article := guide_1 |}.

(** A piece of [split(/\s+/)] that is not the empty string. *)
Definition not_empty (piece : string) : bool :=
  match piece with
  | EmptyString => false
  | String _ _ => true
  end.

(** The ranking of a result list, with its length bound. *)
Definition ranked_within (limit : Z) (rs : list SearchResult) : Prop :=
  non_increasing rs /\ Forall score_in_range rs /\
  Z.of_nat (List.length rs) <= limit.

(* ================================================================== *)
(** * Vocabulary of the statements on the normalizer, the indexer and
      the route *)
(* ================================================================== *)

(** A [path] that [path?.replace] can be called on: absent, or a string. *)
Definition path_callable (path : value) : bool :=
  match path with
  | VUndefined | VNull | VStr _ => true
  | _ => false
  end.

(** A [tags] that [tags ? tags.split(',') : []] can be evaluated on:
    falsy, or a string. *)
Definition tags_callable (tags : value) : bool :=
  match tags with
  | VStr _ => true
  | other => negb (truthy other)
  end.

Definition now_1 : string := "2024-01-01T00:00:00.000Z".

(** A node with the tags of the example and nothing else but an id. *)
Definition node_abc : value :=
  VObj [("id", VStr "42"); ("tags", VStr "a, b , c")].

(** A node whose tags came as a list instead of a comma-delimited string. *)
Definition node_tag_list : value :=
  VObj [("id", VStr "42"); ("tags", VArr [VStr "a"; VStr "b"])].

(** Articles as the fetch of the indexer builds them: the guide of the
    example, an article with a body in markup and two tags, and an
    article whose node had no title. *)
Definition fetched_guide : value :=
  VObj [ ("id", VStr "1"); ("title", VStr "TypeScript Guide");
         ("slug", VStr "typescript-guide"); ("body", VStr "");
         ("summary", VStr ""); ("category", VStr "Dev"); ("tags", VArr []);
         ("readTime", VStr "5 min read"); ("publishedAt", VStr now_1);
         ("image", VUndefined) ].

Definition fetched_tagged : value :=
  VObj [ ("id", VStr "7"); ("title", VStr "Vector search");
         ("slug", VStr "vector-search"); ("body", VStr "<p>Vectors</p>");
         ("summary", VStr "About vectors"); ("category", VStr "Search");
         ("tags", VArr [VStr "vector db"; VStr "search"]);
         ("readTime", VStr "3 min read"); ("publishedAt", VStr now_1);
         ("image", VUndefined) ].

Definition fetched_untitled : value :=
  VObj [ ("id", VStr "9"); ("title", VUndefined); ("slug", VStr "9");
         ("body", VStr "<p>Text</p>"); ("summary", VStr "");
         ("category", VStr "General"); ("tags", VArr []);
         ("readTime", VStr "5 min read"); ("publishedAt", VStr now_1);
         ("image", VUndefined) ].

Module Steps.
Import IndexContent.

(** The step that a call belongs to, numbered in the order of the code:
    0 the index is checked and created, 1 the index is cleared, 2 the
    articles are fetched, 3 an article is embedded and upserted. *)
Definition phase (ev : event) : nat :=
  match ev with
  | ListIndexes | CreateIndex _ _ _ => 0%nat
  | Sleep ms => if ms =? 30000 then 0%nat else 3%nat
  | DeleteAll _ => 1%nat
  | FetchArticles => 2%nat
  | Embed _ _ _ _ | Upsert _ _ _ _ => 3%nat
  end.

Definition is_creation (ev : event) : bool :=
  match ev with
  | ListIndexes | CreateIndex _ _ _ => true
  | _ => false
  end.

(** The order in which the clear comes first: no call of the
    existence-and-creation step is made before a clear. *)
Definition clear_first (trace : list event) : Prop :=
  forall before after name,
    trace = (before ++ DeleteAll name :: after)%list ->
    forallb (fun ev => negb (is_creation ev)) before = true.

(** The order of the code: the existence check is made before a clear. *)
Definition clear_after_check (trace : list event) : Prop :=
  forall before after name,
    trace = (before ++ DeleteAll name :: after)%list ->
    In ListIndexes before.

(** The existence-and-creation step came to its end without throwing. *)
Definition ensured (w : World) : Prop :=
  exists t, ensureIndexExists w (indexName_of w) = (t, Done tt).

(** The clear, if there was one, left no exception in flight. *)
Definition cleared (w : World) : Prop :=
  snd (reset_index w (indexName_of w)) = Done tt.

(** What [fetchArticles] answered, if it answered. *)
Definition fetched (w : World) : list value :=
  match fetchArticles w with
  | Return articles => articles
  | Throw _ => []
  end.

(** An embedding request carries the truncated text of a fetched article. *)
Definition embeds_truncated (w : World) (ev : event) : Prop :=
  match ev with
  | Embed _ text _ _ =>
      exists a, In a (fetched w) /\ embed_input w a = Return text
  | _ => True
  end.

(** A run with [--reset] against an index that exists and one article. *)
Definition world_reset : World :=
  {| argv := ["--reset"];
     PINECONE_API_KEY := Some "pc-key";
     PINECONE_INDEX := None;
     listIndexes := Return (Some ["decoupled-search"]);
     createIndex := fun _ => Return tt;
     deleteAll := fun _ => Fulfilled;
     fetchArticles := Return [fetched_guide];
     toString := fun _ => Return "[object Object]";
     embed := fun _ => Return [zero];
     upsert := fun _ _ => Return tt |}.

End Steps.

(* ================================================================== *)
(** * More of lib/demo-mode.ts, and what its statements speak of *)
(* ================================================================== *)

Module DemoLookup.

(** [getMockArticleBySlug(slug)]: [articles.find(a => a.slug === slug)
    || null].  An article is an object, hence truthy, so [|| null] turns
    the [undefined] of an unsuccessful [find] into [null] and nothing
    else. *)
Definition getMockArticleBySlug (articles : list Article) (wanted : string)
  : option Article :=
  find (fun a => String.eqb (slug a) wanted) articles.

End DemoLookup.

(** The article has something of the query: its searchable text contains
    the lowercased query, or one of the query words. *)
Definition matches (query : string) (a : Article) : bool :=
  (includes (searchableContent a) (toLowerCase query) ||
   existsb (includes (searchableContent a))
           (queryWords_of (toLowerCase query)))%bool.

(** A sum that is above 0: a partial sum other than 0, or a number of at
    least 1. *)
Definition reachable_pos (x : number) : bool :=
  (mem x (tl partial_sums) || is_big x)%bool.

(** A sum that is at least 0.5. *)
Definition reachable_half (x : number) : bool :=
  ((mem x partial_sums && (lit_0_5 <=? x)%num) || is_big x)%bool.

(** How many entries [slice(0, limit)] leaves of [len]. *)
Definition sliced_length (len limit : Z) : Z :=
  if limit <? 0 then Z.max (len + limit) 0 else Z.min limit len.

(* ================================================================== *)
(** * app/articles/[slug]/page.tsx: the article page's loader *)
(* ================================================================== *)

Module ArticlePage.

(** [client.query] stands for the GraphQL client: it is asked for a path
    and resolves to a result object or rejects. *)
Record Env : Type := mkEnv {
  NEXT_PUBLIC_DEMO_MODE : option string;
  mockArticles : list Article;
  query : string -> result value
}.

Inductive event : Type :=
| Query (path : string).

(** What [getArticle] resolves to: [null], an article of the mock data,
    or what [transformArticle] made of the entity. *)
Inductive loaded : Type :=
| NoArticle
| MockArticle (a : Article)
| LiveArticle (art : value).

Definition isDemoMode (env : Env) : bool :=
  match NEXT_PUBLIC_DEMO_MODE env with
  | Some v => String.eqb v "true"
  | None => false
  end.

(** [const { data } = await client.query(...)]: there is nothing to take
    [data] from when the result is [null] or [undefined]. *)
Definition data_of (response : value) : result value :=
  match response with
  | VUndefined | VNull => Throw (mkError None)
  | _ => Return (get response "data")
  end.

(** [getArticle(slug)].  The [catch] turns whatever is thrown, by the
    query or by [transformArticle], into [null]. *)
Definition getArticle (env : Env) (now : string) (slug : string)
  : list event * loaded :=
  if isDemoMode env then
    ([], match DemoLookup.getMockArticleBySlug (mockArticles env) slug with
         | Some a => MockArticle a
         | None => NoArticle
         end)
  else
    let path := "/articles/" ++ slug in
    ([Query path],
     match (response <- query env path ;;
            data <- data_of response ;;
            transformArticle now (opt_get (opt_get data "route") "entity"))
     with
     | Return VNull => NoArticle
     | Return art => LiveArticle art
     | Throw _ => NoArticle
     end).

End ArticlePage.

(* ================================================================== *)
(** * Vocabulary of the statements on tags and white space *)
(* ================================================================== *)

Definition first_is_space (s : string) : bool :=
  match s with
  | String c _ => is_space c
  | EmptyString => false
  end.

Definition last_is_space (s : string) : bool :=
  first_is_space (rev_string EmptyString s).

Fixpoint count_char (c : ascii) (s : string) : nat :=
  match s with
  | EmptyString => O
  | String c' s' => (if Ascii.eqb c' c then 1 else 0) + count_char c s'
  end.

(** A tag as the normalizer leaves it and the indexer can write it back:
    not empty, no white space at its ends, no comma. *)
Definition clean_tag (t : string) : Prop :=
  t <> EmptyString /\ first_is_space t = false /\ last_is_space t = false /\
  count_char "," t = O.

(** A tag of the normalized article: a string with no white space at its
    ends. *)
Definition trimmed_tag (v : value) : Prop :=
  exists t, v = VStr t /\ first_is_space t = false /\ last_is_space t = false.

(** What [transformArticle] makes of [node_abc]. *)
Definition article_abc : value :=
  Eval vm_compute in
    match transformArticle now_1 node_abc with
    | Return art => art
    | Throw _ => VUndefined
    end.

(** A node with an id and the path of an article page. *)
Definition node_intro : value :=
  VObj [("id", VStr "42"); ("path", VStr "/articles/intro")].

(** The entity of a query result. *)
Definition entity_response (entity : value) : value :=
  VObj [("data", VObj [("route", VObj [("entity", entity)])])].

(** The environment of a page that asks the content source, which knows
    the article of [node_intro]. *)
Definition live_env : ArticlePage.Env :=
  {| ArticlePage.NEXT_PUBLIC_DEMO_MODE := None;
     ArticlePage.mockArticles := [];
     ArticlePage.query := fun _ => Return (entity_response node_intro) |}.

(* ================================================================== *)
(** * Vocabulary of the statements on the indexer's run *)
(* ================================================================== *)

Module Run.
Import IndexContent.

(** The index is among those that [listIndexes] answered with. *)
Definition listed (w : World) (name : string) : bool :=
  match listIndexes w with
  | Return (Some names) => existsb (fun n => String.eqb n name) names
  | _ => false
  end.

Definition is_create (ev : event) : bool :=
  match ev with CreateIndex _ _ _ => true | _ => false end.

Definition is_delete (ev : event) : bool :=
  match ev with DeleteAll _ => true | _ => false end.

(** An article as the interface [Article] promises it, as far as the
    loop reads it: title, summary and body are strings, and the tags
    are an array of strings. *)
Definition well_formed (article : value) : Prop :=
  exists title summary body tags,
    get article "title" = VStr title /\
    get article "summary" = VStr summary /\
    get article "body" = VStr body /\
    get article "tags" = VArr (map VStr tags).

Definition string_at (article : value) (key : string) : string :=
  match get article key with
  | VStr s => s
  | _ => EmptyString
  end.

(** The text that is embedded for a well-formed article. *)
Definition article_text (article : value) : string :=
  truncatedText
    (textToEmbed (string_at article "title") (string_at article "summary")
                 (plainBody (string_at article "body"))).

(** The text that a turn of the loop sends to the embedding provider, if
    it gets that far. *)
Definition input_text (w : World) (article : value) : list string :=
  match embed_input w article with
  | Return text => [text]
  | Throw _ => []
  end.

(** One turn of the loop goes well: the text can be built, the
    embedding comes, the metadata can be built, the upsert is taken. *)
Definition turn_succeeds (w : World) (indexName : string) (article : value)
  : Prop :=
  exists text embedding metadata,
    embed_input w article = Return text /\
    embed w text = Return embedding /\
    metadata_of w article = Return metadata /\
    upsert w indexName (get article "id") = Return tt.

(** The calls of one turn of the loop that goes well: the embedding of
    the article's text, the upsert under the article's id, the pause. *)
Definition turn_events (w : World) (indexName : string) (article : value)
  : list event :=
  match embed_input w article with
  | Return text =>
      match embed w text, metadata_of w article with
      | Return embedding, Return metadata =>
          [ Embed EMBEDDING_MODEL text "passage" "END";
            Upsert indexName (get article "id") embedding metadata;
            Sleep 100 ]
      | _, _ => []
      end
  | Throw _ => []
  end.

(** The ids under which a trace upserts, and the texts it has embedded,
    in the order of the calls. *)
Definition upserted (t : list event) : list value :=
  flat_map (fun ev => match ev with Upsert _ i _ _ => [i] | _ => [] end) t.

Definition embedded (t : list event) : list string :=
  flat_map (fun ev => match ev with Embed _ text _ _ => [text] | _ => [] end) t.

(** The index a call names, when it names one. *)
Definition index_of (ev : event) : option string :=
  match ev with
  | CreateIndex n _ _ => Some n
  | DeleteAll n => Some n
  | Upsert n _ _ _ => Some n
  | _ => None
  end.

(** A settlement of [index.deleteAll()] that the reset gets over: the
    call was fulfilled, or rejected with a reason that is neither [null]
    nor [undefined] and whose message is absent, a string or an array;
    an error object is such a reason. *)
Definition harmless (s : settled) : bool :=
  match s with
  | Fulfilled => true
  | Rejected VUndefined | Rejected VNull => false
  | Rejected reason =>
      match get reason "message" with
      | VUndefined | VNull | VStr _ | VArr _ => true
      | _ => false
      end
  end.

(** [w], with another answer to [index.deleteAll()]. *)
Definition with_deleteAll (w : World) (answer : string -> settled)
  : World :=
  {| argv := argv w;
     PINECONE_API_KEY := PINECONE_API_KEY w;
     PINECONE_INDEX := PINECONE_INDEX w;
     listIndexes := listIndexes w;
     createIndex := createIndex w;
     deleteAll := answer;
     fetchArticles := fetchArticles w;
     toString := toString w;
     embed := embed w;
     upsert := upsert w |}.

(** A run without [--reset], otherwise as [world_reset], in which the
    index is missing. *)
Definition world_fresh : World :=
  {| argv := [];
     PINECONE_API_KEY := Some "pc-key";
     PINECONE_INDEX := Some "articles";
     listIndexes := Return (Some ["decoupled-search"]);
     createIndex := fun _ => Return tt;
     deleteAll := fun _ => Fulfilled;
     fetchArticles := Return [fetched_tagged; fetched_guide];
     toString := fun _ => Return "[object Object]";
     embed := fun _ => Return [zero; one];
     upsert := fun _ _ => Return tt |}.

(** As [world_fresh], but the second of three articles has no title. *)
Definition world_untitled : World :=
  {| argv := [];
     PINECONE_API_KEY := Some "pc-key";
     PINECONE_INDEX := Some "articles";
     listIndexes := Return (Some ["articles"]);
     createIndex := fun _ => Return tt;
     deleteAll := fun _ => Fulfilled;
     fetchArticles := Return [fetched_tagged; fetched_untitled; fetched_guide];
     toString := fun _ => Return "[object Object]";
     embed := fun _ => Return [zero; one];
     upsert := fun _ _ => Return tt |}.

(** A run with [--reset] in which the clear is rejected with an error
    object, and one in which it is rejected with [null]. *)
Definition world_clear_fails (reason : value) : World :=
  {| argv := ["--reset"];
     PINECONE_API_KEY := Some "pc-key";
     PINECONE_INDEX := Some "articles";
     listIndexes := Return (Some ["articles"]);
     createIndex := fun _ => Return tt;
     deleteAll := fun _ => Rejected reason;
     fetchArticles := Return [fetched_guide];
     toString := fun _ => Return "[object Object]";
     embed := fun _ => Return [zero; one];
     upsert := fun _ _ => Return tt |}.

End Run.

(* ================================================================== *)
(** * Vocabulary of the statements on the text that is embedded *)
(* ================================================================== *)

Fixpoint has_char (c : ascii) (s : string) : bool :=
  match s with
  | EmptyString => false
  | String c' s' => (Ascii.eqb c' c || has_char c s')%bool
  end.

(** No [<] of [s] has a [>] behind it: nothing in [s] is matched by
    [/<[^>]*>/]. *)
Fixpoint tag_free (s : string) : bool :=
  match s with
  | EmptyString => true
  | String c s' =>
      ((negb (Ascii.eqb c "<") || negb (has_char ">" s')) && tag_free s')%bool
  end.

(** The only white space of [s] is the space, and no space is next to
    another. *)
Fixpoint single_spaced (s : string) : bool :=
  match s with
  | EmptyString => true
  | String c s' =>
      ((negb (is_space c) || (Ascii.eqb c " " && negb (first_is_space s')))
       && single_spaced s')%bool
  end.

(** Plain text as the indexer understands it: no tag, words set apart by
    one space, no white space at the ends. *)
Definition plain (s : string) : bool :=
  (tag_free s && single_spaced s &&
   negb (first_is_space s) && negb (last_is_space s))%bool.

(* ================================================================== *)
(** * scripts/index-content.ts: the fetch of the articles *)
(* ================================================================== *)

Module ContentSource.
Import Queries.

(** What the script reads of the [Response] of a [fetch]. *)
Record Response : Type := mkResponse {
  ok : bool;
  statusText : string;
  json : result value
}.

(** The requests that leave the process.  The token request is the POST
    of the client-credentials form to [url]; the GraphQL request is the
    POST of the [GetAllArticles] query to [url], with [accessToken]
    behind [Bearer] in its [Authorization] header. *)
Inductive request : Type :=
| TokenRequest (url client_id client_secret : string)
| GraphQLRequest (url : string) (accessToken : value).

(** The process environment, the answers of the Drupal site, the clock
    as the callback reads it at the node of a given index, and
    [JSON.stringify]. *)
Record Drupal : Type := mkDrupal {
  DRUPAL_CLIENT_ID : option string;
  DRUPAL_CLIENT_SECRET : option string;
  DRUPAL_BASE_URL : option string;
  NEXT_PUBLIC_DRUPAL_BASE_URL : option string;
  token_endpoint : string -> string -> string -> result Response;
  graphql_endpoint : string -> value -> result Response;
  clock : nat -> string;
  stringify : value -> string
}.

(** An [async] function of the script: the requests it has made, and
    what it returns or throws. *)
Definition io (A : Type) : Type := (list request * result A)%type.

Definition pure {A : Type} (a : A) : io A := ([], Return a).

Definition throw {A : Type} (e : Error) : io A := ([], Throw e).

Definition lift {A : Type} (r : result A) : io A := ([], r).

Definition fetch (rq : request) (answer : result Response) : io Response :=
  ([rq], answer).

Definition and_then {A B : Type} (m : io A) (k : A -> io B) : io B :=
  match m with
  | (t, Return a) => let (t', r) := k a in ((t ++ t')%list, r)
  | (t, Throw e) => (t, Throw e)
  end.

Notation "x <~~ m ;; k" := (and_then m (fun x => k))
  (at level 61, m at next level, right associativity).

(** [process.env.DRUPAL_BASE_URL || process.env.NEXT_PUBLIC_DRUPAL_BASE_URL]. *)
Definition baseUrl_of (d : Drupal) : option string :=
  match DRUPAL_BASE_URL d with
  | Some (String c s) => Some (String c s)
  | _ => NEXT_PUBLIC_DRUPAL_BASE_URL d
  end.

Definition getAccessToken (d : Drupal) : io value :=
  match DRUPAL_CLIENT_ID d, DRUPAL_CLIENT_SECRET d, baseUrl_of d with
  | Some (String c1 s1), Some (String c2 s2), Some (String c3 s3) =>
      let clientId := String c1 s1 in
      let clientSecret := String c2 s2 in
      let baseUrl := String c3 s3 in
      let tokenUrl := baseUrl ++ "/oauth/token" in
      response <~~ fetch (TokenRequest tokenUrl clientId clientSecret)
                         (token_endpoint d tokenUrl clientId clientSecret) ;;
      if negb (ok response) then
        throw (mkError (Some ("Failed to get access token: " ++
                              statusText response)))
      else
        data <~~ lift (json response) ;;
        match data with
        | VUndefined => throw (ReadError "undefined" "access_token")
        | VNull => throw (ReadError "null" "access_token")
        | _ => pure (get data "access_token")
        end
  | _, _, _ =>
      throw (mkError (Some
        "Drupal credentials not configured. Run npm run setup first."))
  end.

(** The callback of [nodes.map]: [transformArticle] without its guard
    and without the size of the image. *)
Definition map_node (now : string) (node : value) : result value :=
  match node with
  | VUndefined => Throw (ReadError "undefined" "id")
  | VNull => Throw (ReadError "null" "id")
  | _ =>
      replaced <- path_replace (get node "path") ;;
      let slug := or_else replaced (get node "id") in
      tags <- split_tags (get node "tags") ;;
      Return (VObj
        [ ("id", get node "id");
          ("title", get node "title");
          ("slug", slug);
          ("body", or_else (opt_get (get node "body") "processed") (VStr ""));
          ("summary",
            or_else (opt_get (get node "summary") "value") (VStr ""));
          ("category", or_else (get node "category") (VStr "General"));
          ("tags", tags);
          ("readTime", or_else (get node "readTime") (VStr "5 min read"));
          ("publishedAt",
            or_else (opt_get (get node "created") "time") (VStr now));
          ("image",
            if truthy (get node "image") then
              VObj
                [ ("url", get (get node "image") "url");
                  ("alt", or_else (get (get node "image") "alt")
                                  (get node "title")) ]
            else VUndefined) ])
  end.

(** [nodes.map(callback)], from the node of index [i] on: the first
    callback that throws ends the map. *)
Fixpoint map_nodes (clock : nat -> string) (i : nat) (nodes : list value)
  : result (list value) :=
  match nodes with
  | [] => Return []
  | node :: rest =>
      article <- map_node (clock i) node ;;
      articles <- map_nodes clock (S i) rest ;;
      Return (article :: articles)
  end.

(** [data.data?.nodeArticles?.nodes || []]. *)
Definition nodes_of (data : value) : value :=
  or_else (opt_get (opt_get (get data "data") "nodeArticles") "nodes")
          (VArr []).

Definition fetchArticles (d : Drupal) : io (list value) :=
  match baseUrl_of d with
  | Some (String c s) =>
      let baseUrl := String c s in
      accessToken <~~ getAccessToken d ;;
      response <~~ fetch (GraphQLRequest (baseUrl ++ "/graphql") accessToken)
                         (graphql_endpoint d (baseUrl ++ "/graphql")
                                           accessToken) ;;
      if negb (ok response) then
        throw (mkError (Some ("GraphQL request failed: " ++
                              statusText response)))
      else
        data <~~ lift (json response) ;;
        match data with
        | VUndefined => throw (ReadError "undefined" "errors")
        | VNull => throw (ReadError "null" "errors")
        | _ =>
            if truthy (get data "errors") then
              throw (mkError (Some ("GraphQL errors: " ++
                                    stringify d (get data "errors"))))
            else
              match nodes_of data with
              | VArr nodes => lift (map_nodes (clock d) 0 nodes)
              | _ => throw (TypeError "nodes.map")
              end
        end
  | _ => throw (mkError (Some "DRUPAL_BASE_URL not configured"))
  end.

(** All that the fetch needs of the environment is there. *)
Definition configured (d : Drupal) : bool :=
  (IndexContent.env_set (DRUPAL_CLIENT_ID d) &&
   IndexContent.env_set (DRUPAL_CLIENT_SECRET d) &&
   IndexContent.env_set (baseUrl_of d))%bool.

Definition is_token_request (rq : request) : bool :=
  match rq with TokenRequest _ _ _ => true | _ => false end.

(** A site that answers both requests, with the one node [node_abc]. *)
Definition site_abc : Drupal :=
  {| DRUPAL_CLIENT_ID := Some "client";
     DRUPAL_CLIENT_SECRET := Some "secret";
     DRUPAL_BASE_URL := None;
     NEXT_PUBLIC_DRUPAL_BASE_URL := Some "https://cms.example";
     token_endpoint := fun _ _ _ =>
       Return (mkResponse true "OK"
                 (Return (VObj [("access_token", VStr "t0k")])));
     graphql_endpoint := fun _ _ =>
       Return (mkResponse true "OK"
                 (Return (VObj [("data",
                    VObj [("nodeArticles",
                      VObj [("nodes", VArr [node_abc])])])])));
     clock := fun _ => now_1;
     stringify := fun _ => "[]" |}.

End ContentSource.

(* ================================================================== *)
(** * app/api/revalidate/route.ts: the revalidation webhook *)
(* ================================================================== *)

Module RevalidateRoute.

(** What [POST] reads of the request: two headers ([get] answers [null]
    for a header that is not there), and the body, as a form or as
    JSON.  An entry of the form is a string or a [File], which is an
    object here. *)
Record Request : Type := mkRequest {
  content_type : option string;
  x_revalidate_secret : option string;
  formData : result (list (string * value));
  json : result value
}.

(** The calls into the cache of the framework, in the order they are
    made. *)
Inductive event : Type :=
| RevalidateTag (tag : string) (expire : Z)
| RevalidatePath (path : string).

Record Env : Type := mkEnv {
  DRUPAL_REVALIDATE_SECRET : option string;
  revalidateTag : string -> result unit;
  revalidatePath : string -> result unit;
  now : number
}.

Inductive Json : Type :=
| Message (message : string)
| Revalidated (path : string) (timestamp : number).

Record Response : Type := mkResponse {
  status : Z;
  body : Json
}.

(** [formData.get(name)]: the first entry of that name, or [null]. *)
Fixpoint form_get (name : string) (entries : list (string * value)) : value :=
  match entries with
  | [] => VNull
  | (k, v) :: rest => if String.eqb k name then v else form_get name rest
  end.

Definition header (h : option string) : value :=
  match h with
  | Some s => VStr s
  | None => VNull
  end.

(** The [secret] and the [slug] of the request. *)
Definition credentials (request : Request) : result (value * value) :=
  let contentType :=
    match content_type request with
    | Some (String c s) => String c s
    | _ => EmptyString
    end in
  if includes contentType "application/x-www-form-urlencoded" then
    form <- formData request ;;
    Return (form_get "secret" form, form_get "slug" form)
  else
    body <- json request ;;
    match body with
    | VUndefined => Throw (ReadError "undefined" "secret")
    | VNull => Throw (ReadError "null" "secret")
    | _ =>
        Return (or_else (get body "secret")
                        (header (x_revalidate_secret request)),
                or_else (get body "slug") (get body "path"))
    end.

(** [secret !== expectedSecret]. *)
Definition differs (secret : value) (expectedSecret : string) : bool :=
  match secret with
  | VStr s => negb (String.eqb s expectedSecret)
  | _ => true
  end.

(** [slug ? (slug.startsWith('/') ? slug : `/${slug}`) : '/']. *)
Definition path_of (slug : value) : result string :=
  if truthy slug then
    match slug with
    | VStr s => Return (if startsWith s "/" then s else "/" ++ s)
    | _ => Throw (TypeError "slug.startsWith")
    end
  else Return "/".

(** The [try] block of [POST]. *)
Definition attempt (env : Env) (expectedSecret : string) (request : Request)
  : list event * result Response :=
  match credentials request with
  | Throw e => ([], Throw e)
  | Return (secret, slug) =>
      if differs secret expectedSecret then
        ([], Return (mkResponse 401 (Message "Invalid secret")))
      else
        match path_of slug with
        | Throw e => ([], Throw e)
        | Return path =>
            match revalidateTag env "drupal" with
            | Throw e => ([RevalidateTag "drupal" 0], Throw e)
            | Return _ =>
                match revalidatePath env path with
                | Throw e =>
                    ([RevalidateTag "drupal" 0; RevalidatePath path], Throw e)
                | Return _ =>
                    ([RevalidateTag "drupal" 0; RevalidatePath path],
                     Return (mkResponse 200 (Revalidated path (now env))))
                end
            end
        end
  end.

Definition POST (env : Env) (request : Request) : list event * Response :=
  match DRUPAL_REVALIDATE_SECRET env with
  | Some (String c s) =>
      match attempt env (String c s) request with
      | (calls, Return response) => (calls, response)
      | (calls, Throw _) =>
          (calls, mkResponse 500 (Message "Revalidation failed"))
      end
  | _ => ([], mkResponse 500 (Message "Revalidate secret not configured"))
  end.

(** A site with the secret [s3cret], and the webhook call of Drupal for
    the article [intro]. *)
Definition env_secret : Env :=
  {| DRUPAL_REVALIDATE_SECRET := Some "s3cret";
     revalidateTag := fun _ => Return tt;
     revalidatePath := fun _ => Return tt;
     now := one |}.

Definition form_request : Request :=
  {| content_type := Some "application/x-www-form-urlencoded";
     x_revalidate_secret := None;
     formData := Return [("secret", VStr "s3cret");
                         ("slug", VStr "articles/intro")];
     json := Throw (mkError None) |}.

End RevalidateRoute.

(* ================================================================== *)
(** * Vocabulary of the statements on the search route *)
(* ================================================================== *)

Definition with_searchArticles (env : SearchRoute.Env)
           (backend : string -> option Z -> result (list SearchResult))
  : SearchRoute.Env :=
  {| SearchRoute.NEXT_PUBLIC_DEMO_MODE := SearchRoute.NEXT_PUBLIC_DEMO_MODE env;
     SearchRoute.mockArticles := SearchRoute.mockArticles env;
     SearchRoute.searchArticles := backend |}.

Definition results_of (response : SearchRoute.Response)
  : option (list SearchResult) :=
  match SearchRoute.json response with
  | SearchRoute.ResultsBody _ results _ => Some results
  | SearchRoute.ErrorBody _ => None
  end.

Definition demo_env : SearchRoute.Env :=
  {| SearchRoute.NEXT_PUBLIC_DEMO_MODE := Some "true";
     SearchRoute.mockArticles := [guide_1; guide_1];
     SearchRoute.searchArticles := fun _ _ => Throw (mkError None) |}.

(* ================================================================== *)
(** * The home page, in its two versions *)
(* ================================================================== *)

(** The version with three screens ([getConfigStatus]). *)
Module Home.

Record Env : Type := mkEnv {
  NEXT_PUBLIC_DEMO_MODE : option string;
  DRUPAL_BASE_URL : option string;
  NEXT_PUBLIC_DRUPAL_BASE_URL : option string;
  PINECONE_API_KEY : option string
}.

(** What the page shows under its header. *)
Inductive screen : Type :=
| SearchResults
| AlmostThere
| SetupGuide.

Record ConfigStatus : Type := mkConfigStatus {
  hasDrupal : bool;
  hasPinecone : bool;
  isFullyConfigured : bool
}.

Definition isDemoMode (env : Env) : bool :=
  match NEXT_PUBLIC_DEMO_MODE env with
  | Some v => String.eqb v "true"
  | None => false
  end.

Definition getConfigStatus (env : Env) : ConfigStatus :=
  let hasDrupal :=
    IndexContent.env_set
      (match DRUPAL_BASE_URL env with
       | Some (String c s) => Some (String c s)
       | _ => NEXT_PUBLIC_DRUPAL_BASE_URL env
       end) in
  let hasPinecone := IndexContent.env_set (PINECONE_API_KEY env) in
  mkConfigStatus hasDrupal hasPinecone (hasDrupal && hasPinecone).

Definition HomePage (env : Env) : screen :=
  if isDemoMode env then SearchResults
  else
    let status := getConfigStatus env in
    if (hasDrupal status && negb (isFullyConfigured status))%bool
    then AlmostThere
    else if negb (isFullyConfigured status) then SetupGuide
    else SearchResults.

End Home.

(** The version of app/page.tsx, with two screens ([isConfigured]). *)
Module HomeBasic.

Definition isConfigured (env : Home.Env) : bool :=
  (IndexContent.env_set
     (match Home.DRUPAL_BASE_URL env with
      | Some (String c s) => Some (String c s)
      | _ => Home.NEXT_PUBLIC_DRUPAL_BASE_URL env
      end) &&
   IndexContent.env_set (Home.PINECONE_API_KEY env))%bool.

Definition HomePage (env : Home.Env) : Home.screen :=
  let configured := (Home.isDemoMode env || isConfigured env)%bool in
  if configured then Home.SearchResults else Home.SetupGuide.

End HomeBasic.

(* ================================================================== *)
(** * Proof steps that recur *)
(* ================================================================== *)

(** One goal for each of the sums of [partial_sums] that [H] allows. *)
Ltac each_partial_sum H :=
  unfold partial_sums in H; simpl in H;
  repeat (destruct H as [<- | H]); [.. | contradiction H].

(** A call either returns or throws: the two sides of such an
    equivalence, once the value called on is known. *)
Ltac returns_or_throws :=
  cbn; split; intros H;
  first [ reflexivity
        | discriminate H
        | eexists; reflexivity
        | match type of H with
          | ex _ => destruct H as [? H]; discriminate H
          end ].

(* ================================================================== *)
(** * Facts about strings *)
(* ================================================================== *)

Lemma lower_char_space (c : ascii) : is_space c = true -> lower_char c = c.
Proof.
  destruct c as [[] [] [] [] [] [] [] []]; intros H;
    first [reflexivity | discriminate H].
Qed.

Lemma toLowerCase_all_space (s : string) :
  all_space s = true -> toLowerCase s = s.
Proof.
  induction s as [| c s IH]; simpl; intros H; [reflexivity |].
  apply andb_prop in H as [Hc Hs].
  now rewrite lower_char_space, IH.
Qed.

Lemma split_ws_all_space (s : string) (in_run : bool) :
  all_space s = true ->
  Forall (fun piece => piece = EmptyString)
         (split_ws_from EmptyString in_run s).
Proof.
  revert in_run. induction s as [| c s IH]; simpl; intros in_run H.
  - constructor; [reflexivity | constructor].
  - apply andb_prop in H as [Hc Hs]. rewrite Hc.
    destruct in_run; [now apply IH |].
    constructor; [reflexivity | now apply IH].
Qed.

Lemma queryWords_all_space (query : string) :
  all_space query = true -> queryWords_of (toLowerCase query) = [].
Proof.
  intros H. rewrite (toLowerCase_all_space _ H). unfold queryWords_of, split_ws.
  pose proof (@split_ws_all_space query false H) as Hall.
  induction Hall as [| piece l Hp _ IH]; simpl; [reflexivity |].
  now rewrite Hp, IH.
Qed.

Lemma includes_empty (s : string) : includes s EmptyString = true.
Proof. destruct s; reflexivity. Qed.



Lemma append_empty_r (s : string) : s ++ EmptyString = s.
Proof. induction s as [| c s IH]; simpl; [reflexivity | now rewrite IH]. Qed.

Lemma append_assoc (a b c : string) : (a ++ b) ++ c = a ++ (b ++ c).
Proof. induction a as [| x a IH]; simpl; [reflexivity | now rewrite IH]. Qed.

Lemma rev_string_acc (acc s : string) :
  rev_string acc s = rev_string EmptyString s ++ acc.
Proof.
  revert acc. induction s as [| c s IH]; intros acc; simpl; [reflexivity |].
  rewrite (IH (String c acc)), (IH (String c EmptyString)), append_assoc.
  reflexivity.
Qed.

Lemma rev_string_swap (acc s : string) :
  rev_string EmptyString (rev_string acc s) = rev_string s acc.
Proof.
  revert acc. induction s as [| c s IH]; intros acc; simpl; [reflexivity |].
  now rewrite IH.
Qed.

Lemma rev_string_involutive (s : string) :
  rev_string EmptyString (rev_string EmptyString s) = s.
Proof. now rewrite rev_string_swap. Qed.

Lemma rev_string_append (a b : string) :
  rev_string EmptyString (a ++ b) =
  rev_string EmptyString b ++ rev_string EmptyString a.
Proof.
  induction a as [| c a IH]; simpl; [now rewrite append_empty_r |].
  rewrite (rev_string_acc (String c EmptyString) (a ++ b)), IH.
  rewrite (rev_string_acc (String c EmptyString) a), append_assoc.
  reflexivity.
Qed.

Lemma strip_prefix_append (p s : string) : strip_prefix p (p ++ s) = Some s.
Proof.
  induction p as [| c p IH]; simpl; [now destruct s |].
  now rewrite Ascii.eqb_refl.
Qed.

(* ================================================================== *)
(** * Facts about binary64 addition *)
(* ================================================================== *)

Lemma number_eqb_eq (x y : number) : number_eqb x y = true -> x = y.
Proof.
  destruct x as [a | a | | a m e], y as [b | b | | b m' e'];
    simpl; intros H; try discriminate H.
  - now apply Bool.eqb_prop in H as ->.
  - now apply Bool.eqb_prop in H as ->.
  - reflexivity.
  - apply andb_prop in H as [H He]. apply andb_prop in H as [Hs Hm].
    apply Bool.eqb_prop in Hs. apply Pos.eqb_eq in Hm. apply Z.eqb_eq in He.
    now subst.
Qed.

Lemma mem_In (x : number) (l : list number) : mem x l = true -> In x l.
Proof.
  unfold mem. intros H. apply existsb_exists in H as (y & Hy & Heq).
  now apply number_eqb_eq in Heq as ->.
Qed.

Lemma digits2_bounds (p : positive) :
  2 ^ (Zpos (digits2_pos p) - 1) <= Zpos p < 2 ^ Zpos (digits2_pos p).
Proof.
  induction p as [p IH | p IH |]; simpl digits2_pos.
  - rewrite Pos2Z.inj_succ.
    replace (Z.succ (Zpos (digits2_pos p)) - 1)
      with (Z.succ (Zpos (digits2_pos p) - 1)) by lia.
    rewrite !Z.pow_succ_r by lia. lia.
  - rewrite Pos2Z.inj_succ.
    replace (Z.succ (Zpos (digits2_pos p)) - 1)
      with (Z.succ (Zpos (digits2_pos p) - 1)) by lia.
    rewrite !Z.pow_succ_r by lia. lia.
  - simpl. lia.
Qed.

Lemma digits_ge (p : positive) (k : Z) :
  0 <= k -> 2 ^ k <= Zpos p -> k + 1 <= Zpos (digits2_pos p).
Proof.
  intros Hk Hp. pose proof (digits2_bounds p) as [_ Hhi].
  assert (H : 2 ^ k < 2 ^ Zpos (digits2_pos p)) by lia.
  apply Z.pow_lt_mono_r_iff in H; lia.
Qed.

Lemma digits_le (p : positive) (k : Z) :
  0 <= k -> Zpos p <= 2 ^ k -> Zpos (digits2_pos p) <= k + 1.
Proof.
  intros Hk Hp. pose proof (digits2_bounds p) as [Hlo _].
  assert (H : 2 ^ (Zpos (digits2_pos p) - 1) < 2 ^ (k + 1)).
  { rewrite Z.pow_add_r by lia. change (2 ^ 1) with 2. lia. }
  apply Z.pow_lt_mono_r_iff in H; lia.
Qed.

Lemma iter_pos_nat (A : Type) (f : A -> A) (n : positive) (x : A) :
  iter_pos f n x = Nat.iter (Pos.to_nat n) f x.
Proof.
  revert x. induction n as [n IH | n IH |]; intros x; simpl iter_pos.
  - rewrite !IH, Pos2Nat.inj_xI.
    replace (S (2 * Pos.to_nat n))%nat
      with (Pos.to_nat n + S (Pos.to_nat n))%nat by lia.
    rewrite Nat.iter_add. f_equal. now rewrite Nat.iter_succ_r.
  - rewrite !IH, Pos2Nat.inj_xO.
    replace (2 * Pos.to_nat n)%nat
      with (Pos.to_nat n + Pos.to_nat n)%nat by lia.
    now rewrite Nat.iter_add.
  - reflexivity.
Qed.

Lemma shr_1_m (mrs : shr_record) :
  0 <= shr_m mrs -> shr_m (shr_1 mrs) = shr_m mrs / 2.
Proof.
  destruct mrs as [m r s]. intros Hm. rewrite <- Z.div2_div.
  destruct m as [| [p | p |] | p]; try reflexivity. simpl in Hm. lia.
Qed.

Lemma shr_iter_m (n : nat) (mrs : shr_record) :
  0 <= shr_m mrs ->
  shr_m (Nat.iter n shr_1 mrs) = shr_m mrs / 2 ^ Z.of_nat n.
Proof.
  intros Hm. induction n as [| n IH].
  - simpl. now rewrite Z.div_1_r.
  - rewrite Nat2Z.inj_succ, Z.pow_succ_r by lia. simpl Nat.iter.
    rewrite shr_1_m.
    + rewrite IH, Z.div_div by lia. f_equal. lia.
    + rewrite IH. apply Z.div_pos; lia.
Qed.

(** A right shift by [n] divides the mantissa by 2^n and adds [n] to the
    exponent. *)
Lemma shr_spec (mrs : shr_record) (e n : Z) :
  0 <= n -> 0 <= shr_m mrs ->
  snd (shr mrs e n) = e + n /\
  shr_m (fst (shr mrs e n)) = shr_m mrs / 2 ^ n.
Proof.
  intros Hn Hm. destruct n as [| k | k]; simpl; try lia.
  - split; [lia | now rewrite Z.div_1_r].
  - split; [reflexivity |].
    rewrite iter_pos_nat, shr_iter_m by assumption.
    now rewrite positive_nat_Z.
Qed.

(** Rounding a mantissa of at least 53 bits to 53 bits. *)
Lemma shr_fexp_normal (p : positive) (e : Z) (l : location) :
  53 <= Zpos (digits2_pos p) ->
  -52 <= Zpos (digits2_pos p) + e - 53 ->
  snd (shr_fexp prec emax (Zpos p) e l) = Zpos (digits2_pos p) + e - 53 /\
  2 ^ 52 <= shr_m (fst (shr_fexp prec emax (Zpos p) e l)) < 2 ^ 53.
Proof.
  intros Hd He. unfold shr_fexp, fexp, emin, prec, emax. simpl Zdigits2.
  set (d := Zpos (digits2_pos p)) in *.
  replace (Z.max (d + e - 53) (3 - 1024 - 53) - e) with (d - 53) by lia.
  assert (Hm : shr_m (shr_record_of_loc (Zpos p) l) = Zpos p)
    by (destruct l as [| []]; reflexivity).
  destruct (@shr_spec (shr_record_of_loc (Zpos p) l) e (d - 53)) as [H1 H2];
    [lia | rewrite Hm; lia |].
  rewrite H1, H2, Hm. split; [lia |].
  pose proof (digits2_bounds p) as [Hlo Hhi]. fold d in Hlo, Hhi.
  assert (Hpow : 0 < 2 ^ (d - 53)) by (apply Z.pow_pos_nonneg; lia).
  split.
  - apply Z.div_le_lower_bound; [lia |].
    rewrite <- Z.pow_add_r by lia.
    now replace (d - 53 + 52) with (d - 1) by lia.
  - apply Z.div_lt_upper_bound; [lia |].
    rewrite <- Z.pow_add_r by lia.
    now replace (d - 53 + 53) with d by lia.
Qed.

Lemma round_nearest_even_range (m : Z) (l : location) :
  m <= round_nearest_even m l <= m + 1.
Proof.
  destruct l as [| []]; simpl; try lia. destruct (Z.even m); lia.
Qed.

(** Rounding a value of at least 1 gives a number of at least 1. *)
Lemma binary_round_aux_big (p : positive) (e : Z) :
  53 <= Zpos (digits2_pos p) ->
  1 <= Zpos (digits2_pos p) + e ->
  is_big (binary_round_aux prec emax false (Zpos p) e loc_Exact) = true.
Proof.
  intros Hd He. unfold binary_round_aux.
  destruct (@shr_fexp_normal p e loc_Exact) as [H1 H2]; [lia | lia |].
  destruct (shr_fexp prec emax (Zpos p) e loc_Exact) as [mrs' e'].
  cbn [fst snd] in H1, H2. subst e'.
  pose proof (round_nearest_even_range (shr_m mrs') (loc_of_shr_record mrs'))
    as Hr.
  destruct (round_nearest_even (shr_m mrs') (loc_of_shr_record mrs'))
    as [| q | q] eqn:Eq; try lia.
  assert (Hq1 : 53 <= Zpos (digits2_pos q)) by (apply (@digits_ge q 52); lia).
  assert (Hq2 : Zpos (digits2_pos q) <= 54) by (apply (@digits_le q 53); lia).
  destruct (@shr_fexp_normal q (Zpos (digits2_pos p) + e - 53) loc_Exact)
    as [H3 H4]; [lia | lia |].
  destruct (shr_fexp prec emax (Zpos q) _ loc_Exact) as [mrs'' e''].
  cbn [fst snd] in H3, H4. subst e''.
  destruct (shr_m mrs'') as [| m | m]; try lia.
  destruct (Z.leb _ _); [| reflexivity].
  unfold is_big. apply andb_true_intro. split; apply Z.leb_le; lia.
Qed.

Lemma iter_xO (m d : positive) : Zpos (Pos.iter xO m d) = Zpos m * 2 ^ Zpos d.
Proof.
  revert m. induction d using Pos.peano_ind; intros m.
  - simpl. lia.
  - rewrite Pos.iter_succ, Pos2Z.inj_xO, IHd, Pos2Z.inj_succ, Z.pow_succ_r
      by lia.
    lia.
Qed.

(** Adding a small positive number to a number of at least 1 gives a
    number of at least 1: no rounding takes the sum back below 1, and an
    overflow gives +Infinity. *)
Lemma add_big (x : number) (c : positive) (ey : Z) :
  is_big x = true -> ey <= -52 ->
  is_big (x + S754_finite false c ey)%num = true.
Proof.
  intros Hx Hey.
  destruct x as [s | [|] | | [|] m e]; try discriminate; [reflexivity |].
  unfold is_big in Hx. apply andb_prop in Hx as [He Hm].
  apply Z.leb_le in He, Hm.
  unfold Number.add, SFadd. replace (Z.min e ey) with ey by lia.
  assert (Hc : shl_align c ey ey = (c, ey)).
  { unfold shl_align. now rewrite Z.sub_diag. }
  rewrite Hc. cbn [fst]. unfold cond_Zopp.
  assert (Hal : exists m',
             fst (shl_align m e ey) = m' /\ 2 ^ (52 + e - ey) <= Zpos m').
  { unfold shl_align. destruct (ey - e) as [| d | d] eqn:Ed; try lia.
    - exists m. split; [reflexivity |].
      replace (52 + e - ey) with 52 by lia. lia.
    - exists (Pos.iter xO m d). split; [reflexivity |].
      rewrite iter_xO. replace (52 + e - ey) with (52 + Zpos d) by lia.
      rewrite Z.pow_add_r by lia.
      apply Z.mul_le_mono_nonneg_r; [apply Z.pow_nonneg |]; lia. }
  destruct Hal as (m' & -> & Hm').
  change (Zpos m' + Zpos c) with (Zpos (m' + c)).
  unfold binary_normalize, binary_round.
  assert (Hd : 53 + e - ey <= Zpos (digits2_pos (m' + c))).
  { replace (53 + e - ey) with ((52 + e - ey) + 1) by lia.
    apply digits_ge; [lia |]. rewrite Pos2Z.inj_add. lia. }
  unfold shl_align, fexp, emin, prec, emax.
  destruct (Z.max _ _ - ey) as [| d | d] eqn:Ed; try lia;
    apply binary_round_aux_big; lia.
Qed.

(** [Math.min(x, 1)] is the cap of the specification. *)
Lemma Math_min_one (x : number) : Math_min x one = Spec.clamp x.
Proof.
  destruct x as [[|] | [|] | | [|] m e]; try reflexivity;
    unfold Math_min, Spec.clamp, min_step, pos_infinity, Number.ltb, SFltb;
    cbn [is_nan orb SFcompare one];
    destruct (SFcompare one (S754_finite _ m e)) as [[| |] |]; reflexivity.
Qed.

(* ================================================================== *)
(** * Facts about [slice] and the stable sort *)
(* ================================================================== *)

Section ArrayFacts.
Variable A : Type.

Lemma slice_from_0 (l : list A) (n : Z) :
  slice l 0 n =
  firstn (Z.to_nat (if n <? 0 then Z.max (Z.of_nat (List.length l) + n) 0
                    else Z.min n (Z.of_nat (List.length l)))) l.
Proof.
  unfold slice. cbn [Z.ltb Z.compare].
  replace (Z.min 0 (Z.of_nat (List.length l))) with 0 by lia.
  cbn [Z.to_nat skipn]. f_equal.
  destruct (n <? 0); lia.
Qed.

Lemma length_slice_from_0 (l : list A) (n : Z) :
  0 <= n -> Z.of_nat (List.length (slice l 0 n)) <= n.
Proof.
  intros Hn. rewrite slice_from_0, length_firstn.
  destruct (Z.ltb_spec n 0); lia.
Qed.

Lemma filter_firstn (p : A -> bool) (n : nat) (l : list A) :
  exists n', filter p (firstn n l) = firstn n' (filter p l).
Proof.
  revert n. induction l as [| x l IH]; intros [| n]; simpl;
    try (exists 0%nat; reflexivity).
  destruct (IH n) as [n' Hn']. destruct (p x).
  - exists (S n'). simpl. now rewrite Hn'.
  - exists n'. exact Hn'.
Qed.

Variable comparefn : A -> A -> number.
Variable key : A -> Z.

Lemma insert_perm (x : A) (l : list A) :
  Permutation (insert comparefn x l) (x :: l).
Proof.
  induction l as [| y l IH]; simpl; [reflexivity |].
  destruct (keeps_order comparefn x y); [reflexivity |].
  rewrite IH. apply perm_swap.
Qed.

Lemma sort_perm (l : list A) : Permutation (sort comparefn l) l.
Proof.
  induction l as [| x l IH]; simpl; [reflexivity |].
  rewrite insert_perm. now constructor.
Qed.

Lemma In_sort (x : A) (l : list A) : In x (sort comparefn l) <-> In x l.
Proof.
  split; apply Permutation_in; [| symmetry]; apply sort_perm.
Qed.

Lemma insert_sorted (x : A) (l : list A) :
  (forall y, In y l -> keeps_order comparefn x y = (key y <=? key x)) ->
  StronglySorted (fun a b => key b <= key a) l ->
  StronglySorted (fun a b => key b <= key a) (insert comparefn x l).
Proof.
  intros Hx Hl. induction Hl as [| y l Hl IH Hy]; simpl.
  - repeat constructor.
  - rewrite (Hx y (or_introl eq_refl)).
    destruct (Z.leb_spec (key y) (key x)) as [Hle | Hlt].
    + constructor; [now constructor |].
      constructor; [exact Hle |].
      eapply Forall_impl; [| exact Hy]. intros z Hz. simpl in Hz. lia.
    + constructor; [apply IH; intros z Hz; apply Hx; now right |].
      apply Forall_forall. intros z Hz.
      apply (Permutation_in _ (insert_perm x l)) in Hz as [<- | Hz]; [lia |].
      rewrite Forall_forall in Hy. now apply Hy.
Qed.

Lemma sort_sorted (l : list A) :
  agrees comparefn key l ->
  StronglySorted (fun a b => key b <= key a) (sort comparefn l).
Proof.
  induction l as [| x l IH]; intros Hag; simpl; [constructor |].
  apply insert_sorted.
  - intros y Hy. apply Hag; [now left | right; now apply In_sort].
  - apply IH. intros a b Ha Hb. apply Hag; now right.
Qed.

Lemma insert_filter (p : A -> bool) (x : A) (l : list A) :
  (forall y, In y l -> keeps_order comparefn x y = (key y <=? key x)) ->
  (forall a b, p a = true -> p b = true -> key a = key b) ->
  filter p (insert comparefn x l) = filter p (x :: l).
Proof.
  intros Hx Hp. induction l as [| y l IH]; [reflexivity |].
  cbn [insert]. rewrite (Hx y (or_introl eq_refl)).
  destruct (Z.leb_spec (key y) (key x)) as [Hle | Hlt]; [reflexivity |].
  cbn [filter] in *. rewrite IH by (intros z Hz; apply Hx; now right).
  destruct (p x) eqn:Epx, (p y) eqn:Epy; try reflexivity.
  pose proof (Hp x y Epx Epy). lia.
Qed.

(** The sort is stable: the elements of one class of ties come out in the
    order they went in. *)
Lemma sort_filter (p : A -> bool) (l : list A) :
  agrees comparefn key l ->
  (forall a b, p a = true -> p b = true -> key a = key b) ->
  filter p (sort comparefn l) = filter p l.
Proof.
  intros Hag Hp. induction l as [| x l IH]; [reflexivity |].
  cbn [sort]. rewrite insert_filter; trivial.
  - cbn [filter]. rewrite IH; [reflexivity |].
    intros a b Ha Hb. apply Hag; now right.
  - intros y Hy. apply Hag; [now left | right; now apply In_sort].
Qed.

(** Elements that all tie are left as they are. *)
Lemma sort_ties (l : list A) :
  (forall x y, In x l -> In y l -> keeps_order comparefn x y = true) ->
  sort comparefn l = l.
Proof.
  induction l as [| x l IH]; intros H; [reflexivity |].
  cbn [sort]. rewrite IH by (intros a b Ha Hb; apply H; now right).
  destruct l as [| y l]; [reflexivity |].
  cbn [insert]. now rewrite H by (simpl; auto).
Qed.

(** A stable sorted arrangement is unique: whatever algorithm an engine
    sorts with, a stable one returns what [sort] returns. *)
Lemma stable_arrangement_unique (eqb : A -> A -> bool) (l1 l2 : list A) :
  (forall a b, eqb a b = true <-> key a = key b) ->
  StronglySorted (fun a b => key b <= key a) l1 ->
  StronglySorted (fun a b => key b <= key a) l2 ->
  Permutation l1 l2 ->
  (forall c, filter (eqb c) l1 = filter (eqb c) l2) ->
  l1 = l2.
Proof.
  intros Heqb H1. revert l2.
  induction H1 as [| x l1 H1 IH Hx]; intros l2 H2 Hperm Hst.
  - now apply Permutation_nil in Hperm.
  - destruct H2 as [| y l2 H2 Hy].
    + apply Permutation_sym, Permutation_nil in Hperm. discriminate.
    + assert (Hxy : key x = key y).
      { assert (Hin1 : In y (x :: l1))
          by (apply (Permutation_in _ (Permutation_sym Hperm)); now left).
        assert (Hin2 : In x (y :: l2))
          by (apply (Permutation_in _ Hperm); now left).
        rewrite Forall_forall in Hx, Hy.
        destruct Hin1 as [-> | Hin1]; [reflexivity |].
        destruct Hin2 as [-> | Hin2]; [reflexivity |].
        specialize (Hx _ Hin1). specialize (Hy _ Hin2). simpl in *. lia. }
      assert (Hhead : x = y).
      { specialize (Hst x). cbn [filter] in Hst.
        rewrite (proj2 (Heqb x x) eq_refl), (proj2 (Heqb x y) Hxy) in Hst.
        now injection Hst. }
      subst y. f_equal. apply IH; trivial.
      * now apply Permutation_cons_inv in Hperm.
      * intros c. specialize (Hst c). cbn [filter] in Hst.
        destruct (eqb c x); [now injection Hst | exact Hst].
Qed.

End ArrayFacts.

Lemma StronglySorted_weaken (A : Type) (R1 R2 : A -> A -> Prop) (l : list A) :
  (forall a b, In a l -> In b l -> R1 a b -> R2 a b) ->
  StronglySorted R1 l -> StronglySorted R2 l.
Proof.
  intros H Hs. induction Hs as [| x l Hs IH Hx]; constructor.
  - apply IH. intros a b Ha Hb. apply H; now right.
  - rewrite Forall_forall in *. intros y Hy.
    apply H; [now left | now right | now apply Hx].
Qed.

Lemma In_firstn (A : Type) (n : nat) (l : list A) (x : A) :
  In x (firstn n l) -> In x l.
Proof.
  intros H. rewrite <- (firstn_skipn n l). apply in_or_app. now left.
Qed.

Lemma StronglySorted_firstn (A : Type) (R : A -> A -> Prop) (n : nat)
      (l : list A) :
  StronglySorted R l -> StronglySorted R (firstn n l).
Proof.
  intros Hs. revert n. induction Hs as [| x l Hs IH Hx]; intros [| n]; simpl;
    try constructor.
  - apply IH.
  - rewrite Forall_forall in *. intros y Hy. apply Hx.
    now apply In_firstn in Hy.
Qed.

(* ================================================================== *)
(** * Facts about the scores *)
(* ================================================================== *)

Lemma reachable_add (x c : number) :
  reachable x = true -> c = lit_0_1 \/ c = lit_0_2 ->
  reachable (x + c)%num = true.
Proof.
  intros H Hc. unfold reachable in H. apply orb_prop in H as [H | H].
  - apply mem_In in H.
    destruct Hc as [-> | ->]; each_partial_sum H; vm_compute; reflexivity.
  - unfold reachable. apply orb_true_iff. right.
    destruct Hc as [-> | ->]; apply add_big; trivial; lia.
Qed.

Lemma word_step_reachable (content titleLower word : string) (acc : number) :
  reachable acc = true ->
  reachable (word_step content titleLower acc word) = true.
Proof.
  intros H. unfold word_step.
  destruct (includes content word); [| exact H].
  destruct (includes titleLower word); auto using reachable_add.
Qed.

Lemma fold_word_step_reachable (content titleLower : string)
      (words : list string) (acc : number) :
  reachable acc = true ->
  reachable (fold_left (word_step content titleLower) words acc) = true.
Proof.
  revert acc. induction words as [| w words IH]; intros acc H; simpl;
    [exact H |].
  apply IH. now apply word_step_reachable.
Qed.

Lemma clamp_big (x : number) : is_big x = true -> Spec.clamp x = one.
Proof.
  destruct x as [s | [|] | | [|] m e]; try discriminate; [reflexivity |].
  unfold is_big. intros H. apply andb_prop in H as [He Hm].
  apply Z.leb_le in He. apply Z.leb_le in Hm.
  assert (Hm' : (4503599627370496 <= m)%positive).
  { change (2 ^ 52) with (Zpos 4503599627370496) in Hm. exact Hm. }
  clear Hm.
  unfold Spec.clamp, Number.ltb, SFltb, one. cbn [SFcompare].
  destruct (Z.compare_spec (-52) e) as [Heq | Hlt | Hgt].
  - subst e. rewrite Pos.compare_cont_spec. cbn [Pos.switch_Eq].
    destruct (Pos.compare_spec 4503599627370496 m) as [Heq | Hlt | Hgt].
    + now subst m.
    + reflexivity.
    + exfalso. apply Pos.lt_nle in Hgt. contradiction.
  - reflexivity.
  - lia.
Qed.

(** Whatever the query and the article, the capped score is one of the
    seventeen values of [final_scores]. *)
Lemma clamp_final (x : number) :
  reachable x = true -> In (Spec.clamp x) final_scores.
Proof.
  intros H. unfold reachable in H. apply orb_prop in H as [H | H].
  - apply mem_In in H. each_partial_sum H; apply mem_In; vm_compute;
      reflexivity.
  - rewrite clamp_big by exact H. apply mem_In. vm_compute. reflexivity.
Qed.

Lemma score_article_final (queryLower : string) (queryWords : list string)
      (a : Article) :
  In (score (score_article queryLower queryWords a)) final_scores.
Proof.
  unfold score_article. cbn [score]. rewrite Math_min_one.
  apply clamp_final, fold_word_step_reachable.
  destruct (includes _ _); vm_compute; reflexivity.
Qed.

Lemma all_pairs_spec (p : number -> number -> bool) (l : list number) :
  all_pairs p l = true ->
  forall a b, In a l -> In b l -> p a b = true.
Proof.
  unfold all_pairs. intros H a b Ha Hb.
  rewrite forallb_forall in H. specialize (H a Ha).
  rewrite forallb_forall in H. now apply H.
Qed.

(** On the final scores, [b.score - a.score] is positive exactly when the
    value of [b] is above that of [a]. *)
Lemma keeps_order_rank (x y : SearchResult) :
  In (score x) final_scores -> In (score y) final_scores ->
  keeps_order comparefn x y = (score_rank y <=? score_rank x).
Proof.
  intros Hx Hy. unfold keeps_order, SortCompare, comparefn, score_rank.
  apply eqb_prop.
  apply (@all_pairs_spec
           (fun a b =>
              Bool.eqb
                (negb (zero <? (if is_nan (b - a) then zero else (b - a)))%num)
                (rank b <=? rank a))
           final_scores); [vm_compute; reflexivity | assumption..].
Qed.

Lemma leb_rank (a b : number) :
  In a final_scores -> In b final_scores ->
  (b <=? a)%num = (rank b <=? rank a).
Proof.
  intros Ha Hb. apply eqb_prop.
  apply (@all_pairs_spec
           (fun a b => Bool.eqb (b <=? a)%num (rank b <=? rank a))
           final_scores); [vm_compute; reflexivity | assumption..].
Qed.

Lemma rank_injective (a b : number) :
  In a final_scores -> In b final_scores -> rank a = rank b -> a = b.
Proof.
  intros Ha Hb Hr. apply number_eqb_eq.
  pose proof (@all_pairs_spec
                (fun a b => implb (rank a =? rank b) (number_eqb a b))
                final_scores eq_refl a b Ha Hb) as H.
  cbv beta in H. apply Z.eqb_eq in Hr. rewrite Hr in H. exact H.
Qed.

Lemma positive_final_in_range (r : SearchResult) :
  In (score r) final_scores -> (zero <? score r)%num = true ->
  score_in_range r.
Proof.
  intros Hin Hpos. unfold score_in_range.
  assert (H : forallb
                (fun s => implb (zero <? s)%num
                                (negb (s <=? zero)%num && (zero <=? s)%num
                                 && (s <=? one)%num))
                final_scores = true) by (vm_compute; reflexivity).
  rewrite forallb_forall in H. specialize (H _ Hin). rewrite Hpos in H.
  cbn [implb] in H. apply andb_prop in H as [H H3].
  apply andb_prop in H as [H1 H2]. apply negb_true_iff in H1. auto.
Qed.

(* ================================================================== *)
(** * The structure of a result list *)
(* ================================================================== *)

Lemma kept_final (articles : list Article) (query : string) (r : SearchResult) :
  In r (kept articles query) ->
  In (score r) final_scores /\ (zero <? score r)%num = true /\
  In r (scored articles query).
Proof.
  unfold kept. intros H. apply filter_In in H as [Hin Hpos].
  repeat split; trivial.
  unfold scored in Hin. apply in_map_iff in Hin as (a & <- & _).
  apply score_article_final.
Qed.

Lemma kept_agrees (articles : list Article) (query : string) :
  agrees comparefn score_rank (kept articles query).
Proof.
  intros x y Hx Hy. apply keeps_order_rank; now apply kept_final in Hx, Hy.
Qed.

Lemma mockSearch_firstn (articles : list Article) (query : string) (limit : Z) :
  exists n,
    mockSearch articles query limit =
    firstn n (sort comparefn (kept articles query)).
Proof.
  unfold mockSearch. fold (kept articles query). rewrite slice_from_0.
  eexists. reflexivity.
Qed.

Lemma mockSearch_In_kept (articles : list Article) (query : string)
      (limit : Z) (r : SearchResult) :
  In r (mockSearch articles query limit) -> In r (kept articles query).
Proof.
  destruct (mockSearch_firstn articles query limit) as [n ->].
  intros H. apply In_firstn in H. now apply In_sort in H.
Qed.

(* ================================================================== *)
(** * The scoring rule *)
(* ================================================================== *)

(** The functions of the code mean what the specification says. *)

Lemma strip_prefix_Some (p s r : string) :
  strip_prefix p s = Some r -> s = p ++ r.
Proof.
  revert s. induction p as [| a p IH]; intros [| b s]; simpl;
    try discriminate; try (now intros [= <-]).
  destruct (Ascii.eqb_spec a b) as [<- | N]; [| discriminate].
  intros H. now rewrite (IH s H).
Qed.

Lemma includes_contains (s t : string) :
  includes s t = true <-> Spec.contains s t.
Proof.
  assert (Here : forall s r, strip_prefix t s = Some r ->
                             Spec.contains s t).
  { intros s0 r H. exists EmptyString, r. cbn [append].
    exact (@strip_prefix_Some t s0 r H). }
  split.
  - induction s as [| c s IH]; cbn [includes]; unfold startsWith.
    + destruct (strip_prefix t EmptyString) as [r |] eqn:E;
        [intros _; now apply (Here _ r) | discriminate].
    + destruct (strip_prefix t (String c s)) as [r |] eqn:E;
        [intros _; now apply (Here _ r) |].
      cbn [orb]. intros H. destruct (IH H) as (before & after & ->).
      now exists (String c before), after.
  - intros (before & after & ->).
    induction before as [| c before IH]; cbn [append].
    + destruct (t ++ after) eqn:E; cbn [includes]; unfold startsWith;
        rewrite <- E, strip_prefix_append; reflexivity.
    + cbn [includes]. rewrite IH. apply orb_true_r.
Qed.

Lemma includes_not_contains (s t : string) :
  includes s t = false <-> ~ Spec.contains s t.
Proof.
  rewrite <- includes_contains. now destruct (includes s t).
Qed.

Lemma lower_char_unit (c : ascii) : lower_char c = Spec.lowercase_unit c.
Proof. destruct c as [[] [] [] [] [] [] [] []]; vm_compute; reflexivity. Qed.

Lemma toLowerCase_lowercase (s : string) : toLowerCase s = Spec.lowercase s.
Proof.
  unfold Spec.lowercase.
  induction s as [| c s IH]; cbn [toLowerCase list_ascii_of_string map
                                  string_of_list_ascii]; [reflexivity |].
  now rewrite IH, lower_char_unit.
Qed.

Lemma is_space_white (c : ascii) : is_space c = Spec.white c.
Proof. destruct c as [[] [] [] [] [] [] [] []]; vm_compute; reflexivity. Qed.

Lemma join_concat (sep : string) (parts : list string) :
  join sep parts = String.concat sep parts.
Proof.
  induction parts as [| p parts IH]; [reflexivity |].
  destruct parts as [| q parts]; [reflexivity |].
  cbn [join String.concat] in *. now rewrite IH.
Qed.

Lemma searchableContent_text (a : Article) :
  searchableContent a = Spec.searchable_text a.
Proof.
  unfold searchableContent, Spec.searchable_text, tags_or_empty.
  now rewrite toLowerCase_lowercase, join_concat.
Qed.

(** White space and its absence, along a concatenation. *)

Lemma list_ascii_append (a b : string) :
  list_ascii_of_string (a ++ b) =
  (list_ascii_of_string a ++ list_ascii_of_string b)%list.
Proof.
  induction a as [| c a IH]; cbn [append list_ascii_of_string app];
    [reflexivity | now rewrite IH].
Qed.

Lemma blank_append (a b : string) :
  Spec.blank (a ++ b) <-> Spec.blank a /\ Spec.blank b.
Proof. unfold Spec.blank. rewrite list_ascii_append. apply Forall_app. Qed.

Lemma solid_append (a b : string) :
  Spec.solid (a ++ b) <-> Spec.solid a /\ Spec.solid b.
Proof. unfold Spec.solid. rewrite list_ascii_append. apply Forall_app. Qed.

Lemma blank_unit (c : ascii) :
  Spec.white c = true -> Spec.blank (String c EmptyString).
Proof. intros H. repeat constructor. exact H. Qed.

Lemma solid_unit (c : ascii) :
  Spec.white c = false -> Spec.solid (String c EmptyString).
Proof. intros H. repeat constructor. exact H. Qed.

Lemma rev_string_cons (c : ascii) (s : string) :
  rev_string EmptyString (String c s) =
  rev_string EmptyString s ++ String c EmptyString.
Proof. cbn [rev_string]. apply rev_string_acc. Qed.

(** The pieces of [split(/\s+/)] that are not empty are the tokens. *)

Lemma split_ws_from_tokens (s : string) :
  forall (cur : string) (in_run : bool) (gap : string),
    Spec.solid (rev_string EmptyString cur) ->
    Spec.blank gap ->
    (in_run = true -> cur = EmptyString) ->
    Spec.Tokens (gap ++ rev_string EmptyString cur ++ s)
                (filter not_empty (split_ws_from cur in_run s)).
Proof.
  induction s as [| c s IH]; intros cur in_run gap Hcur Hgap Hrun;
    cbn [split_ws_from].
  - cbn [filter].
    destruct (rev_string EmptyString cur) as [| x w] eqn:E; cbn [not_empty].
    + cbn [append]. rewrite append_empty_r. now apply Spec.tokens_none.
    + apply Spec.tokens_word; trivial; [discriminate | now left |].
      apply Spec.tokens_none. constructor.
  - rewrite is_space_white. destruct (Spec.white c) eqn:W.
    + assert (Skip : Spec.Tokens (gap ++ String c s)
                       (filter not_empty
                               (split_ws_from EmptyString true s))).
      { specialize (IH EmptyString true (gap ++ String c EmptyString)).
        cbn [rev_string append] in IH. rewrite append_assoc in IH.
        apply IH; trivial; [constructor |].
        apply blank_append. split; [exact Hgap | now apply blank_unit]. }
      destruct in_run.
      * rewrite (Hrun eq_refl). exact Skip.
      * cbn [filter].
        destruct (rev_string EmptyString cur) as [| x w] eqn:E;
          cbn [not_empty]; [cbn [append]; exact Skip |].
        apply Spec.tokens_word; trivial; [discriminate | |].
        -- right. now exists c, s.
        -- specialize (IH EmptyString true (String c EmptyString)).
           cbn [rev_string append] in IH.
           apply IH; trivial; [constructor | now apply blank_unit].
    + specialize (IH (String c cur) false gap).
      rewrite rev_string_cons, append_assoc in IH. cbn [append] in IH.
      apply IH; trivial; [| discriminate].
      apply solid_append. split; [exact Hcur | now apply solid_unit].
Qed.

Lemma split_ws_tokens (s : string) :
  Spec.Tokens s (filter not_empty (split_ws s)).
Proof.
  exact (@split_ws_from_tokens s EmptyString false EmptyString
           (Forall_nil _) (Forall_nil _) (fun H => False_ind _ (diff_false_true H))).
Qed.

Lemma queryWords_long (queryLower : string) :
  queryWords_of queryLower =
  filter Spec.long (filter not_empty (split_ws queryLower)).
Proof.
  unfold queryWords_of. induction (split_ws queryLower) as [| w l IH];
    [reflexivity |].
  cbn [filter]. destruct w as [| c w]; cbn [not_empty filter].
  - exact IH.
  - rewrite IH.
    replace (2 <? Z.of_nat (String.length (String c w)))
      with (Spec.long (String c w)); [reflexivity |].
    unfold Spec.long.
    destruct (Nat.leb_spec (String.length (String c w)) 2),
             (Z.ltb_spec 2 (Z.of_nat (String.length (String c w))));
      cbn [negb]; try reflexivity; lia.
Qed.

(** The loop over the words follows the bonus of the tokens. *)
Lemma fold_word_step_bonus (text titleLower : string) (words : list string) :
  forall x,
    Spec.Bonus text titleLower words x
               (fold_left (word_step text titleLower) words x).
Proof.
  induction words as [| w words IH]; intros x; cbn [fold_left].
  - constructor.
  - unfold word_step at 2.
    destruct (includes text w) eqn:Et.
    + apply includes_contains in Et.
      destruct (includes titleLower w) eqn:El.
      * apply includes_contains in El. now apply Spec.bonus_title.
      * apply includes_not_contains in El. now apply Spec.bonus_text.
    + apply includes_not_contains in Et. now apply Spec.bonus_miss.
Qed.

Lemma score_article_Score (query : string) (a : Article) :
  Spec.Score query a
    (score (score_article (toLowerCase query)
                          (queryWords_of (toLowerCase query)) a)).
Proof.
  unfold score_article, Spec.Score. cbn [score].
  rewrite Math_min_one, queryWords_long, searchableContent_text,
    !toLowerCase_lowercase.
  exists (filter not_empty (split_ws (Spec.lowercase query))).
  eexists. eexists.
  split; [apply split_ws_tokens |]. split; [| split; [| reflexivity]].
  2: apply fold_word_step_bonus.
  unfold Spec.Phrase.
  destruct (includes (Spec.searchable_text a) (Spec.lowercase query)) eqn:E.
  - left. split; [now apply includes_contains | reflexivity].
  - right. split; [now apply includes_not_contains | reflexivity].
Qed.

Lemma scored_In (articles : list Article) (query : string) (r : SearchResult) :
  In r (scored articles query) ->
  exists a, In a articles /\
    r = score_article (toLowerCase query) (queryWords_of (toLowerCase query)) a.
Proof.
  unfold scored. intros H. apply in_map_iff in H as (a & <- & Ha).
  now exists a.
Qed.

(** The rule of the specification leaves no choice: a string has one
    list of tokens, and an article one score. *)

Lemma word_rest_unique (word : string) :
  forall word' rest rest',
    Spec.solid word -> Spec.solid word' ->
    (rest = EmptyString \/
     exists c r, rest = String c r /\ Spec.white c = true) ->
    (rest' = EmptyString \/
     exists c r, rest' = String c r /\ Spec.white c = true) ->
    word ++ rest = word' ++ rest' ->
    word = word' /\ rest = rest'.
Proof.
  induction word as [| c word IH]; intros [| c' word'] rest rest' Hw Hw' Hr Hr';
    cbn [append].
  - auto.
  - intros ->. destruct Hr as [E | (x & r & E & Hx)]; [discriminate E |].
    injection E as <- _. inversion_clear Hw' as [| ? ? Hc _]. congruence.
  - intros <-. destruct Hr' as [E | (x & r & E & Hx)]; [discriminate E |].
    injection E as <- _. inversion_clear Hw as [| ? ? Hc _]. congruence.
  - intros [= <- H]. inversion_clear Hw as [| ? ? _ Hs].
    inversion_clear Hw' as [| ? ? _ Hs'].
    destruct (IH word' rest rest' Hs Hs' Hr Hr' H) as [-> ->]. auto.
Qed.

Lemma gap_word_unique (gap : string) :
  forall gap' word word' rest rest',
    Spec.blank gap -> Spec.blank gap' ->
    word <> EmptyString -> word' <> EmptyString ->
    Spec.solid word -> Spec.solid word' ->
    (rest = EmptyString \/
     exists c r, rest = String c r /\ Spec.white c = true) ->
    (rest' = EmptyString \/
     exists c r, rest' = String c r /\ Spec.white c = true) ->
    gap ++ word ++ rest = gap' ++ word' ++ rest' ->
    gap = gap' /\ word = word' /\ rest = rest'.
Proof.
  induction gap as [| c gap IH];
    intros [| c' gap'] word word' rest rest' Hg Hg' Hn Hn' Hw Hw' Hr Hr';
    cbn [append].
  - intros H. destruct (word_rest_unique Hw Hw' Hr Hr' H) as [-> ->]. auto.
  - destruct word as [| x word]; [contradiction |].
    intros [= -> _]. inversion_clear Hw as [| ? ? Hx _].
    inversion_clear Hg' as [| ? ? Hc _]. congruence.
  - destruct word' as [| x word']; [contradiction |].
    intros [= <- _]. inversion_clear Hw' as [| ? ? Hx _].
    inversion_clear Hg as [| ? ? Hc _]. congruence.
  - intros [= <- H]. inversion_clear Hg as [| ? ? _ Hs].
    inversion_clear Hg' as [| ? ? _ Hs'].
    destruct (IH gap' word word' rest rest' Hs Hs' Hn Hn' Hw Hw' Hr Hr' H)
      as (-> & -> & ->).
    auto.
Qed.

Lemma blank_no_word (gap word rest : string) :
  Spec.blank (gap ++ word ++ rest) -> Spec.solid word ->
  word = EmptyString.
Proof.
  intros Hb Hw. apply blank_append in Hb as [_ Hb].
  apply blank_append in Hb as [Hb _].
  destruct word as [| c word]; [reflexivity |].
  inversion_clear Hb as [| ? ? Hc _]. inversion_clear Hw as [| ? ? Hc' _].
  congruence.
Qed.

Lemma Tokens_unique (s : string) (l : list string) :
  Spec.Tokens s l -> forall l', Spec.Tokens s l' -> l = l'.
Proof.
  induction 1 as [s Hb | gap word rest others Hg Hn Hw Hr _ IH];
    intros l' H'.
  - inversion H' as [| gap' word' rest' others' Hg' Hn' Hw' Hr' Hrest E];
      [reflexivity |].
    subst s. exfalso. apply Hn'.
    exact (@blank_no_word gap' word' rest' Hb Hw').
  - remember (gap ++ word ++ rest) as s eqn:Es.
    destruct H' as [s Hb | gap' word' rest' others' Hg' Hn' Hw' Hr' Hrest].
    + subst s. exfalso. apply Hn.
      exact (@blank_no_word gap word rest Hb Hw).
    + destruct (gap_word_unique Hg Hg' Hn Hn' Hw Hw' Hr Hr' (eq_sym Es))
        as (_ & <- & <-).
      now rewrite (IH _ Hrest).
Qed.

Lemma Bonus_unique (text titleLower : string) (toks : list string)
      (x y : number) :
  Spec.Bonus text titleLower toks x y ->
  forall y', Spec.Bonus text titleLower toks x y' -> y = y'.
Proof.
  induction 1 as [x | t rest x y Ht _ IH | t rest x y Ht Hl _ IH
                  | t rest x y Ht Hl _ IH];
    intros y' H'; inversion H'; subst; try contradiction; auto.
Qed.

Lemma Score_unique (query : string) (a : Article) (x y : number) :
  Spec.Score query a x -> Spec.Score query a y -> x = y.
Proof.
  intros (words & start & total & Hw & Hp & Hb & ->)
         (words' & start' & total' & Hw' & Hp' & Hb' & ->).
  rewrite (Tokens_unique Hw Hw') in Hb.
  assert (start = start') as ->.
  { destruct Hp as [[H ->] | [H ->]], Hp' as [[H' ->] | [H' ->]];
      try reflexivity; contradiction. }
  now rewrite (Bonus_unique Hb Hb').
Qed.

(** C1.  The score that [mockSearch] computes for an article is the score
    of the specification: start at 0; add 0.5 if the lowercased
    searchable text (title, summary, body, category and tags
    concatenated) contains the lowercased query as a contiguous
    substring; split the lowercased query on white space and discard the
    tokens of length at most 2; for each token left that the text
    contains add 0.1, and 0.2 more if the lowercased title contains it;
    cap the sum at 1.  This holds for the entries of [scored], article
    by article, and for each result returned; and the rule gives an
    article one score only. *)
Theorem score_article_spec (articles : list Article) (query : string)
        (limit : Z) :
  Forall2 (fun a r => article r = a /\ Spec.Score query a (score r))
          articles (scored articles query) /\
  (forall r, In r (mockSearch articles query limit) ->
             Spec.Score query (article r) (score r)) /\
  (forall a x y, Spec.Score query a x -> Spec.Score query a y -> x = y).
Proof.
  split; [| split].
  - unfold scored. induction articles as [| a articles IH]; cbn [map];
      constructor; [| exact IH].
    split; [reflexivity | apply score_article_Score].
  - intros r Hr. apply mockSearch_In_kept, kept_final in Hr as (_ & _ & Hr).
    apply scored_In in Hr as (a & _ & ->).
    apply score_article_Score.
  - intros a x y. apply Score_unique.
Qed.

(* ================================================================== *)
(** * Results and articles *)
(* ================================================================== *)

Lemma article_scored (articles : list Article) (query : string) :
  map article (scored articles query) = articles.
Proof.
  unfold scored. rewrite map_map. cbn [score_article article].
  apply map_id.
Qed.

Lemma count_occ_map_filter_le (A B : Type)
      (dec : forall x y : B, {x = y} + {x <> y})
      (f : A -> B) (p : A -> bool) (l : list A) (b : B) :
  (count_occ dec (map f (filter p l)) b <= count_occ dec (map f l) b)%nat.
Proof.
  induction l as [| x l IH]; simpl; [lia |].
  destruct (p x); simpl; destruct (dec (f x) b); lia.
Qed.

Lemma count_occ_firstn_le (A : Type)
      (dec : forall x y : A, {x = y} + {x <> y})
      (n : nat) (l : list A) (a : A) :
  (count_occ dec (firstn n l) a <= count_occ dec l a)%nat.
Proof.
  revert n. induction l as [| x l IH]; intros [| n]; simpl.
  - lia.
  - lia.
  - destruct (dec x a); lia.
  - specialize (IH n). destruct (dec x a); lia.
Qed.

(** C10.  Every result carries the id of its own article, its article is
    an article of the corpus as it was passed in, and no article of the
    corpus accounts for more results than it has occurrences in the
    corpus: one article, at most one result. *)
Theorem mockSearch_articles (articles : list Article) (query : string)
        (limit : Z) :
  (forall r, In r (mockSearch articles query limit) ->
             result_id r = id (article r) /\ In (article r) articles) /\
  (forall a,
      (count_occ Article_eq_dec
                 (map article (mockSearch articles query limit)) a
       <= count_occ Article_eq_dec articles a)%nat).
Proof.
  split.
  - intros r Hr. apply mockSearch_In_kept, kept_final in Hr as (_ & _ & Hr).
    apply scored_In in Hr as (a & Ha & ->). now split.
  - intros a. destruct (mockSearch_firstn articles query limit) as [n ->].
    rewrite <- firstn_map.
    etransitivity; [apply count_occ_firstn_le |].
    rewrite (proj1 (Permutation_count_occ Article_eq_dec _ _)
                   (Permutation_map article
                      (sort_perm comparefn (kept articles query))) a).
    unfold kept.
    etransitivity; [apply count_occ_map_filter_le |].
    now rewrite article_scored.
Qed.

(* ================================================================== *)
(** * Order, range and length of a result list *)
(* ================================================================== *)

Lemma sorted_by_rank_non_increasing (rs : list SearchResult) :
  (forall r, In r rs -> In (score r) final_scores) ->
  StronglySorted (fun a b => score_rank b <= score_rank a) rs <->
  non_increasing rs.
Proof.
  intros Hfin. unfold non_increasing.
  split; apply StronglySorted_weaken; intros a b Ha Hb H.
  - rewrite leb_rank by auto. now apply Z.leb_le.
  - rewrite leb_rank in H by auto. now apply Z.leb_le.
Qed.

Lemma sort_kept_non_increasing (articles : list Article) (query : string) :
  non_increasing (sort comparefn (kept articles query)).
Proof.
  apply sorted_by_rank_non_increasing.
  - intros r Hr. apply In_sort in Hr. now apply kept_final in Hr.
  - apply sort_sorted, kept_agrees.
Qed.

(** C4.  Whatever the query, the limit and the corpus, the results are in
    non-increasing order of score, none has a score of 0 or less, and
    every score is within [0, 1]; the list has at most [limit] entries,
    for every limit that can bound a length, that is every limit that
    is not negative. *)
Theorem mockSearch_ranking (articles : list Article) (query : string)
        (limit : Z) :
  non_increasing (mockSearch articles query limit) /\
  Forall score_in_range (mockSearch articles query limit) /\
  (0 <= limit ->
   Z.of_nat (List.length (mockSearch articles query limit)) <= limit).
Proof.
  split; [| split].
  - destruct (mockSearch_firstn articles query limit) as [n ->].
    apply StronglySorted_firstn, sort_kept_non_increasing.
  - apply Forall_forall. intros r Hr.
    apply mockSearch_In_kept, kept_final in Hr as (Hfin & Hpos & _).
    now apply positive_final_in_range.
  - intros Hlimit. unfold mockSearch. now apply length_slice_from_0.
Qed.

Lemma mockSearch_ranking_witness :
  ranked_within 1 (mockSearch [guide_1; guide_1] "typescript guide" 1).
Proof.
  destruct (mockSearch_ranking [guide_1; guide_1] "typescript guide" 1)
    as (H1 & H2 & H3).
  repeat split; [exact H1 | exact H2 | apply H3; lia].
Defined.

(* ================================================================== *)
(** * Determinism and stability *)
(* ================================================================== *)

Lemma filter_none (A : Type) (p : A -> bool) (l : list A) :
  (forall x, In x l -> p x = false) -> filter p l = [].
Proof.
  induction l as [| x l IH]; intros H; simpl; [reflexivity |].
  rewrite (H x) by now left. apply IH. intros y Hy. apply H. now right.
Qed.

Lemma filter_has_score_kept (articles : list Article) (query : string)
      (v : number) :
  filter (has_score v) (kept articles query) =
  if (zero <? v)%num then filter (has_score v) (scored articles query)
  else [].
Proof.
  unfold kept. induction (scored articles query) as [| r l IH]; simpl.
  - now destruct (zero <? v)%num.
  - destruct (zero <? score r)%num eqn:Epos; simpl;
      destruct (has_score v r) eqn:Ehas; rewrite IH;
      try reflexivity; unfold has_score in Ehas;
      apply number_eqb_eq in Ehas; rewrite <- Ehas, Epos; reflexivity.
Qed.

Lemma has_score_rank (v : number) (a b : SearchResult) :
  has_score v a = true -> has_score v b = true ->
  score_rank a = score_rank b.
Proof.
  unfold has_score, score_rank. intros Ha Hb.
  apply number_eqb_eq in Ha, Hb. congruence.
Qed.

Lemma number_eqb_refl (x : number) : number_eqb x x = true.
Proof.
  destruct x as [[|] | [|] | | [|] m e]; simpl; try reflexivity;
    now rewrite Pos.eqb_refl, Z.eqb_refl.
Qed.

Lemma same_rank_has_score (r0 c r : SearchResult) :
  In (score r0) final_scores -> In (score r) final_scores ->
  score_rank r0 = score_rank c ->
  (score_rank c =? score_rank r) = has_score (score r0) r.
Proof.
  intros H0 Hr Hc. unfold has_score. rewrite <- Hc.
  destruct (Z.eqb_spec (score_rank r0) (score_rank r)) as [Heq | Hne].
  - apply rank_injective in Heq; trivial. rewrite Heq.
    symmetry. apply number_eqb_refl.
  - destruct (number_eqb (score r) (score r0)) eqn:E; [| reflexivity].
    apply number_eqb_eq in E. unfold score_rank in Hne. congruence.
Qed.

(** Any stable arrangement of the kept results in non-increasing order of
    score is the one that [sort] computes. *)
Lemma stable_order_unique (articles : list Article) (query : string)
      (l : list SearchResult) :
  Permutation l (kept articles query) ->
  non_increasing l ->
  (forall v, filter (has_score v) l =
             filter (has_score v) (kept articles query)) ->
  l = sort comparefn (kept articles query).
Proof.
  intros Hperm Hsorted Hstable.
  assert (Hfin : forall r, In r l -> In (score r) final_scores).
  { intros r Hr. apply (Permutation_in _ Hperm) in Hr.
    now apply kept_final in Hr. }
  apply (@stable_arrangement_unique _ score_rank
           (fun a b => score_rank a =? score_rank b)).
  - intros a b. apply Z.eqb_eq.
  - now apply sorted_by_rank_non_increasing.
  - apply sort_sorted, kept_agrees.
  - rewrite Hperm. symmetry. apply sort_perm.
  - intros c.
    rewrite (@sort_filter _ comparefn score_rank)
      by (try apply kept_agrees; intros a b Ha Hb;
          apply Z.eqb_eq in Ha, Hb; congruence).
    destruct (find (fun r => score_rank c =? score_rank r)
                   (kept articles query)) as [r0 |] eqn:Efind.
    + apply find_some in Efind as [Hin0 Hr0]. apply Z.eqb_eq in Hr0.
      pose proof (kept_final _ _ _ Hin0) as (Hfin0 & _ & _).
      rewrite (filter_ext_in _ (has_score (score r0)) l)
        by (intros r Hr; apply same_rank_has_score; auto).
      rewrite (filter_ext_in _ (has_score (score r0)) (kept articles query))
        by (intros r Hr; apply same_rank_has_score; auto;
            now apply kept_final in Hr).
      apply Hstable.
    + rewrite !filter_none; trivial.
      * intros r Hr. exact (find_none _ _ Efind r Hr).
      * intros r Hr. apply (Permutation_in _ Hperm) in Hr.
        exact (find_none _ _ Efind r Hr).
Qed.

(** C5.  [mockSearch] is a function of the query, the limit and the
    corpus: two calls on the same three give the same list.  It is stable:
    for every score [v], the results with score [v] are, in order, the
    first so many entries with score [v] of the corpus as scored, so two
    results that tie stand as their articles stand in the corpus.  And the
    order does not depend on how the engine sorts: every stable
    arrangement of the kept results in non-increasing order of score gives
    the same list. *)
Theorem mockSearch_deterministic_stable (articles : list Article)
        (query : string) (limit : Z) :
  (forall rs rs',
      rs = mockSearch articles query limit ->
      rs' = mockSearch articles query limit -> rs = rs') /\
  (forall v, exists n,
      filter (has_score v) (mockSearch articles query limit) =
      firstn n (filter (has_score v) (scored articles query))) /\
  (forall l,
      Permutation l (kept articles query) ->
      non_increasing l ->
      (forall v, filter (has_score v) l =
                 filter (has_score v) (kept articles query)) ->
      mockSearch articles query limit = slice l 0 limit).
Proof.
  split; [| split].
  - intros rs rs' -> ->. reflexivity.
  - intros v. destruct (mockSearch_firstn articles query limit) as [n ->].
    destruct (filter_firstn (has_score v) n
                (sort comparefn (kept articles query))) as [n' ->].
    rewrite (@sort_filter _ comparefn score_rank)
      by (try apply kept_agrees; apply has_score_rank).
    rewrite filter_has_score_kept.
    destruct (zero <? v)%num; [now exists n' |].
    exists 0%nat. now destruct n'.
  - intros l Hperm Hsorted Hstable.
    rewrite (@stable_order_unique articles query l Hperm Hsorted Hstable).
    reflexivity.
Qed.

Lemma mockSearch_deterministic_stable_witness :
  mockSearch [guide_1; guide_1] "guide" 5 =
  slice [guide_hit; guide_hit] 0 5.
Proof.
  destruct (mockSearch_deterministic_stable [guide_1; guide_1] "guide" 5)
    as (_ & _ & H).
  assert (E : kept [guide_1; guide_1] "guide" = [guide_hit; guide_hit])
    by (vm_compute; reflexivity).
  apply H.
  - rewrite E. apply Permutation_refl.
  - repeat constructor.
  - intros v. rewrite E. reflexivity.
Defined.

(* ================================================================== *)
(** * The empty query, and queries of white space *)
(* ================================================================== *)

Lemma score_article_no_words (queryLower : string) (a : Article) :
  score_article queryLower [] a =
  {| result_id := id a;
     score := if includes (searchableContent a) queryLower
              then lit_0_5 else zero;
     article := a |}.
Proof.
  unfold score_article. cbn [fold_left].
  destruct (includes (searchableContent a) queryLower); reflexivity.
Qed.

Lemma kept_blank (articles : list Article) (query : string) :
  all_space query = true ->
  kept articles query =
  map phrase_result
      (filter (fun a => includes (searchableContent a) query) articles).
Proof.
  intros H. unfold kept, scored.
  rewrite (queryWords_all_space _ H), (toLowerCase_all_space _ H).
  induction articles as [| a articles IH]; [reflexivity |].
  cbn [map filter]. rewrite IH, score_article_no_words. cbn [score].
  destruct (includes (searchableContent a) query); reflexivity.
Qed.

Lemma sort_phrase_results (l : list Article) :
  sort comparefn (map phrase_result l) = map phrase_result l.
Proof.
  apply sort_ties. intros x y Hx Hy.
  apply in_map_iff in Hx as (a & <- & _), Hy as (b & <- & _).
  reflexivity.
Qed.

Lemma filter_includes_empty (articles : list Article) :
  filter (fun a => includes (searchableContent a) EmptyString) articles =
  articles.
Proof.
  induction articles as [| a articles IH]; [reflexivity |].
  cbn [filter]. now rewrite includes_empty, IH.
Qed.

(** C2, as the code has it.  The empty query is a substring of every
    searchable text, so every article scores 0.5 and the result is the
    corpus in its order, cut by [slice(0, limit)].  A query of white space
    has no token either, and the result is, in corpus order, the articles
    whose searchable text contains the query, each with score 0.5, cut by
    [slice(0, limit)]. *)
Theorem mockSearch_blank_query (articles : list Article) (limit : Z) :
  mockSearch articles EmptyString limit =
  slice (map phrase_result articles) 0 limit /\
  (forall query, all_space query = true ->
     mockSearch articles query limit =
     slice
       (map phrase_result
          (filter (fun a => includes (searchableContent a) query) articles))
       0 limit).
Proof.
  assert (H : forall query, all_space query = true ->
     mockSearch articles query limit =
     slice
       (map phrase_result
          (filter (fun a => includes (searchableContent a) query) articles))
       0 limit).
  { intros query Hq. unfold mockSearch. fold (kept articles query).
    now rewrite (@kept_blank articles query Hq), sort_phrase_results. }
  split; [| exact H].
  rewrite (H EmptyString eq_refl). now rewrite filter_includes_empty.
Qed.

Lemma mockSearch_blank_query_witness :
  mockSearch [guide_1] " " 10 = [phrase_result guide_1].
Proof.
  rewrite (proj2 (mockSearch_blank_query [guide_1] 10) " " eq_refl).
  reflexivity.
Defined.

(** The empty query and the query of one space both return the article of
    the one-article corpus. *)
Lemma blank_query_not_empty :
  mockSearch [guide_1] EmptyString 10 <> [] /\
  mockSearch [guide_1] " " 10 <> [].
Proof. split; vm_compute; discriminate. Qed.

(* ================================================================== *)
(** * The round-trip example *)
(* ================================================================== *)

Lemma slice_all (A : Type) (l : list A) (n : Z) :
  Z.of_nat (List.length l) <= n -> slice l 0 n = l.
Proof.
  intros H. rewrite slice_from_0.
  destruct (Z.ltb_spec n 0) as [Hneg | _]; [lia |].
  apply firstn_all2. lia.
Qed.

(** C3, as the code has it.  For the one-article corpus with title
    "TypeScript Guide", empty summary and body, category "Dev" and no tag,
    the query "typescript" returns exactly one result, and its score is
    0.5 + 0.1 + 0.2 = 0.8: the searchable text "typescript guide   dev"
    contains the query, so the exact phrase bonus applies, on top of the
    word match and the title bonus. *)
Theorem guide_scores_0_8 (i sl rt pa : string) (img : option Image)
        (limit : Z) :
  1 <= limit ->
  mockSearch [guide i sl rt pa img] "typescript" limit =
  [ {| result_id := i; score := lit_0_8;
       article := guide i sl rt pa img |} ] /\
  lit_0_8 = (((zero + lit_0_5) + lit_0_1) + lit_0_2)%num.
Proof.
  intros Hlimit. split; [| vm_compute; reflexivity].
  unfold mockSearch.
  assert (E : sort comparefn
                (filter (fun item => (zero <? score item)%num)
                        (scored [guide i sl rt pa img] "typescript")) =
              [ {| result_id := i; score := lit_0_8;
                   article := guide i sl rt pa img |} ])
    by (vm_compute; reflexivity).
  rewrite E. apply slice_all. simpl. lia.
Qed.

Lemma guide_scores_0_8_witness :
  mockSearch [guide_1] "typescript" 10 = [guide_hit].
Proof.
  apply (@guide_scores_0_8 "1" "typescript-guide" "5 min read"
            "2024-01-01T00:00:00.000Z" None 10).
  lia.
Defined.

(** The score of the one result is not 0.1 + 0.2, whether 0.3 is read as
    the sum of the two literals or as the literal 0.3. *)
Lemma guide_score_not_0_3 :
  ~ (exists r, mockSearch [guide_1] "typescript" 10 = [r] /\
               (score r = (lit_0_1 + lit_0_2)%num \/
                score r = ((zero + lit_0_1) + lit_0_2)%num \/
                score r = lit_0_3)).
Proof.
  intros (r & Hr & Hs).
  assert (E : mockSearch [guide_1] "typescript" 10 = [guide_hit])
    by (vm_compute; reflexivity).
  rewrite E in Hr. injection Hr as <-.
  vm_compute in Hs. destruct Hs as [Hs | [Hs | Hs]]; discriminate Hs.
Qed.

(* ================================================================== *)
(** * The content normalizer *)
(* ================================================================== *)

Lemma or_else_falsy (a b : value) : truthy a = false -> or_else a b = b.
Proof. unfold or_else. now intros ->. Qed.

Lemma transformArticle_truthy (now : string) (node : value) :
  truthy node = true ->
  transformArticle now node =
  (replaced <- path_replace (get node "path") ;;
   tags <- split_tags (get node "tags") ;;
   Return (VObj
     [ ("id", get node "id");
       ("title", get node "title");
       ("slug", or_else replaced (get node "id"));
       ("body", or_else (opt_get (get node "body") "processed") (VStr ""));
       ("summary", or_else (opt_get (get node "summary") "value") (VStr ""));
       ("category", or_else (get node "category") (VStr "General"));
       ("tags", tags);
       ("readTime", or_else (get node "readTime") (VStr "5 min read"));
       ("publishedAt",
         or_else (opt_get (get node "created") "time") (VStr now));
       ("image",
         if truthy (get node "image") then
           VObj
             [ ("url", get (get node "image") "url");
               ("alt", or_else (get (get node "image") "alt")
                               (get node "title"));
               ("width", or_else (get (get node "image") "width")
                                 (VNum num_1200));
               ("height", or_else (get (get node "image") "height")
                                  (VNum num_630)) ]
         else VUndefined) ])).
Proof. intros H. unfold transformArticle. now rewrite H. Qed.

Lemma path_replace_returns (path : value) :
  (exists v, path_replace path = Return v) <-> path_callable path = true.
Proof. destruct path; returns_or_throws. Qed.

Lemma split_tags_returns (tags : value) :
  (exists v, split_tags tags = Return v) <-> tags_callable tags = true.
Proof.
  unfold split_tags, tags_callable.
  destruct tags as [| | b | x | s | items | fields];
    try returns_or_throws.
  - destruct b; returns_or_throws.
  - destruct (truthy (VNum x)); returns_or_throws.
  - destruct (truthy (VStr s)); returns_or_throws.
Qed.

(** C6, as the code has it.  [transformArticle] returns [null] exactly
    when the node is falsy ([null], [undefined], the empty string, 0, NaN
    or [false]).  For any other node it returns an article exactly when
    [path] is absent or a string and [tags] is falsy or a string;
    otherwise calling [replace] or [split] raises a TypeError.  When it
    returns, a [tags] field "a, b , c" gives ["a","b","c"], any string of
    tags gives its comma-separated pieces, trimmed and in order, a missing
    (falsy) category gives "General", a missing (falsy) readTime gives
    "5 min read", and an absent path gives the node's id as slug. *)
Theorem transformArticle_normalizes (now : string) (node : value) :
  (transformArticle now node = Return VNull <-> truthy node = false) /\
  (truthy node = true ->
   ((exists fields, transformArticle now node = Return (VObj fields)) <->
    (path_callable (get node "path") && tags_callable (get node "tags"))%bool
    = true)) /\
  (forall art, truthy node = true -> transformArticle now node = Return art ->
     (get node "tags" = VStr "a, b , c" ->
      get art "tags" = VArr [VStr "a"; VStr "b"; VStr "c"]) /\
     (forall s, get node "tags" = VStr s -> s <> EmptyString ->
      get art "tags" = VArr (map (fun t => VStr (trim t)) (split_char "," s))) /\
     (truthy (get node "category") = false ->
      get art "category" = VStr "General") /\
     (truthy (get node "readTime") = false ->
      get art "readTime" = VStr "5 min read") /\
     (get node "path" = VUndefined \/ get node "path" = VNull ->
      get art "slug" = get node "id")).
Proof.
  split; [| split].
  - split; intros H.
    + destruct (truthy node) eqn:E; [| reflexivity].
      rewrite transformArticle_truthy in H by exact E.
      destruct (path_replace (get node "path")); simpl in H;
        [| discriminate H].
      destruct (split_tags (get node "tags")); simpl in H; discriminate H.
    + unfold transformArticle. now rewrite H.
  - intros Ht. rewrite transformArticle_truthy by exact Ht.
    rewrite andb_true_iff, <- path_replace_returns, <- split_tags_returns.
    split.
    + intros [fields H].
      destruct (path_replace (get node "path")) as [v |];
        [| discriminate H].
      destruct (split_tags (get node "tags")) as [v' |]; [| discriminate H].
      split; eexists; reflexivity.
    + intros [[v ->] [v' ->]]. eexists. reflexivity.
  - intros art Ht H. rewrite transformArticle_truthy in H by exact Ht.
    destruct (path_replace (get node "path")) as [replaced |] eqn:Ep;
      [| discriminate H].
    destruct (split_tags (get node "tags")) as [tags |] eqn:Et;
      [| discriminate H].
    cbn [bind] in H. injection H as <-.
    repeat split.
    + intros Htags. rewrite Htags in Et. cbn in Et. now injection Et as <-.
    + intros s Htags Hs. rewrite Htags in Et. unfold split_tags in Et.
      destruct s as [| c s]; [contradiction |].
      cbn [truthy] in Et. now injection Et as <-.
    + intros Hc. cbn. now apply or_else_falsy.
    + intros Hr. cbn. now apply or_else_falsy.
    + intros Hp. cbn.
      destruct Hp as [Hp | Hp]; rewrite Hp in Ep; cbn in Ep;
        injection Ep as <-; reflexivity.
Qed.

Lemma transformArticle_normalizes_witness :
  get (VObj
         [ ("id", VStr "42"); ("title", VUndefined); ("slug", VStr "42");
           ("body", VStr ""); ("summary", VStr "");
           ("category", VStr "General");
           ("tags", VArr [VStr "a"; VStr "b"; VStr "c"]);
           ("readTime", VStr "5 min read"); ("publishedAt", VStr now_1);
           ("image", VUndefined) ]) "tags" =
  VArr [VStr "a"; VStr "b"; VStr "c"].
Proof.
  apply (proj2 (proj2 (transformArticle_normalizes now_1 node_abc)));
    reflexivity.
Defined.

(** A node whose tags are a list makes [transformArticle] raise. *)
Lemma tag_list_raises :
  truthy node_tag_list = true /\
  transformArticle now_1 node_tag_list =
  Throw (TypeError "node.tags.split") /\
  ~ (exists art, transformArticle now_1 node_tag_list = Return art).
Proof.
  repeat split. intros [art H]. discriminate H.
Qed.

(* ================================================================== *)
(** * The indexer: the order of its steps *)
(* ================================================================== *)

Section IndexerFacts.
Import IndexContent Steps.

Lemma fst_seq (A B : Type) (m : run A) (k : A -> run B) :
  fst (seq m k) =
  (fst m ++ match snd m with Done a => fst (k a) | _ => [] end)%list.
Proof.
  destruct m as [t [a | e | c]]; cbn [seq fst snd].
  - destruct (k a). reflexivity.
  - now rewrite app_nil_r.
  - now rewrite app_nil_r.
Qed.

Lemma fst_try_catch (A : Type) (m : run A) (handler : Error -> run A) :
  fst (try_catch m handler) =
  (fst m ++ match snd m with Raised e => fst (handler e) | _ => [] end)%list.
Proof.
  destruct m as [t [a | e | c]]; cbn [try_catch fst snd].
  - now rewrite app_nil_r.
  - destruct (handler e). reflexivity.
  - now rewrite app_nil_r.
Qed.

Lemma fst_try_catch_exit (A : Type) (m : run A) (code : Z) :
  fst (try_catch m (fun _ => exit code)) = fst m.
Proof.
  rewrite fst_try_catch. destruct (snd m); apply app_nil_r.
Qed.

(** The existence-and-creation step starts with the existence check and
    makes calls of its own step only. *)
Lemma ensure_trace (w : World) (name : string) :
  exists rest,
    fst (ensureIndexExists w name) = ListIndexes :: rest /\
    Forall (fun ev => phase ev = 0%nat) (ListIndexes :: rest).
Proof.
  unfold ensureIndexExists, seq, call, ret.
  destruct (listIndexes w) as [[names |] | e]; cbn [negb];
    try destruct (existsb _ names); cbn [negb];
    try destruct (createIndex w name); cbn;
    eexists; split; try reflexivity; repeat constructor.
Qed.

Lemma reset_trace (w : World) (name : string) :
  fst (reset_index w name) =
  (if shouldReset w then [DeleteAll name] else []) /\
  (snd (reset_index w name) = Done tt \/
   exists e, snd (reset_index w name) = Raised e).
Proof.
  unfold reset_index, ret.
  destruct (shouldReset w); [| now split; [| left]].
  destruct (deleteAll w name) as [| reason]; [now split; [| left] |].
  cbn [fst snd]. split; [reflexivity |].
  destruct (clear_failed reason) as [[] | e]; [now left | right; now exists e].
Qed.

Lemma index_article_trace (w : World) (name : string) (a : value) :
  Forall (fun ev => phase ev = 3%nat /\
                    forall m text it tr, ev = Embed m text it tr ->
                                         embed_input w a = Return text)
         (fst (index_article w name a)).
Proof.
  unfold index_article, seq, call, eval.
  destruct (embed_input w a) as [text | e]; cbn; [| constructor].
  destruct (embed w text) as [embedding | e];
    [destruct (metadata_of w a) as [metadata | e];
     [destruct (upsert w name (get a "id")) |] |];
    cbn; repeat constructor; intros m text' it tr H;
    first [discriminate H | now injection H as _ <- _ _].
Qed.

Lemma index_articles_trace (w : World) (name : string)
      (articles : list value) :
  Forall (fun ev => phase ev = 3%nat /\
                    forall m text it tr, ev = Embed m text it tr ->
                      exists a, In a articles /\
                                embed_input w a = Return text)
         (fst (index_articles w name articles)).
Proof.
  induction articles as [| a articles IH]; [constructor |].
  cbn [index_articles]. rewrite fst_seq. apply Forall_app. split.
  - eapply Forall_impl; [| apply index_article_trace].
    cbn beta. intros ev [Hp He]. split; [exact Hp |].
    intros m text it tr H. exists a. split; [now left | now apply (He m text it tr)].
  - destruct (snd (index_article w name a)); [| constructor ..].
    eapply Forall_impl; [| exact IH].
    cbn beta. intros ev [Hp He]. split; [exact Hp |].
    intros m text it tr H. destruct (He m text it tr H) as (a' & Ha' & Ht).
    exists a'. split; [now right | exact Ht].
Qed.

Lemma fetch_trace (w : World) (name : string) :
  exists loop,
    fst (fetch_and_index w name) = FetchArticles :: loop /\
    Forall (fun ev => phase ev = 3%nat /\ embeds_truncated w ev) loop.
Proof.
  unfold fetch_and_index, seq, call, embeds_truncated, fetched.
  destruct (fetchArticles w) as [[| a articles] | e].
  - exists []. split; [reflexivity | constructor].
  - destruct (index_articles w name (a :: articles)) as [t o] eqn:E.
    exists t. split; [reflexivity |].
    pose proof (index_articles_trace w name (a :: articles)) as H.
    rewrite E in H. cbn [fst] in H.
    eapply Forall_impl; [| exact H].
    cbn beta. intros ev [Hp He]. split; [exact Hp |].
    destruct ev; cbn; trivial. now apply (He model text inputType truncate).
  - exists []. split; [reflexivity | constructor].
Qed.

(** The trace of [main]: nothing without an API key; otherwise the calls
    of the existence-and-creation step, then, if that step came to its
    end, the clear when it is asked for, and, unless the handler of the
    clear raised, the fetch and the loop. *)
Lemma main_trace (w : World) :
  (env_set (PINECONE_API_KEY w) = false /\ fst (main w) = []) \/
  (env_set (PINECONE_API_KEY w) = true /\
   exists ensure loop,
    Forall (fun ev => phase ev = 0%nat) (ListIndexes :: ensure) /\
    Forall (fun ev => phase ev = 3%nat /\ embeds_truncated w ev) loop /\
    ((snd (ensureIndexExists w (indexName_of w)) <> Done tt /\
      fst (main w) = ListIndexes :: ensure) \/
     (snd (ensureIndexExists w (indexName_of w)) = Done tt /\
      ~ cleared w /\ shouldReset w = true /\
      fst (main w) =
      (ListIndexes :: ensure) ++ [DeleteAll (indexName_of w)]) \/
     (snd (ensureIndexExists w (indexName_of w)) = Done tt /\
      cleared w /\
      fst (main w) =
      (ListIndexes :: ensure) ++
      (if shouldReset w then [DeleteAll (indexName_of w)] else []) ++
      FetchArticles :: loop))%list).
Proof.
  unfold main. destruct (env_set (PINECONE_API_KEY w)); [| now left].
  right. split; [reflexivity |]. cbn [negb].
  destruct (ensure_trace w (indexName_of w)) as (ensure & He & Hp).
  destruct (fetch_trace w (indexName_of w)) as (loop & Hf & Hl).
  exists ensure, loop. repeat split; trivial.
  rewrite fst_try_catch_exit, fst_seq, He.
  destruct (snd (ensureIndexExists w (indexName_of w))) as [[] | e | c].
  - right. rewrite fst_seq.
    destruct (reset_trace w (indexName_of w)) as [Hr [Hd | [e Hx]]];
      rewrite Hr.
    + right. split; [reflexivity |]. split; [exact Hd |].
      rewrite Hd. now rewrite Hf.
    + left. split; [reflexivity |].
      assert (Hn : ~ cleared w) by (unfold cleared; rewrite Hx; discriminate).
      split; [exact Hn |].
      destruct (shouldReset w) eqn:Hs.
      * split; [reflexivity |]. rewrite Hx. now rewrite app_nil_r.
      * exfalso. apply Hn. unfold cleared, reset_index. now rewrite Hs.
  - left. split; [discriminate | now rewrite app_nil_r].
  - left. split; [discriminate | now rewrite app_nil_r].
Qed.

Lemma constant_sorted (c : nat) (l : list nat) :
  Forall (fun x => x = c) l -> StronglySorted le l.
Proof.
  induction 1 as [| x l Hx Hl IH]; constructor; [exact IH |].
  eapply Forall_impl; [| exact Hl]. cbn beta. lia.
Qed.

Lemma sorted_app (c : nat) (l1 l2 : list nat) :
  Forall (fun x => (x <= c)%nat) l1 -> Forall (fun x => (c <= x)%nat) l2 ->
  StronglySorted le l1 -> StronglySorted le l2 ->
  StronglySorted le (l1 ++ l2).
Proof.
  intros H1 H2 S1 S2. induction S1 as [| x l1 S1 IH Hx]; [exact S2 |].
  cbn [app]. inversion_clear H1 as [| ? ? Hxc Hl1].
  constructor; [now apply IH |].
  apply Forall_app. split; [exact Hx |].
  eapply Forall_impl; [| exact H2]. cbn beta. lia.
Qed.

Lemma Forall_phase (c : nat) (P : event -> Prop) (l : list event) :
  Forall (fun ev => phase ev = c /\ P ev) l ->
  Forall (fun x => x = c) (map phase l).
Proof.
  intros H. apply Forall_map. eapply Forall_impl; [| exact H].
  now intros ev [Hp _].
Qed.

Lemma phases_sorted (ensure reset loop : list event) :
  Forall (fun ev => phase ev = 0%nat /\ True) ensure ->
  Forall (fun ev => phase ev = 1%nat /\ True) reset ->
  Forall (fun ev => phase ev = 3%nat /\ True) loop ->
  StronglySorted le (map phase (ensure ++ reset ++ FetchArticles :: loop)).
Proof.
  intros He Hr Hl. apply Forall_phase in He, Hr, Hl.
  rewrite !map_app. cbn [map phase].
  apply (@sorted_app 0%nat).
  - eapply Forall_impl; [| exact He]. cbn beta. lia.
  - apply Forall_forall. intros x. lia.
  - now apply (@constant_sorted 0%nat).
  - apply (@sorted_app 1%nat).
    + eapply Forall_impl; [| exact Hr]. cbn beta. lia.
    + constructor; [lia |].
      eapply Forall_impl; [| exact Hl]. cbn beta. lia.
    + now apply (@constant_sorted 1%nat).
    + constructor; [now apply (@constant_sorted 3%nat) |].
      eapply Forall_impl; [| exact Hl]. cbn beta. lia.
Qed.

Lemma Forall_and_True (A : Type) (P : A -> Prop) (l : list A) :
  Forall P l -> Forall (fun x => P x /\ True) l.
Proof. intros H. eapply Forall_impl; [| exact H]. cbn beta. auto. Qed.

Lemma phases_sorted_stop (ensure reset : list event) :
  Forall (fun ev => phase ev = 0%nat /\ True) ensure ->
  Forall (fun ev => phase ev = 1%nat /\ True) reset ->
  StronglySorted le (map phase (ensure ++ reset)).
Proof.
  intros He Hr. apply Forall_phase in He, Hr.
  rewrite !map_app.
  apply (@sorted_app 0%nat).
  - eapply Forall_impl; [| exact He]. cbn beta. lia.
  - apply Forall_forall. intros x. lia.
  - now apply (@constant_sorted 0%nat).
  - now apply (@constant_sorted 1%nat).
Qed.

End IndexerFacts.

(** C8, as the code has it.  In a run with [--reset], the calls are made
    in the order of the steps: the index is checked and, if absent,
    created and waited for; then the index is cleared; then the articles
    are fetched, embedded and upserted.  A clear is never made before the
    existence check; and when the API key is set and the existence step
    comes to its end, the trace is the calls of that step, the clear of
    the target index, the fetch and the calls of the loop.  The run ends
    with the clear only when the handler of a rejected clear raises. *)
Theorem main_step_order (w : IndexContent.World) :
  IndexContent.shouldReset w = true ->
  StronglySorted le (map Steps.phase (fst (IndexContent.main w))) /\
  Steps.clear_after_check (fst (IndexContent.main w)) /\
  (IndexContent.env_set (IndexContent.PINECONE_API_KEY w) = true ->
   Steps.ensured w ->
   exists ensure rest,
     fst (IndexContent.main w) =
     (ensure ++
      IndexContent.DeleteAll (IndexContent.indexName_of w) :: rest)%list /\
     In IndexContent.ListIndexes ensure /\
     Forall (fun ev => Steps.phase ev = 0%nat) ensure /\
     (Steps.cleared w ->
      exists loop,
        rest = IndexContent.FetchArticles :: loop /\
        Forall (fun ev => Steps.phase ev = 3%nat) loop) /\
     (~ Steps.cleared w -> rest = [])).
Proof.
  intros Hreset.
  destruct (main_trace w)
    as [[Hkey Ht] |
        (Hkey & ensure & loop & He & Hl &
         [[Hs Ht] | [(Hs & Hc & _ & Ht) | (Hs & Hc & Ht)]])];
    rewrite Ht; try rewrite Hreset.
  - repeat split.
    + constructor.
    + intros before after name H. now destruct before.
    + intros Hk. congruence.
  - repeat split.
    + apply (@constant_sorted 0%nat). apply Forall_map.
      eapply Forall_impl; [| exact He]. now cbn beta.
    + intros before after name H.
      destruct before as [| ev before]; [discriminate H |].
      injection H as <- _. now left.
    + intros _ [t Hens]. rewrite Hens in Hs. now contradiction Hs.
  - repeat split.
    + apply phases_sorted_stop; [now apply Forall_and_True |].
      repeat constructor.
    + intros before after name H.
      destruct before as [| ev before]; [discriminate H |].
      injection H as <- _. now left.
    + intros _ _. exists (IndexContent.ListIndexes :: ensure), [].
      repeat split; trivial; [now left | now intros H].
  - repeat split.
    + apply phases_sorted.
      * now apply Forall_and_True.
      * repeat constructor.
      * eapply Forall_impl; [| exact Hl]. cbn beta. tauto.
    + intros before after name H.
      destruct before as [| ev before]; [discriminate H |].
      injection H as <- _. now left.
    + intros _ _.
      exists (IndexContent.ListIndexes :: ensure),
             (IndexContent.FetchArticles :: loop).
      repeat split; trivial; [now left | | now intros H].
      intros _. exists loop. split; [reflexivity |].
      eapply Forall_impl; [| exact Hl]. cbn beta. tauto.
Qed.

Lemma main_step_order_witness :
  Steps.clear_after_check (fst (IndexContent.main Steps.world_reset)).
Proof.
  apply (@main_step_order Steps.world_reset). reflexivity.
Defined.

(** In the run of [world_reset] the existence check is made before the
    clear: the clear is not the first step. *)
Lemma clear_is_not_first :
  ~ Steps.clear_first (fst (IndexContent.main Steps.world_reset)).
Proof.
  intros H.
  assert (E : exists after,
             fst (IndexContent.main Steps.world_reset) =
             ([IndexContent.ListIndexes] ++
              IndexContent.DeleteAll "decoupled-search" :: after)%list)
    by (eexists; vm_compute; reflexivity).
  destruct E as [after E]. specialize (H _ _ _ E). discriminate H.
Qed.

(* ================================================================== *)
(** * The search route *)
(* ================================================================== *)

(** C9.  A request without the [q] parameter is answered with status 400
    and an error body, and no backend is called: neither [mockSearch] nor
    [searchArticles].  A request makes no backend call exactly when [q] is
    missing or empty. *)
Theorem GET_requires_q (env : SearchRoute.Env) (limit : option string) :
  SearchRoute.GET env (SearchRoute.mkRequest None limit) =
  ([], SearchRoute.mkResponse 400
         (SearchRoute.ErrorBody SearchRoute.q_required)) /\
  (forall request,
     fst (SearchRoute.GET env request) = [] <->
     (SearchRoute.q request = None \/
      SearchRoute.q request = Some EmptyString)).
Proof.
  split; [reflexivity |].
  intros [[[| c query] |] lim]; unfold SearchRoute.GET;
    cbn [SearchRoute.q SearchRoute.limit].
  - split; auto.
  - destruct (SearchRoute.isDemoMode env);
      [| destruct (SearchRoute.searchArticles env _ _)];
      cbn [fst]; (split; [discriminate | intros [H | H]; discriminate H]).
  - split; auto.
Qed.

(* ================================================================== *)
(** * The scorer: which articles come back, and with what score *)
(* ================================================================== *)

Lemma reachable_pos_add (x c : number) :
  reachable_pos x = true -> c = lit_0_1 \/ c = lit_0_2 ->
  reachable_pos (x + c)%num = true.
Proof.
  intros H Hc. unfold reachable_pos in H. apply orb_prop in H as [H | H].
  - apply mem_In in H. unfold partial_sums in H. simpl in H.
    destruct Hc as [-> | ->];
      repeat (destruct H as [<- | H]); try contradiction H;
      vm_compute; reflexivity.
  - unfold reachable_pos. apply orb_true_iff. right.
    destruct Hc as [-> | ->]; apply add_big; trivial; lia.
Qed.

Lemma reachable_half_add (x c : number) :
  reachable_half x = true -> c = lit_0_1 \/ c = lit_0_2 ->
  reachable_half (x + c)%num = true.
Proof.
  intros H Hc. unfold reachable_half in H. apply orb_prop in H as [H | H].
  - apply andb_prop in H as [H Hh]. apply mem_In in H.
    destruct Hc as [-> | ->]; each_partial_sum H;
      first [discriminate Hh | vm_compute; reflexivity].
  - unfold reachable_half. apply orb_true_iff. right.
    destruct Hc as [-> | ->]; apply add_big; trivial; lia.
Qed.

Lemma word_step_pos (content titleLower word : string) (acc : number) :
  reachable_pos acc = true ->
  reachable_pos (word_step content titleLower acc word) = true.
Proof.
  intros H. unfold word_step.
  destruct (includes content word); [| exact H].
  destruct (includes titleLower word); auto using reachable_pos_add.
Qed.

Lemma word_step_half (content titleLower word : string) (acc : number) :
  reachable_half acc = true ->
  reachable_half (word_step content titleLower acc word) = true.
Proof.
  intros H. unfold word_step.
  destruct (includes content word); [| exact H].
  destruct (includes titleLower word); auto using reachable_half_add.
Qed.

Lemma fold_word_step_pos (content titleLower : string) (words : list string)
      (acc : number) :
  reachable_pos acc = true ->
  reachable_pos (fold_left (word_step content titleLower) words acc) = true.
Proof.
  revert acc. induction words as [| w words IH]; intros acc H; simpl;
    [exact H |].
  apply IH. now apply word_step_pos.
Qed.

Lemma fold_word_step_half (content titleLower : string) (words : list string)
      (acc : number) :
  reachable_half acc = true ->
  reachable_half (fold_left (word_step content titleLower) words acc) = true.
Proof.
  revert acc. induction words as [| w words IH]; intros acc H; simpl;
    [exact H |].
  apply IH. now apply word_step_half.
Qed.

(** From 0, the sum leaves 0 exactly when a word is found. *)
Lemma fold_word_step_zero (content titleLower : string) (words : list string) :
  if existsb (includes content) words
  then reachable_pos
         (fold_left (word_step content titleLower) words zero) = true
  else fold_left (word_step content titleLower) words zero = zero.
Proof.
  induction words as [| w words IH]; [reflexivity |].
  cbn [existsb fold_left].
  destruct (includes content w) eqn:E; cbn [orb].
  - apply fold_word_step_pos. unfold word_step. rewrite E.
    destruct (includes titleLower w); vm_compute; reflexivity.
  - replace (word_step content titleLower zero w) with zero
      by (unfold word_step; now rewrite E).
    exact IH.
Qed.

Lemma clamp_pos (x : number) :
  reachable_pos x = true -> (zero <? Spec.clamp x)%num = true.
Proof.
  intros H. unfold reachable_pos in H. apply orb_prop in H as [H | H].
  - apply mem_In in H. unfold partial_sums in H. simpl in H.
    repeat (destruct H as [<- | H]); try contradiction H;
      vm_compute; reflexivity.
  - now rewrite clamp_big.
Qed.

Lemma clamp_half (x : number) :
  reachable_half x = true -> (lit_0_5 <=? Spec.clamp x)%num = true.
Proof.
  intros H. unfold reachable_half in H. apply orb_prop in H as [H | H].
  - apply andb_prop in H as [H Hh]. apply mem_In in H.
    each_partial_sum H; first [discriminate Hh | vm_compute; reflexivity].
  - now rewrite clamp_big.
Qed.

(** The score of an article is above 0 exactly when the article has
    something of the query. *)
Lemma score_positive_matches (query : string) (a : Article) :
  (zero <? score (score_article (toLowerCase query)
                                (queryWords_of (toLowerCase query)) a))%num
  = matches query a.
Proof.
  unfold score_article, matches. cbn [score]. rewrite Math_min_one.
  set (content := searchableContent a).
  set (words := queryWords_of (toLowerCase query)).
  destruct (includes content (toLowerCase query)); cbn [orb].
  - apply clamp_pos, fold_word_step_pos. vm_compute. reflexivity.
  - pose proof (fold_word_step_zero content (toLowerCase (title a)) words)
      as H.
    destruct (existsb (includes content) words).
    + now apply clamp_pos.
    + rewrite H. reflexivity.
Qed.

Lemma kept_matches (articles : list Article) (query : string) :
  map article (kept articles query) = filter (matches query) articles.
Proof.
  unfold kept, scored.
  induction articles as [| a articles IH]; [reflexivity |].
  cbn [map filter]. rewrite score_positive_matches.
  destruct (matches query a); cbn [map]; now rewrite IH.
Qed.

Lemma length_kept_le (articles : list Article) (query : string) :
  (List.length (kept articles query) <= List.length articles)%nat.
Proof.
  rewrite <- (length_map article), kept_matches. apply filter_length_le.
Qed.

(** X1.  With a limit that is at least the size of the corpus, an article
    of the corpus is among the results exactly when its searchable text
    contains the lowercased query or one of the query words longer than
    two code units: nothing that matches is left out, nothing else comes
    back. *)
Theorem mockSearch_returns_matches (articles : list Article) (query : string)
        (limit : Z) (a : Article) :
  Z.of_nat (List.length articles) <= limit ->
  (In a (map article (mockSearch articles query limit)) <->
   In a articles /\ matches query a = true).
Proof.
  intros Hlimit. unfold mockSearch. fold (kept articles query).
  rewrite slice_all.
  - rewrite <- filter_In, <- kept_matches.
    split; apply Permutation_in, Permutation_map;
      [| symmetry]; apply sort_perm.
  - rewrite (Permutation_length (sort_perm comparefn (kept articles query))).
    pose proof (length_kept_le articles query). lia.
Qed.

Lemma mockSearch_returns_matches_witness :
  In guide_1 (map article (mockSearch [guide_1] "the GUIDE" 1)) <->
  In guide_1 [guide_1] /\ matches "the GUIDE" guide_1 = true.
Proof.
  apply (@mockSearch_returns_matches [guide_1] "the GUIDE" 1 guide_1).
  simpl. lia.
Defined.

Lemma sorted_split (A : Type) (R : A -> A -> Prop) (n : nat) (l : list A) :
  StronglySorted R l ->
  forall x y, In x (firstn n l) -> In y (skipn n l) -> R x y.
Proof.
  intros Hs. revert n. induction Hs as [| a l Hs IH Ha]; intros [| n] x y Hx Hy;
    cbn in Hx, Hy; try contradiction.
  destruct Hx as [<- | Hx].
  - rewrite Forall_forall in Ha. apply Ha.
    rewrite <- (firstn_skipn n l). apply in_or_app. now right.
  - now apply (IH n).
Qed.

(** X2.  The results are the best of the matches: the kept entries split
    into the results and a rest, no entry of the rest has a higher score
    than a result, and the number of results is what [slice(0, limit)]
    leaves of the number of matches, the smaller of the two for a limit
    that is not negative. *)
Theorem mockSearch_top_ranked (articles : list Article) (query : string)
        (limit : Z) :
  exists rest,
    Permutation (mockSearch articles query limit ++ rest)
                (kept articles query) /\
    (forall r r', In r (mockSearch articles query limit) -> In r' rest ->
                  (score r' <=? score r)%num = true) /\
    Z.of_nat (List.length (mockSearch articles query limit)) =
    sliced_length (Z.of_nat (List.length (kept articles query))) limit.
Proof.
  unfold mockSearch. fold (kept articles query). rewrite slice_from_0.
  set (sorted := sort comparefn (kept articles query)).
  assert (Hlen : List.length sorted = List.length (kept articles query))
    by apply Permutation_length, sort_perm.
  rewrite Hlen.
  set (n := Z.to_nat (if limit <? 0
                      then Z.max (Z.of_nat (List.length (kept articles query)) + limit) 0
                      else Z.min limit (Z.of_nat (List.length (kept articles query))))).
  exists (skipn n sorted). split; [| split].
  - rewrite firstn_skipn. apply sort_perm.
  - intros r r' Hr Hr'.
    exact (sorted_split n (sort_kept_non_increasing articles query) r r' Hr Hr').
  - rewrite length_firstn, Hlen. unfold n, sliced_length.
    destruct (Z.ltb_spec limit 0); lia.
Qed.

(** X3.  No result scores less than 0.1, and a result whose searchable
    text contains the whole lowercased query scores at least 0.5. *)
Theorem mockSearch_score_floor (articles : list Article) (query : string)
        (limit : Z) (r : SearchResult) :
  In r (mockSearch articles query limit) ->
  (lit_0_1 <=? score r)%num = true /\
  (includes (searchableContent (article r)) (toLowerCase query) = true ->
   (lit_0_5 <=? score r)%num = true).
Proof.
  intros Hr. apply mockSearch_In_kept, kept_final in Hr as (Hfin & Hpos & Hr).
  split.
  - assert (H : forallb (fun s => implb (zero <? s)%num (lit_0_1 <=? s)%num)
                        final_scores = true) by (vm_compute; reflexivity).
    rewrite forallb_forall in H. specialize (H _ Hfin).
    now rewrite Hpos in H.
  - apply scored_In in Hr as (a & _ & ->). intros Hinc.
    unfold score_article in *. cbn [article score] in *.
    rewrite Math_min_one, Hinc.
    apply clamp_half, fold_word_step_half. vm_compute. reflexivity.
Qed.

Lemma mockSearch_score_floor_witness :
  (lit_0_1 <=? score guide_hit)%num = true /\
  (includes (searchableContent (article guide_hit)) (toLowerCase "Guide")
   = true -> (lit_0_5 <=? score guide_hit)%num = true).
Proof.
  apply (@mockSearch_score_floor [guide_1] "Guide" 10 guide_hit).
  vm_compute. left. reflexivity.
Defined.

Lemma lower_char_idempotent (c : ascii) :
  lower_char (lower_char c) = lower_char c.
Proof. destruct c as [[] [] [] [] [] [] [] []]; reflexivity. Qed.

Lemma toLowerCase_idempotent (s : string) :
  toLowerCase (toLowerCase s) = toLowerCase s.
Proof.
  induction s as [| c s IH]; simpl; [reflexivity |].
  now rewrite lower_char_idempotent, IH.
Qed.

(** X4.  The search does not see the case of the query: two queries with
    the same lowercase form, a query and its own lowercase form among
    them, give the same results. *)
Theorem mockSearch_query_case (articles : list Article) (query : string)
        (limit : Z) :
  mockSearch articles (toLowerCase query) limit =
  mockSearch articles query limit /\
  (forall query', toLowerCase query' = toLowerCase query ->
                  mockSearch articles query' limit =
                  mockSearch articles query limit).
Proof.
  assert (H : forall query', toLowerCase query' = toLowerCase query ->
                mockSearch articles query' limit =
                mockSearch articles query limit).
  { intros query' Heq. unfold mockSearch, scored. now rewrite Heq. }
  split; [| exact H]. apply H, toLowerCase_idempotent.
Qed.

(** X5.  [getMockArticleBySlug] answers with the first article of the
    corpus that has the slug, and with nothing exactly when no article
    has it. *)
Theorem getMockArticleBySlug_first (articles : list Article) (wanted : string) :
  (forall a, DemoLookup.getMockArticleBySlug articles wanted = Some a ->
     exists before after,
       articles = (before ++ a :: after)%list /\ slug a = wanted /\
       Forall (fun b => slug b <> wanted) before) /\
  (DemoLookup.getMockArticleBySlug articles wanted = None <->
   Forall (fun b => slug b <> wanted) articles).
Proof.
  unfold DemoLookup.getMockArticleBySlug.
  induction articles as [| b articles [IH1 IH2]]; cbn [find].
  - split; [discriminate |]. split; constructor.
  - destruct (String.eqb_spec (slug b) wanted) as [Heq | Hne].
    + split.
      * intros a [= <-]. exists [], articles. repeat split; trivial.
      * split; [discriminate |]. intros H. inversion H. contradiction.
    + split.
      * intros a Ha. destruct (IH1 a Ha) as (before & after & -> & Hs & Hb).
        exists (b :: before), after. repeat split; trivial.
        now constructor.
      * rewrite IH2. split; intros H; [now constructor | now inversion H].
Qed.

(* ================================================================== *)
(** * Facts about [trim] and [split] *)
(* ================================================================== *)

Lemma trimStart_first (s : string) : first_is_space (trimStart s) = false.
Proof.
  induction s as [| c s IH]; simpl; [reflexivity |].
  destruct (is_space c) eqn:E; [exact IH | exact E].
Qed.

Lemma trimStart_suffix (s : string) :
  exists blank, s = blank ++ trimStart s /\ all_space blank = true.
Proof.
  induction s as [| c s (blank & Hs & Hb)]; simpl.
  - now exists EmptyString.
  - destruct (is_space c) eqn:E.
    + exists (String c blank). simpl. rewrite E, Hb. split; [| reflexivity].
      now rewrite <- Hs.
    + now exists EmptyString.
Qed.

Lemma trimStart_fixed (s : string) :
  first_is_space s = false -> trimStart s = s.
Proof. destruct s as [| c s]; simpl; [reflexivity | now intros ->]. Qed.

Lemma first_is_space_append (a b : string) :
  a <> EmptyString -> first_is_space (a ++ b) = first_is_space a.
Proof. destruct a; [contradiction | reflexivity]. Qed.

(** What [trim] returns has no white space at either end. *)
Lemma trim_ends (s : string) :
  first_is_space (trim s) = false /\ last_is_space (trim s) = false.
Proof.
  unfold trim, last_is_space. split.
  - destruct (trimStart_suffix (rev_string EmptyString (trimStart s)))
      as (blank & Hs & _).
    set (x := trimStart (rev_string EmptyString (trimStart s))) in *.
    apply (f_equal (rev_string EmptyString)) in Hs.
    rewrite rev_string_involutive, rev_string_append in Hs.
    destruct (rev_string EmptyString x) as [| c r] eqn:Ex; [reflexivity |].
    pose proof (trimStart_first s) as Hf. rewrite Hs in Hf. exact Hf.
  - rewrite rev_string_involutive. apply trimStart_first.
Qed.

Lemma trim_fixed (s : string) :
  first_is_space s = false -> last_is_space s = false -> trim s = s.
Proof.
  intros Hf Hl. unfold trim. rewrite (trimStart_fixed _ Hf).
  rewrite (trimStart_fixed _ Hl). apply rev_string_involutive.
Qed.

Lemma trim_skips (c : ascii) (s : string) :
  is_space c = true -> trim (String c s) = trim s.
Proof. intros H. unfold trim. simpl. now rewrite H. Qed.

(** [split] one code unit at a time. *)
Lemma split_char_from_cur (sep : ascii) (cur s : string) :
  exists piece rest,
    split_char_from sep EmptyString s = piece :: rest /\
    split_char_from sep cur s =
    (rev_string EmptyString cur ++ piece) :: rest.
Proof.
  revert cur. induction s as [| c s IH]; intros cur; simpl.
  - exists EmptyString, []. now rewrite append_empty_r.
  - destruct (Ascii.eqb c sep).
    + exists EmptyString, (split_char_from sep EmptyString s).
      now rewrite append_empty_r.
    + destruct (IH (String c EmptyString)) as (piece & rest & H0 & H1).
      destruct (IH (String c cur)) as (piece' & rest' & H0' & H2).
      rewrite H0 in H0'. injection H0' as <- <-.
      exists (String c piece), rest. split; [exact H1 |].
      rewrite H2. simpl.
      rewrite (rev_string_acc (String c EmptyString) cur), append_assoc.
      reflexivity.
Qed.

Lemma split_char_cons (sep c : ascii) (s : string) :
  split_char sep (String c s) =
  if Ascii.eqb c sep then EmptyString :: split_char sep s
  else match split_char sep s with
       | piece :: rest => String c piece :: rest
       | [] => []
       end.
Proof.
  unfold split_char. simpl. destruct (Ascii.eqb c sep); [reflexivity |].
  destruct (split_char_from_cur sep (String c EmptyString) s)
    as (piece & rest & H0 & H1).
  now rewrite H0, H1.
Qed.

Lemma split_char_not_nil (sep : ascii) (s : string) :
  split_char sep s <> [].
Proof.
  unfold split_char.
  destruct (split_char_from_cur sep EmptyString s) as (piece & rest & H & _).
  now rewrite H.
Qed.

Lemma length_split_char (sep : ascii) (s : string) :
  List.length (split_char sep s) = S (count_char sep s).
Proof.
  induction s as [| c s IH]; [reflexivity |].
  rewrite split_char_cons. cbn [count_char].
  destruct (Ascii.eqb c sep); cbn [List.length]; [now rewrite IH |].
  destruct (split_char sep s) as [| piece rest]; [discriminate IH |].
  exact IH.
Qed.

Lemma split_char_no_sep (sep : ascii) (s : string) :
  count_char sep s = O -> split_char sep s = [s].
Proof.
  induction s as [| c s IH]; [reflexivity |].
  rewrite split_char_cons. cbn [count_char].
  destruct (Ascii.eqb c sep); [discriminate |].
  intros H. now rewrite (IH H).
Qed.

Lemma split_char_append (sep : ascii) (a s : string) :
  count_char sep a = O ->
  split_char sep (a ++ String sep s) = a :: split_char sep s.
Proof.
  induction a as [| c a IH]; cbn [append count_char].
  - intros _. rewrite split_char_cons. now rewrite Ascii.eqb_refl.
  - rewrite split_char_cons. destruct (Ascii.eqb c sep); [discriminate |].
    intros H. now rewrite (IH H).
Qed.

(* ================================================================== *)
(** * The normalizer: slug, tags and defaults *)
(* ================================================================== *)

Lemma transformArticle_fields (now : string) (node art : value) :
  truthy node = true -> transformArticle now node = Return art ->
  exists replaced tags,
    path_replace (get node "path") = Return replaced /\
    split_tags (get node "tags") = Return tags /\
    get art "slug" = or_else replaced (get node "id") /\
    get art "tags" = tags /\
    get art "id" = get node "id" /\
    get art "title" = get node "title" /\
    get art "body" =
      or_else (opt_get (get node "body") "processed") (VStr "") /\
    get art "summary" =
      or_else (opt_get (get node "summary") "value") (VStr "") /\
    get art "category" = or_else (get node "category") (VStr "General") /\
    get art "readTime" = or_else (get node "readTime") (VStr "5 min read") /\
    get art "publishedAt" =
      or_else (opt_get (get node "created") "time") (VStr now) /\
    get art "image" =
      (if truthy (get node "image") then
         VObj
           [ ("url", get (get node "image") "url");
             ("alt", or_else (get (get node "image") "alt")
                             (get node "title"));
             ("width", or_else (get (get node "image") "width")
                               (VNum num_1200));
             ("height", or_else (get (get node "image") "height")
                                (VNum num_630)) ]
       else VUndefined).
Proof.
  intros Ht H. rewrite transformArticle_truthy in H by exact Ht.
  destruct (path_replace (get node "path")) as [replaced |];
    [| discriminate H].
  destruct (split_tags (get node "tags")) as [tags |]; [| discriminate H].
  cbn [bind] in H. injection H as <-.
  exists replaced, tags. repeat split.
Qed.

Lemma slug_of_path (now : string) (node art : value) (path : string) :
  truthy node = true -> transformArticle now node = Return art ->
  get node "path" = VStr path ->
  get art "slug" =
  or_else (VStr match strip_prefix "/articles/" path with
                | Some rest => rest
                | None => path
                end) (get node "id").
Proof.
  intros Ht H Hp.
  destruct (@transformArticle_fields now node art Ht H)
    as (replaced & tags & Hr & _ & Hs & _).
  rewrite Hp in Hr.
  change (Return (VStr match strip_prefix "/articles/" path with
                       | Some rest => rest
                       | None => path
                       end) = Return replaced) in Hr.
  assert (Hrep : replaced =
                 VStr match strip_prefix "/articles/" path with
                      | Some rest => rest
                      | None => path
                      end) by congruence.
  now rewrite Hs, Hrep.
Qed.

Lemma slug_of_article_path (now : string) (node art : value)
      (wanted : string) :
  truthy node = true -> transformArticle now node = Return art ->
  get node "path" = VStr ("/articles/" ++ wanted) ->
  wanted <> EmptyString ->
  get art "slug" = VStr wanted.
Proof.
  intros Ht H Hp Hw.
  rewrite (@slug_of_path now node art _ Ht H Hp), strip_prefix_append.
  destruct wanted; [contradiction | reflexivity].
Qed.

(** X6.  The slug of a node with a string path is the path without one
    leading "/articles/", and the node's id when nothing is left of the
    path; so the path "/articles/" followed by a slug gives that slug
    back, and the bare path "/articles/" gives the id. *)
Theorem transformArticle_slug (now : string) (node art : value)
        (path : string) :
  truthy node = true -> transformArticle now node = Return art ->
  get node "path" = VStr path ->
  get art "slug" =
    (match strip_prefix "/articles/" path with
     | Some EmptyString => get node "id"
     | Some rest => VStr rest
     | None => if String.eqb path EmptyString then get node "id"
               else VStr path
     end) /\
  (forall wanted, path = "/articles/" ++ wanted -> wanted <> EmptyString ->
                  get art "slug" = VStr wanted).
Proof.
  intros Ht H Hp. split.
  - rewrite (@slug_of_path now node art path Ht H Hp).
    destruct (strip_prefix "/articles/" path) as [[| c rest] |];
      try reflexivity.
    destruct path; reflexivity.
  - intros wanted Hpath Hw. rewrite Hpath in Hp.
    exact (@slug_of_article_path now node art wanted Ht H Hp Hw).
Qed.

Lemma transformArticle_slug_witness :
  get (VObj
         [ ("id", VStr "42"); ("title", VUndefined); ("slug", VStr "intro");
           ("body", VStr ""); ("summary", VStr "");
           ("category", VStr "General"); ("tags", VArr []);
           ("readTime", VStr "5 min read"); ("publishedAt", VStr now_1);
           ("image", VUndefined) ]) "slug" = VStr "intro".
Proof.
  refine (proj2 (@transformArticle_slug now_1 node_intro _ "/articles/intro"
                   eq_refl eq_refl eq_refl) "intro" eq_refl _).
  discriminate.
Defined.

Lemma trimmed_pieces (pieces : list string) :
  Forall trimmed_tag (map (fun t => VStr (trim t)) pieces).
Proof.
  induction pieces as [| t pieces IH]; constructor; [| exact IH].
  exists (trim t). destruct (trim_ends t). auto.
Qed.

(** X7.  A string of tags gives one tag for each comma and one more, so
    that an empty piece between two commas is a tag as well, and no tag
    has white space at its ends. *)
Theorem transformArticle_tags (now : string) (node art : value)
        (s : string) :
  truthy node = true -> transformArticle now node = Return art ->
  get node "tags" = VStr s -> s <> EmptyString ->
  exists items,
    get art "tags" = VArr items /\
    List.length items = S (count_char "," s) /\
    Forall trimmed_tag items.
Proof.
  intros Ht H Htags Hs.
  destruct (@transformArticle_fields now node art Ht H)
    as (replaced & tags & _ & Hsplit & _ & Ha & _).
  rewrite Htags in Hsplit. unfold split_tags in Hsplit.
  destruct s as [| c s]; [contradiction |].
  cbn [truthy] in Hsplit. injection Hsplit as <-.
  eexists. split; [exact Ha |]. split.
  - now rewrite length_map, length_split_char.
  - apply trimmed_pieces.
Qed.

Lemma transformArticle_tags_witness :
  exists items,
    get article_abc "tags" = VArr items /\
    List.length items = S (count_char "," "a, b , c") /\
    Forall trimmed_tag items.
Proof.
  refine (@transformArticle_tags now_1 node_abc article_abc "a, b , c"
            eq_refl eq_refl eq_refl _).
  discriminate.
Defined.

Lemma or_else_truthy (a b : value) :
  truthy b = true -> truthy (or_else a b) = true.
Proof. unfold or_else. intros H. now destruct (truthy a) eqn:E. Qed.

(** X8.  An article that [transformArticle] returns has a category and a
    read time that are not falsy, tags that are an array, and an image
    exactly when the node has one; the image has a width and a height
    that are not falsy, 1200 and 630 when the node gives none, and its
    alt falls back to the title. *)
Theorem transformArticle_defaults (now : string) (node art : value) :
  truthy node = true -> transformArticle now node = Return art ->
  truthy (get art "category") = true /\
  truthy (get art "readTime") = true /\
  (exists items, get art "tags" = VArr items) /\
  (truthy (get node "image") = false -> get art "image" = VUndefined) /\
  (truthy (get node "image") = true ->
   truthy (get (get art "image") "width") = true /\
   truthy (get (get art "image") "height") = true /\
   (truthy (get (get node "image") "width") = false ->
    get (get art "image") "width" = VNum num_1200) /\
   (truthy (get (get node "image") "height") = false ->
    get (get art "image") "height" = VNum num_630) /\
   (truthy (get (get node "image") "alt") = false ->
    get (get art "image") "alt" = get node "title")).
Proof.
  intros Ht H.
  destruct (@transformArticle_fields now node art Ht H)
    as (replaced & tags & _ & Hsplit & _ & Htags & _ & _ & _ & _ & Hc & Hr
        & _ & Hi).
  rewrite Hc, Hr, Htags, Hi. split; [| split; [| split; [| split]]].
  - now apply or_else_truthy.
  - now apply or_else_truthy.
  - unfold split_tags in Hsplit.
    destruct (truthy (get node "tags"));
      [destruct (get node "tags"); try discriminate Hsplit |];
      injection Hsplit as <-; eexists; reflexivity.
  - now intros ->.
  - intros Himg. rewrite Himg. cbn.
    repeat split; intros; first [now apply or_else_truthy
                                | now apply or_else_falsy].
Qed.

Lemma transformArticle_defaults_witness :
  truthy (get article_abc "category") = true /\
  truthy (get article_abc "readTime") = true.
Proof.
  destruct (@transformArticle_defaults now_1 node_abc article_abc
              eq_refl eq_refl) as (Hc & Hr & _).
  now split.
Defined.

(* ================================================================== *)
(** * Tags written by the indexer and read by the normalizer *)
(* ================================================================== *)

Lemma split_join_tags (ts : list string) :
  Forall (fun t => count_char "," t = O) ts ->
  split_char "," (join ", " ts) =
  match ts with
  | [] => [EmptyString]
  | t :: rest => t :: map (String " ") rest
  end.
Proof.
  induction 1 as [| t rest Ht Hrest IH]; [reflexivity |].
  destruct rest as [| t' rest]; [now apply split_char_no_sep |].
  change (join ", " (t :: t' :: rest))
    with (t ++ String "," (String " " (join ", " (t' :: rest)))).
  rewrite split_char_append by exact Ht.
  rewrite split_char_cons, IH. reflexivity.
Qed.

Lemma trim_clean (t : string) : clean_tag t -> trim t = t.
Proof. intros (_ & Hf & Hl & _). now apply trim_fixed. Qed.

Lemma trim_spaced_tags (rest : list string) :
  Forall clean_tag rest ->
  map (fun t => VStr (trim t)) (map (String " ") rest) = map VStr rest.
Proof.
  induction 1 as [| t rest Ht _ IH]; [reflexivity |].
  cbn [map]. rewrite IH, trim_skips by reflexivity.
  now rewrite (trim_clean Ht).
Qed.

Lemma elements_text_strings (w : IndexContent.World) (ts : list string) :
  IndexContent.elements_text w (map VStr ts) = Return ts.
Proof.
  induction ts as [| t ts IH]; [reflexivity |].
  cbn [map IndexContent.elements_text IndexContent.element_text
       IndexContent.text_of bind].
  now rewrite IH.
Qed.

(** X9.  The tags that the indexer writes into the metadata of an upsert,
    joined by a comma and a space, are read back by the normalizer's
    splitting as the same tags in the same order, for tags that are not
    empty, hold no comma and have no white space at their ends. *)
Theorem tags_round_trip (w : IndexContent.World) (article : value)
        (ts : list string) :
  get article "tags" = VArr (map VStr ts) -> Forall clean_tag ts ->
  exists metadata,
    IndexContent.metadata_of w article = Return metadata /\
    In ("tags", VStr (join ", " ts)) metadata /\
    split_tags (VStr (join ", " ts)) = Return (VArr (map VStr ts)).
Proof.
  intros Htags Hclean. unfold IndexContent.metadata_of. rewrite Htags.
  cbn [IndexContent.tags_join]. rewrite elements_text_strings. cbn [bind].
  eexists. split; [reflexivity |]. split; [simpl; tauto |].
  assert (Hcommas : Forall (fun t => count_char "," t = O) ts).
  { eapply Forall_impl; [| exact Hclean]. now intros t (_ & _ & _ & H). }
  unfold split_tags.
  destruct ts as [| t rest]; [reflexivity |].
  inversion_clear Hclean as [| ? ? Ht Hrest].
  assert (Hne : exists c s, join ", " (t :: rest) = String c s).
  { destruct Ht as (Hne & _). destruct t as [| c t]; [contradiction |].
    destruct rest; simpl; eauto. }
  destruct Hne as (c & s & Hj). rewrite Hj. cbn [truthy]. rewrite <- Hj.
  rewrite (split_join_tags Hcommas). cbn [map].
  now rewrite (trim_clean Ht), (trim_spaced_tags Hrest).
Qed.

Lemma tags_round_trip_witness :
  split_tags (VStr "vector db, search") =
  Return (VArr [VStr "vector db"; VStr "search"]).
Proof.
  destruct (@tags_round_trip Steps.world_reset fetched_tagged
              ["vector db"; "search"] eq_refl)
    as (metadata & _ & _ & H); [| exact H].
  repeat constructor; discriminate.
Defined.

(* ================================================================== *)
(** * The article page's loader *)
(* ================================================================== *)

(** X10.  In demo mode [getArticle] asks nothing of the content source,
    and an article it finds has the slug asked for.  Otherwise it asks
    for the path "/articles/" followed by the slug, once; whatever is
    thrown makes it answer [null]; and an article it answers with is
    never falsy, so that the page shows "not found" for [null] alone. *)
Theorem getArticle_outcomes (env : ArticlePage.Env) (now wanted : string) :
  (ArticlePage.isDemoMode env = true ->
   fst (ArticlePage.getArticle env now wanted) = [] /\
   (forall art, snd (ArticlePage.getArticle env now wanted) <>
                ArticlePage.LiveArticle art) /\
   (forall a, snd (ArticlePage.getArticle env now wanted) =
              ArticlePage.MockArticle a ->
              slug a = wanted /\ In a (ArticlePage.mockArticles env))) /\
  (ArticlePage.isDemoMode env = false ->
   fst (ArticlePage.getArticle env now wanted) =
   [ArticlePage.Query ("/articles/" ++ wanted)] /\
   (forall e, ArticlePage.query env ("/articles/" ++ wanted) = Throw e ->
              snd (ArticlePage.getArticle env now wanted) =
              ArticlePage.NoArticle) /\
   (forall art, snd (ArticlePage.getArticle env now wanted) =
                ArticlePage.LiveArticle art -> truthy art = true)).
Proof.
  unfold ArticlePage.getArticle. split; intros Hdemo; rewrite Hdemo;
    cbn [fst snd].
  - split; [reflexivity |].
    destruct (DemoLookup.getMockArticleBySlug _ wanted) as [a |] eqn:E;
      (split; [discriminate |]); [| discriminate].
    intros a' [= <-]. apply find_some in E as [Hin Hs].
    now apply String.eqb_eq in Hs.
  - split; [reflexivity |]. split.
    + now intros e ->.
    + intros art.
      destruct (ArticlePage.query env ("/articles/" ++ wanted)) as [r |];
        cbn [bind]; [| discriminate].
      destruct (ArticlePage.data_of r) as [d |]; cbn [bind];
        [| discriminate].
      set (entity := opt_get (opt_get d "route") "entity").
      destruct (truthy entity) eqn:Ht.
      * rewrite transformArticle_truthy by exact Ht.
        destruct (path_replace (get entity "path")); cbn [bind];
          [| discriminate].
        destruct (split_tags (get entity "tags")); cbn [bind];
          [| discriminate].
        now intros [= <-].
      * unfold transformArticle. rewrite Ht. discriminate.
Qed.

Lemma getArticle_outcomes_witness :
  fst (ArticlePage.getArticle live_env now_1 "intro") =
  [ArticlePage.Query "/articles/intro"].
Proof.
  exact (proj1 (proj2 (@getArticle_outcomes live_env now_1 "intro")
                      eq_refl)).
Defined.



(* ================================================================== *)
(** * The indexer's run *)
(* ================================================================== *)

Section RunFacts.
Import IndexContent Steps Run.

(** X12.  [ensureIndexExists] creates the index exactly when the listing
    came and does not name it; it then asks for dimension 1024 and the
    cosine metric, once, and waits 30 seconds when the creation went
    through.  An index that is listed is left alone: one call, the
    listing. *)
Theorem ensureIndexExists_creates_when_absent (w : World) (name : string) :
  (existsb is_create (fst (ensureIndexExists w name)) = true <->
   (exists names, listIndexes w = Return names) /\ listed w name = false) /\
  (forall n d m, In (CreateIndex n d m) (fst (ensureIndexExists w name)) ->
     n = name /\ d = 1024 /\ m = "cosine" /\
     (In (Sleep 30000) (fst (ensureIndexExists w name)) <->
      createIndex w name = Return tt)) /\
  (listed w name = true -> ensureIndexExists w name = ([ListIndexes], Done tt)).
Proof.
  unfold ensureIndexExists, listed, seq, call, ret.
  destruct (listIndexes w) as [[names |] | e]; cbn [negb];
    [destruct (existsb (fun i => String.eqb i name) names); cbn [negb] | |];
    try (destruct (createIndex w name) as [[] | e']); cbn;
    (split; [split; [intros H; try discriminate H; split; eauto
                    | intros [[names' H1] H2];
                      try discriminate H1; try discriminate H2; reflexivity]
            | split; [| intros H; try discriminate H; reflexivity]]);
    intros n' d' m' H;
    repeat (destruct H as [H | H]; try discriminate H);
    try contradiction;
    injection H as <- <- <-; repeat split; auto;
    intros H'; try discriminate H';
    repeat (destruct H' as [H' | H']; try discriminate H');
    contradiction.
Qed.

Lemma snd_seq (A B : Type) (m : run A) (k : A -> run B) :
  snd (seq m k) =
  match snd m with
  | Done a => snd (k a)
  | Raised e => Raised e
  | Exited c => Exited c
  end.
Proof.
  destruct m as [t [a | e | c]]; cbn [seq fst snd]; trivial.
  now destruct (k a).
Qed.

Lemma ensure_outcome (w : World) (name : string) :
  snd (ensureIndexExists w name) = Done tt \/
  exists e, snd (ensureIndexExists w name) = Raised e.
Proof.
  unfold ensureIndexExists, seq, call, ret.
  destruct (listIndexes w) as [[names |] | e]; cbn [negb];
    try destruct (existsb _ names); cbn [negb];
    try destruct (createIndex w name) as [[] | e']; cbn; eauto.
Qed.

Lemma index_article_outcome (w : World) (name : string) (a : value) :
  (turn_succeeds w name a /\
   index_article w name a = (turn_events w name a, Done tt)) \/
  (~ turn_succeeds w name a /\
   exists e, snd (index_article w name a) = Raised e).
Proof.
  unfold index_article, turn_succeeds, turn_events, seq, call, eval.
  destruct (embed_input w a) as [text | e] eqn:Ei.
  2: { right. split; cbn; eauto. intros (t & _ & _ & H & _). discriminate H. }
  destruct (embed w text) as [embedding | e] eqn:Ee.
  2: { right. split; cbn; eauto.
       intros (t & v & _ & H1 & H2 & _). congruence. }
  destruct (metadata_of w a) as [metadata | e] eqn:Em.
  2: { right. split; cbn; eauto.
       intros (t & v & m & _ & _ & H & _). discriminate H. }
  destruct (upsert w name (get a "id")) as [[] | e] eqn:Eu; cbn.
  - left. split; [| reflexivity]. exists text, embedding, metadata. auto.
  - right. split; eauto. intros (t & v & m & _ & _ & _ & H). discriminate H.
Qed.

Lemma index_articles_outcome (w : World) (name : string)
      (articles : list value) :
  snd (index_articles w name articles) = Done tt \/
  exists e, snd (index_articles w name articles) = Raised e.
Proof.
  induction articles as [| a articles IH]; [now left |].
  cbn [index_articles]. rewrite snd_seq.
  destruct (index_article_outcome w name a) as [[_ E] | [_ [e E]]];
    rewrite E; cbn [snd]; eauto.
Qed.

Lemma index_articles_succeed (w : World) (name : string)
      (articles : list value) :
  Forall (turn_succeeds w name) articles ->
  index_articles w name articles =
  (flat_map (turn_events w name) articles, Done tt).
Proof.
  induction 1 as [| a articles Ha _ IH]; [reflexivity |].
  cbn [index_articles flat_map].
  destruct (index_article_outcome w name a) as [[_ E] | [N _]];
    [| contradiction].
  rewrite E, IH. reflexivity.
Qed.

Lemma upserted_app (t t' : list event) :
  upserted (t ++ t') = (upserted t ++ upserted t')%list.
Proof. apply flat_map_app. Qed.

Lemma embedded_app (t t' : list event) :
  embedded (t ++ t') = (embedded t ++ embedded t')%list.
Proof. apply flat_map_app. Qed.

Lemma turn_events_calls (w : World) (name : string) (a : value) :
  turn_succeeds w name a ->
  upserted (turn_events w name a) = [get a "id"] /\
  embedded (turn_events w name a) = input_text w a.
Proof.
  unfold turn_succeeds, turn_events, input_text.
  intros (text & embedding & metadata & -> & -> & -> & _). now split.
Qed.

Lemma turns_calls (w : World) (name : string) (articles : list value) :
  Forall (turn_succeeds w name) articles ->
  upserted (flat_map (turn_events w name) articles) =
  map (fun a => get a "id") articles /\
  embedded (flat_map (turn_events w name) articles) =
  flat_map (input_text w) articles.
Proof.
  induction 1 as [| a articles Ha _ [IHu IHe]]; [now split |].
  cbn [flat_map map]. rewrite upserted_app, embedded_app, IHu, IHe.
  destruct (turn_events_calls Ha) as [-> ->]. now split.
Qed.

Lemma ensure_calls (w : World) (name : string) :
  upserted (fst (ensureIndexExists w name)) = [] /\
  embedded (fst (ensureIndexExists w name)) = [] /\
  Forall (fun ev => index_of ev = None \/ index_of ev = Some name)
         (fst (ensureIndexExists w name)).
Proof.
  unfold ensureIndexExists, seq, call, ret.
  destruct (listIndexes w) as [[names |] | e]; cbn [negb];
    try destruct (existsb _ names); cbn [negb];
    try destruct (createIndex w name) as [[] | e']; cbn;
    repeat split;
    repeat (apply Forall_cons; [cbn; auto |]); apply Forall_nil.
Qed.

(** The clear raises exactly when it was asked for and the settlement
    of [deleteAll] is one that the handler cannot read. *)
Lemma cleared_harmless (w : World) :
  cleared w <->
  shouldReset w = false \/ harmless (deleteAll w (indexName_of w)) = true.
Proof.
  unfold cleared, reset_index, harmless, clear_failed.
  destruct (shouldReset w); [| cbn; tauto].
  destruct (deleteAll w (indexName_of w)) as [| reason]; [cbn; tauto |].
  destruct reason; cbn [snd];
    try (destruct (get _ "message"); cbn);
    (split; [intros H; try discriminate H; now right
            | intros [H | H]; try discriminate H; reflexivity]).
Qed.

(** What [main] does behind the API key check, as one trace and one
    outcome. *)
Lemma main_cases (w : World) :
  (env_set (PINECONE_API_KEY w) = false /\ main w = ([], Exited 1)) \/
  (env_set (PINECONE_API_KEY w) = true /\
   (exists e, snd (ensureIndexExists w (indexName_of w)) = Raised e) /\
   main w = (fst (ensureIndexExists w (indexName_of w)), Exited 1)) \/
  (env_set (PINECONE_API_KEY w) = true /\
   snd (ensureIndexExists w (indexName_of w)) = Done tt /\
   ~ cleared w /\ shouldReset w = true /\
   main w =
   ((fst (ensureIndexExists w (indexName_of w)) ++
     [DeleteAll (indexName_of w)])%list, Exited 1)) \/
  (env_set (PINECONE_API_KEY w) = true /\
   snd (ensureIndexExists w (indexName_of w)) = Done tt /\
   cleared w /\
   main w =
   ((fst (ensureIndexExists w (indexName_of w)) ++
     (if shouldReset w then [DeleteAll (indexName_of w)] else []) ++
     FetchArticles ::
     match fetchArticles w with
     | Return (a :: rest) => fst (index_articles w (indexName_of w) (a :: rest))
     | _ => []
     end)%list,
    match fetchArticles w with
    | Return [] => Exited 0
    | Return (a :: rest) =>
        match snd (index_articles w (indexName_of w) (a :: rest)) with
        | Done _ => Done tt
        | _ => Exited 1
        end
    | Throw _ => Exited 1
    end)).
Proof.
  unfold main. destruct (env_set (PINECONE_API_KEY w)); [| now left].
  right. cbn [negb].
  destruct (ensure_outcome w (indexName_of w)) as [He | [e He]].
  2: { left. split; [reflexivity |]. split; [now exists e |].
       destruct (ensureIndexExists w (indexName_of w)) as [t o].
       cbn [snd fst] in *. subst o. cbn [seq try_catch exit].
       now rewrite app_nil_r. }
  right.
  destruct (ensureIndexExists w (indexName_of w)) as [t o].
  cbn [snd fst] in *. subst o. cbn [seq].
  destruct (reset_trace w (indexName_of w)) as [Hr [Hd | [e Hx]]].
  - right. split; [reflexivity |]. split; [reflexivity |].
    split; [exact Hd |].
    destruct (reset_index w (indexName_of w)) as [t' o'].
    cbn [fst snd] in *. subst t' o'. cbn [seq].
    unfold fetch_and_index, call, seq.
    destruct (fetchArticles w) as [[| a rest] | e]; cbn [exit try_catch].
    + now rewrite ?app_nil_r.
    + destruct (index_articles_outcome w (indexName_of w) (a :: rest))
        as [E | [e E]];
        destruct (index_articles w (indexName_of w) (a :: rest)) as [t' o'];
        cbn [snd fst] in *; subst o'; cbn [try_catch exit];
        now rewrite ?app_nil_r.
    + now rewrite ?app_nil_r.
  - left. split; [reflexivity |]. split; [reflexivity |].
    assert (Hn : ~ cleared w) by (unfold cleared; rewrite Hx; discriminate).
    split; [exact Hn |].
    assert (Hs : shouldReset w = true).
    { destruct (shouldReset w) eqn:Hs; [reflexivity |].
      exfalso. apply Hn. apply cleared_harmless. now left. }
    split; [exact Hs |].
    destruct (reset_index w (indexName_of w)) as [t' o'].
    cbn [fst snd] in *. subst t' o'. rewrite Hs.
    cbn [seq try_catch exit]. now rewrite app_nil_r.
Qed.

(** X13.  [main] ends in one of three ways, and never with an exception
    in flight: it returns, or the process exits with status 0 or 1.
    Without an API key it exits with status 1 before any call.  Status 0
    is the run that found the index (or created it), got over the clear
    if one was asked for, and fetched no article: nothing was embedded
    and nothing upserted. *)
Theorem main_exit_status (w : World) :
  (snd (main w) = Done tt \/ snd (main w) = Exited 0 \/
   snd (main w) = Exited 1) /\
  (env_set (PINECONE_API_KEY w) = false -> main w = ([], Exited 1)) /\
  (snd (main w) = Exited 0 <->
   env_set (PINECONE_API_KEY w) = true /\
   snd (ensureIndexExists w (indexName_of w)) = Done tt /\
   cleared w /\
   fetchArticles w = Return []) /\
  (snd (main w) = Exited 0 ->
   upserted (fst (main w)) = [] /\ embedded (fst (main w)) = []).
Proof.
  destruct (main_cases w)
    as [[Hkey E] | [(Hkey & [e He] & E) | [(Hkey & He & Hn & Hs & E)
                                          | (Hkey & He & Hc & E)]]];
    rewrite E; cbn [fst snd]; rewrite ?Hkey, ?He.
  - repeat split; auto; try discriminate.
    intros (H & _). discriminate H.
  - repeat split; auto; try discriminate.
    intros (_ & H & _). discriminate H.
  - repeat split; auto; try discriminate.
    intros (_ & _ & H & _). contradiction.
  - destruct (ensure_calls w (indexName_of w)) as (Hu & Hm & _).
    destruct (fetchArticles w) as [[| a rest] | e].
    + repeat split; auto; try discriminate;
        rewrite ?upserted_app, ?embedded_app, ?Hu, ?Hm;
        now destruct (shouldReset w).
    + destruct (snd (index_articles w (indexName_of w) (a :: rest)));
        repeat split; auto; try discriminate;
        try (intros (_ & _ & _ & H); discriminate H).
    + repeat split; auto; try discriminate.
      intros (_ & _ & _ & H); discriminate H.
Qed.

Lemma elements_text_with_deleteAll (w : World)
      (answer : string -> settled) (items : list value) :
  elements_text (with_deleteAll w answer) items = elements_text w items.
Proof.
  induction items as [| item items IH]; [reflexivity |].
  cbn [elements_text]. rewrite IH. reflexivity.
Qed.

Lemma index_article_with_deleteAll (w : World)
      (answer : string -> settled) (name : string) (a : value) :
  index_article (with_deleteAll w answer) name a = index_article w name a.
Proof.
  unfold index_article.
  change (embed_input (with_deleteAll w answer) a) with (embed_input w a).
  assert (M : metadata_of (with_deleteAll w answer) a = metadata_of w a).
  { unfold metadata_of, tags_join.
    destruct (get a "tags"); try reflexivity.
    now rewrite elements_text_with_deleteAll. }
  rewrite M. reflexivity.
Qed.

Lemma index_articles_with_deleteAll (w : World)
      (answer : string -> settled) (name : string)
      (articles : list value) :
  index_articles (with_deleteAll w answer) name articles =
  index_articles w name articles.
Proof.
  induction articles as [| a articles IH]; [reflexivity |].
  cbn [index_articles]. rewrite IH, index_article_with_deleteAll.
  reflexivity.
Qed.

Lemma reset_harmless (w : World) (name : string) :
  harmless (deleteAll w name) = true ->
  reset_index w name =
  (if shouldReset w then [DeleteAll name] else [], Done tt).
Proof.
  unfold reset_index, harmless, clear_failed, ret.
  destruct (shouldReset w); [| reflexivity].
  destruct (deleteAll w name) as [| reason]; [reflexivity |].
  destruct reason; try discriminate;
    destruct (get _ "message"); try discriminate; reflexivity.
Qed.

(** X14.  A failure of [index.deleteAll()] that the handler of the reset
    can read changes nothing: between two settlements of that call that
    are fulfilled, or rejected with a reason that is neither [null] nor
    [undefined] and whose message is absent, a string or an array, an
    error object among them, [main] makes the same calls with the same
    arguments and ends the same way.  Any other rejection makes the
    handler itself raise: the run ends behind the clear, with status 1
    and without a fetch. *)
Theorem main_ignores_deleteAll_failure (w : World)
        (answer : string -> settled) :
  (harmless (deleteAll w (indexName_of w)) = true ->
   harmless (answer (indexName_of w)) = true ->
   main (with_deleteAll w answer) = main w) /\
  (env_set (PINECONE_API_KEY w) = true ->
   snd (ensureIndexExists w (indexName_of w)) = Done tt ->
   shouldReset w = true ->
   harmless (deleteAll w (indexName_of w)) = false ->
   main w =
   ((fst (ensureIndexExists w (indexName_of w)) ++
     [DeleteAll (indexName_of w)])%list, Exited 1)) /\
  (forall m fields,
     harmless (Rejected (VObj (("message", VStr m) :: fields))) = true).
Proof.
  split; [| split].
  - intros H1 H2. unfold main.
    change (PINECONE_API_KEY (with_deleteAll w answer))
      with (PINECONE_API_KEY w).
    destruct (env_set (PINECONE_API_KEY w)); [| reflexivity]. cbn [negb].
    change (indexName_of (with_deleteAll w answer)) with (indexName_of w).
    rewrite (reset_harmless w (indexName_of w) H1).
    rewrite (reset_harmless (with_deleteAll w answer) (indexName_of w) H2).
    change (shouldReset (with_deleteAll w answer)) with (shouldReset w).
    change (ensureIndexExists (with_deleteAll w answer) (indexName_of w))
      with (ensureIndexExists w (indexName_of w)).
    unfold fetch_and_index.
    change (fetchArticles (with_deleteAll w answer)) with (fetchArticles w).
    destruct (fetchArticles w) as [[| a rest] | e]; try reflexivity.
    unfold call. cbn [seq].
    now rewrite index_articles_with_deleteAll.
  - intros Hkey He Hs Hh.
    destruct (main_cases w)
      as [[Hkey' _] | [(_ & [e He'] & _) | [(_ & _ & _ & _ & E)
                                           | (_ & _ & Hc & _)]]].
    + congruence.
    + congruence.
    + exact E.
    + apply cleared_harmless in Hc as [Hc | Hc]; congruence.
  - reflexivity.
Qed.

Lemma main_ignores_deleteAll_failure_witness :
  main (with_deleteAll
          (world_clear_fails (VObj [("message", VStr "index is empty")]))
          (fun _ => Fulfilled)) =
  main (world_clear_fails (VObj [("message", VStr "index is empty")])) /\
  main (world_clear_fails VNull) =
  ([ListIndexes; DeleteAll "articles"], Exited 1).
Proof.
  split.
  - apply (proj1 (main_ignores_deleteAll_failure
                    (world_clear_fails
                       (VObj [("message", VStr "index is empty")]))
                    (fun _ => Fulfilled))); reflexivity.
  - apply (proj1 (proj2 (main_ignores_deleteAll_failure
                           (world_clear_fails VNull)
                           (fun _ => Fulfilled)))); reflexivity.
Defined.

(** A well-formed article gets as far as the embedding request, with
    the text of its title, summary and body, and its metadata can be
    built. *)
Lemma well_formed_turn (w : World) (a : value) :
  well_formed a ->
  embed_input w a = Return (article_text a) /\
  exists metadata, metadata_of w a = Return metadata.
Proof.
  intros (title & summary & body & tags & Ht & Hs & Hb & Hg).
  unfold embed_input, article_text, string_at, metadata_of.
  rewrite Ht, Hs, Hb, Hg. cbn [tags_join].
  rewrite elements_text_strings. cbn [bind]. split; [| eauto].
  destruct a; try discriminate Ht. reflexivity.
Qed.

(** X15.  When the key is set, the index is found or created, the clear
    if any is got over, and every fetched article is well formed (title,
    summary and body are strings, the tags an array of strings), gets
    its embedding and has its upsert taken, [main] returns, and it has
    embedded the text of every fetched article and upserted a record
    under the id of every fetched article, each once and in the order
    of the fetch. *)
Theorem main_indexes_every_article (w : World) (articles : list value) :
  env_set (PINECONE_API_KEY w) = true ->
  snd (ensureIndexExists w (indexName_of w)) = Done tt ->
  cleared w ->
  fetchArticles w = Return articles ->
  articles <> [] ->
  Forall (fun a =>
            well_formed a /\
            (exists embedding, embed w (article_text a) = Return embedding) /\
            upsert w (indexName_of w) (get a "id") = Return tt) articles ->
  snd (main w) = Done tt /\
  embedded (fst (main w)) = map article_text articles /\
  upserted (fst (main w)) = map (fun a => get a "id") articles.
Proof.
  intros Hkey He Hc Hf Hne Hall.
  assert (Hturn : Forall (turn_succeeds w (indexName_of w)) articles).
  { eapply Forall_impl; [| exact Hall]. cbn beta.
    intros a (Hw & [embedding Hv] & Hu).
    destruct (well_formed_turn w Hw) as [Hi [metadata Hm]].
    exists (article_text a), embedding, metadata. auto. }
  assert (Htext : flat_map (input_text w) articles = map article_text articles).
  { clear Hf Hne Hturn. induction Hall as [| a l (Hw & _) _ IH]; [reflexivity |].
    cbn [flat_map map]. rewrite IH. unfold input_text.
    now rewrite (proj1 (well_formed_turn w Hw)). }
  destruct (main_cases w)
    as [[Hkey' _] | [(_ & [e He'] & _) | [(_ & _ & Hn & _)
                                         | (_ & _ & _ & E)]]];
    try congruence; try contradiction.
  rewrite E, Hf. cbn [fst snd].
  destruct (ensure_calls w (indexName_of w)) as (Hu & Hm & _).
  destruct (turns_calls Hturn) as [Tu Te].
  destruct articles as [| a rest]; [contradiction |].
  rewrite (index_articles_succeed Hturn). cbn [fst snd].
  rewrite !upserted_app, !embedded_app, Hu, Hm.
  change (FetchArticles :: ?l) with ([FetchArticles] ++ l)%list.
  rewrite !upserted_app, !embedded_app, Tu, Te, Htext.
  now destruct (shouldReset w).
Qed.

Lemma main_indexes_every_article_witness :
  snd (main world_fresh) = Done tt /\
  embedded (fst (main world_fresh)) =
  map article_text [fetched_tagged; fetched_guide] /\
  upserted (fst (main world_fresh)) =
  map (fun a => get a "id") [fetched_tagged; fetched_guide].
Proof.
  apply (@main_indexes_every_article world_fresh
           [fetched_tagged; fetched_guide]);
    try reflexivity; try discriminate.
  repeat constructor.
  - now exists "Vector search", "About vectors", "<p>Vectors</p>",
      ["vector db"; "search"].
  - now exists [zero; one].
  - now exists "TypeScript Guide", EmptyString, EmptyString, [].
  - now exists [zero; one].
Defined.

Lemma index_article_calls (w : World) (name : string) (a : value) :
  embedded (fst (index_article w name a)) = input_text w a /\
  (upserted (fst (index_article w name a)) = [] \/
   upserted (fst (index_article w name a)) = [get a "id"]) /\
  Forall (fun ev => is_delete ev = false /\
                    (index_of ev = None \/ index_of ev = Some name))
         (fst (index_article w name a)).
Proof.
  unfold index_article, input_text, seq, call, eval.
  destruct (embed_input w a) as [text | e];
    [destruct (embed w text) as [embedding | e];
     [destruct (metadata_of w a) as [metadata | e];
      [destruct (upsert w name (get a "id")) as [[] | e] |] |] |];
    cbn; repeat split; auto;
    repeat (apply Forall_cons; [cbn; auto |]); apply Forall_nil.
Qed.

Lemma index_articles_events (w : World) (name : string)
      (articles : list value) :
  Forall (fun ev => is_delete ev = false /\
                    (index_of ev = None \/ index_of ev = Some name))
         (fst (index_articles w name articles)).
Proof.
  induction articles as [| a articles IH]; [constructor |].
  cbn [index_articles]. rewrite fst_seq. apply Forall_app. split.
  - apply index_article_calls.
  - destruct (snd (index_article w name a)); [exact IH | constructor ..].
Qed.

Lemma index_articles_stop (w : World) (name : string)
      (before after : list value) (a : value) (e : Error) :
  Forall (turn_succeeds w name) before ->
  snd (index_article w name a) = Raised e ->
  index_articles w name (before ++ a :: after) =
  ((flat_map (turn_events w name) before ++
    fst (index_article w name a))%list, Raised e).
Proof.
  intros Hb Ha. induction Hb as [| b before Hb _ IH].
  - cbn [app flat_map index_articles].
    destruct (index_article w name a) as [t o]. cbn [fst snd] in *.
    subst o. reflexivity.
  - cbn [app flat_map index_articles].
    destruct (index_article_outcome w name b) as [[_ E] | [N _]];
      [| contradiction].
    rewrite E, IH. cbn [seq]. now rewrite app_assoc.
Qed.

Lemma input_text_unreadable (w : World) (a : value) :
  (forall t, get a "title" <> VStr t) ->
  (forall items, get a "title" <> VArr items) ->
  input_text w a = [].
Proof.
  intros Hs Ha. unfold input_text, embed_input.
  destruct (get a "title") as [| | b | x | t | items | fs] eqn:E;
    try (now contradiction (Hs t)); try (now contradiction (Ha items));
    destruct a; reflexivity.
Qed.

(** What the fetch's callback builds has tags that can be joined. *)
Lemma mapped_tags (now : string) (node a : value) :
  ContentSource.map_node now node = Return a ->
  exists ts, get a "tags" = VArr (map VStr ts).
Proof.
  assert (S : forall tags v,
             Queries.split_tags tags = Return v ->
             exists ts, v = VArr (map VStr ts)).
  { intros tags v. unfold Queries.split_tags.
    destruct (truthy tags); [destruct tags; try discriminate |];
      intros [= <-].
    - exists (map trim (split_char "," s)). now rewrite map_map.
    - now exists []. }
  unfold ContentSource.map_node.
  destruct node; try discriminate;
    (destruct (Queries.path_replace _) as [replaced |];
     cbn [bind]; [| discriminate]);
    (destruct (Queries.split_tags _) as [tags |] eqn:E;
     cbn [bind]; [| discriminate]);
    intros [= <-]; exact (S _ _ E).
Qed.

Lemma mapped_metadata (w : World) (now : string) (node a : value) :
  ContentSource.map_node now node = Return a ->
  exists metadata, metadata_of w a = Return metadata.
Proof.
  intros H. destruct (mapped_tags _ _ H) as [ts T].
  unfold metadata_of. rewrite T. cbn [tags_join].
  rewrite elements_text_strings. cbn [bind]. eauto.
Qed.

(** X16.  The loop stops at the first article whose turn fails: [main]
    exits with status 1; the articles before it are embedded and
    upserted; the failing one is sent to the embedding provider only if
    its text could be built, which it cannot be for an article whose
    title is neither a string nor an array, and it is upserted at most
    once; and no article behind it is embedded or upserted.  The
    metadata is not what fails for an article that the fetch's callback
    built: its tags can always be joined. *)
Theorem main_stops_at_first_failure (w : World) (before after : list value)
        (a : value) :
  env_set (PINECONE_API_KEY w) = true ->
  snd (ensureIndexExists w (indexName_of w)) = Done tt ->
  cleared w ->
  fetchArticles w = Return (before ++ a :: after)%list ->
  Forall (turn_succeeds w (indexName_of w)) before ->
  ~ turn_succeeds w (indexName_of w) a ->
  snd (main w) = Exited 1 /\
  embedded (fst (main w)) =
  (flat_map (input_text w) before ++ input_text w a)%list /\
  (upserted (fst (main w)) = map (fun b => get b "id") before \/
   upserted (fst (main w)) =
   map (fun b => get b "id") (before ++ [a])%list) /\
  ((forall t, get a "title" <> VStr t) ->
   (forall items, get a "title" <> VArr items) ->
   embedded (fst (main w)) = flat_map (input_text w) before /\
   upserted (fst (main w)) = map (fun b => get b "id") before) /\
  (forall now node,
     ContentSource.map_node now node = Return a ->
     exists metadata, metadata_of w a = Return metadata).
Proof.
  intros Hkey He Hc Hf Hb Ha.
  destruct (index_article_outcome w (indexName_of w) a) as [[Y _] | [_ [e E]]];
    [contradiction |].
  destruct (main_cases w)
    as [[Hkey' _] | [(_ & [e' He'] & _) | [(_ & _ & Hn & _)
                                          | (_ & _ & _ & M)]]];
    try congruence; try contradiction.
  rewrite M, Hf. cbn [fst snd].
  destruct (ensure_calls w (indexName_of w)) as (Hu & Hm & _).
  destruct (turns_calls Hb) as [Tu Te].
  destruct (index_article_calls w (indexName_of w) a) as (Ae & Au & _).
  pose proof (@index_articles_stop w (indexName_of w) before after a e Hb E)
    as S.
  destruct (before ++ a :: after)%list as [| x rest] eqn:Eq;
    [now destruct before |].
  rewrite S. cbn [fst snd].
  change (FetchArticles :: ?l) with ([FetchArticles] ++ l)%list.
  rewrite !upserted_app, !embedded_app, Hu, Hm, Tu, Te, Ae, !map_app.
  assert (R : upserted (if shouldReset w
                        then [DeleteAll (indexName_of w)] else []) = [] /\
              embedded (if shouldReset w
                        then [DeleteAll (indexName_of w)] else []) = [])
    by (now destruct (shouldReset w)).
  destruct R as [-> ->]. cbn [app upserted embedded flat_map map].
  split; [reflexivity |]. split; [reflexivity |].
  split; [| split; [| intros now node; apply mapped_metadata]].
  - destruct Au as [-> | ->]; [left | right]; now rewrite ?app_nil_r.
  - intros Hs Hr.
    assert (I : input_text w a = []) by now apply input_text_unreadable.
    rewrite I, app_nil_r. split; [reflexivity |].
    destruct Au as [-> | Au]; [now rewrite app_nil_r |].
    exfalso. clear - I Au.
    unfold index_article, input_text, seq, call, eval in *.
    destruct (embed_input w a); [discriminate I | discriminate Au].
Qed.

Lemma main_stops_at_first_failure_witness :
  snd (main world_untitled) = Exited 1 /\
  embedded (fst (main world_untitled)) =
  (flat_map (input_text world_untitled) [fetched_tagged] ++
   input_text world_untitled fetched_untitled)%list /\
  (upserted (fst (main world_untitled)) =
   map (fun b => get b "id") [fetched_tagged] \/
   upserted (fst (main world_untitled)) =
   map (fun b => get b "id") ([fetched_tagged] ++ [fetched_untitled])%list) /\
  ((forall t, get fetched_untitled "title" <> VStr t) ->
   (forall items, get fetched_untitled "title" <> VArr items) ->
   embedded (fst (main world_untitled)) =
   flat_map (input_text world_untitled) [fetched_tagged] /\
   upserted (fst (main world_untitled)) =
   map (fun b => get b "id") [fetched_tagged]) /\
  (forall now node,
     ContentSource.map_node now node = Return fetched_untitled ->
     exists metadata,
       metadata_of world_untitled fetched_untitled = Return metadata).
Proof.
  apply (@main_stops_at_first_failure world_untitled [fetched_tagged]
           [fetched_guide] fetched_untitled); try reflexivity.
  - repeat constructor.
    exists (article_text fetched_tagged), [zero; one].
    eexists. repeat split; reflexivity.
  - intros (text & _ & _ & H & _). discriminate H.
Defined.

(** X17.  [main] clears the index only when it was started with
    [--reset], and then once: a [deleteAll] is among its calls exactly
    when the API key is set, the existence-and-creation step came to its
    end and [--reset] is among the arguments. *)
Theorem main_clears_only_on_reset (w : World) :
  (existsb is_delete (fst (main w)) = true <->
   env_set (PINECONE_API_KEY w) = true /\
   snd (ensureIndexExists w (indexName_of w)) = Done tt /\
   shouldReset w = true) /\
  (List.length (filter is_delete (fst (main w))) <= 1)%nat.
Proof.
  assert (En : filter is_delete (fst (ensureIndexExists w (indexName_of w)))
               = []).
  { unfold ensureIndexExists, seq, call, ret.
    destruct (listIndexes w) as [[names |] | e]; cbn [negb];
      try destruct (existsb _ names); cbn [negb];
      try destruct (createIndex w (indexName_of w)) as [[] | e'];
      reflexivity. }
  assert (Lp : forall l, filter is_delete
                 (fst (index_articles w (indexName_of w) l)) = []).
  { intros l. pose proof (index_articles_events w (indexName_of w) l) as H.
    induction H as [| ev t [Hd _] _ IH]; [reflexivity |].
    cbn [filter]. now rewrite Hd. }
  assert (Ex : forall t, existsb is_delete t = true <->
                         filter is_delete t <> []).
  { induction t as [| ev t IH]; cbn; [intuition congruence |].
    destruct (is_delete ev); cbn; [intuition congruence | exact IH]. }
  rewrite Ex.
  destruct (main_cases w)
    as [[Hkey E] | [(Hkey & [e He] & E) | [(Hkey & He & Hn & Hs & E)
                                          | (Hkey & He & Hc & E)]]];
    rewrite E; cbn [fst]; rewrite ?filter_app, ?En, ?Hkey, ?He.
  - cbn. split; [| lia].
    split; [congruence | intros (H & _); discriminate H].
  - cbn. split; [| lia].
    split; [congruence | intros (_ & H & _); discriminate H].
  - cbn. rewrite Hs. split; [| lia]. split; [auto | discriminate].
  - cbn [app].
    assert (F : filter is_delete
                  (FetchArticles ::
                   match fetchArticles w with
                   | Return (a :: rest) =>
                       fst (index_articles w (indexName_of w) (a :: rest))
                   | _ => []
                   end) = []).
    { cbn [filter is_delete].
      destruct (fetchArticles w) as [[| a rest] | e]; trivial. }
    rewrite F, app_nil_r.
    destruct (shouldReset w); cbn; split; try lia;
      split; try congruence; try (intros (_ & _ & H); discriminate H);
      auto.
Qed.

(** X18.  A run works on one index: every call of [main] that names an
    index (the creation, the clear, every upsert) names the index of
    [PINECONE_INDEX], or [decoupled-search] when that variable is unset
    or empty. *)
Theorem main_single_index (w : World) :
  Forall (fun ev => index_of ev = None \/
                    index_of ev = Some (indexName_of w)) (fst (main w)) /\
  (indexName_of w = "decoupled-search" <->
   env_set (PINECONE_INDEX w) = false \/
   PINECONE_INDEX w = Some "decoupled-search").
Proof.
  split.
  - destruct (ensure_calls w (indexName_of w)) as (_ & _ & Hn).
    destruct (main_cases w)
      as [[Hkey E] | [(Hkey & [e He] & E) | [(Hkey & He & Hx & Hs & E)
                                            | (Hkey & He & Hc & E)]]];
      rewrite E; cbn [fst].
    + constructor.
    + exact Hn.
    + apply Forall_app. split; [exact Hn |].
      apply Forall_cons; [now right | apply Forall_nil].
    + apply Forall_app. split; [exact Hn |].
      apply Forall_app. split.
      * destruct (shouldReset w); [| apply Forall_nil].
        apply Forall_cons; [now right | apply Forall_nil].
      * apply Forall_cons; [now left |].
        destruct (fetchArticles w) as [[| a rest] | e]; try apply Forall_nil.
        eapply Forall_impl;
          [| apply (index_articles_events w (indexName_of w) (a :: rest))].
        cbn beta. now intros ev [_ H].
  - unfold indexName_of, env_or, env_set.
    destruct (PINECONE_INDEX w) as [[| c s] |]; cbn.
    + intuition.
    + split; [intros ->; now right | intros [H | H]; congruence].
    + intuition.
Qed.

End RunFacts.

(* ================================================================== *)
(** * The text that is embedded *)
(* ================================================================== *)

Lemma has_char_append (c : ascii) (a b : string) :
  has_char c (a ++ b) = (has_char c a || has_char c b)%bool.
Proof.
  induction a as [| x a IH]; simpl; [reflexivity |].
  now rewrite IH, orb_assoc.
Qed.

Lemma cut_tag_has_char (s : string) :
  cut_tag s = None <-> has_char ">" s = false.
Proof.
  induction s as [| c s IH]; simpl; [tauto |].
  destruct (Ascii.eqb c ">"); simpl; [split; discriminate | exact IH].
Qed.

Lemma replace_tags_fixed (s : string) :
  tag_free s = true -> replace_tags_from false s = s.
Proof.
  induction s as [| c s IH]; simpl; [reflexivity |].
  intros H. apply andb_prop in H. destruct H as [H1 H2].
  rewrite (IH H2).
  destruct (Ascii.eqb c "<"); [| reflexivity].
  simpl in H1. apply negb_true_iff in H1.
  apply cut_tag_has_char in H1. now rewrite H1.
Qed.

Lemma has_char_false_tag_free (s : string) :
  has_char ">" s = false -> tag_free s = true.
Proof.
  induction s as [| c s IH]; simpl; [reflexivity |].
  intros H. apply orb_false_elim in H. destruct H as [_ H].
  rewrite H, (IH H). simpl. now rewrite orb_true_r.
Qed.

Lemma replace_tags_tag_free (in_tag : bool) (s : string) :
  tag_free (replace_tags_from in_tag s) = true.
Proof.
  revert in_tag. induction s as [| c s IH]; intros in_tag; simpl;
    [now destruct in_tag |].
  destruct in_tag; [apply IH |].
  destruct (Ascii.eqb c "<") eqn:E.
  - destruct (cut_tag s) eqn:C.
    + simpl. apply IH.
    + apply cut_tag_has_char in C.
      rewrite (replace_tags_fixed _ (has_char_false_tag_free _ C)).
      simpl. rewrite C, (has_char_false_tag_free _ C).
      now rewrite orb_true_r.
  - simpl. rewrite E, IH. reflexivity.
Qed.

Lemma is_space_gt : is_space ">" = false.
Proof. reflexivity. Qed.

Lemma is_space_not (c x : ascii) :
  is_space c = true -> is_space x = false -> Ascii.eqb c x = false.
Proof.
  intros Hc Hx. destruct (Ascii.eqb c x) eqn:E; [| reflexivity].
  apply Ascii.eqb_eq in E. congruence.
Qed.

Lemma collapse_has_char (x : ascii) (in_run : bool) (s : string) :
  is_space x = false ->
  has_char x (collapse_ws_from in_run s) = has_char x s.
Proof.
  intros Hx. revert in_run. induction s as [| c s IH]; intros in_run;
    cbn [collapse_ws_from has_char]; [reflexivity |].
  destruct (is_space c) eqn:E.
  - rewrite (is_space_not _ _ E Hx). cbn [orb].
    destruct in_run; cbn [has_char]; rewrite IH; [reflexivity |].
    now rewrite (@is_space_not " " x eq_refl Hx).
  - cbn [has_char]. now rewrite IH.
Qed.

Lemma collapse_tag_free (in_run : bool) (s : string) :
  tag_free (collapse_ws_from in_run s) = tag_free s.
Proof.
  revert in_run. induction s as [| c s IH]; intros in_run;
    cbn [collapse_ws_from tag_free]; [reflexivity |].
  destruct (is_space c) eqn:E.
  - rewrite (@is_space_not c "<" E eq_refl). cbn [negb orb andb].
    destruct in_run; cbn [tag_free]; rewrite IH; reflexivity.
  - cbn [tag_free]. now rewrite IH, (@collapse_has_char ">" false s is_space_gt).
Qed.

Lemma collapse_single_spaced (in_run : bool) (s : string) :
  single_spaced (collapse_ws_from in_run s) = true /\
  (in_run = true -> first_is_space (collapse_ws_from in_run s) = false).
Proof.
  revert in_run. induction s as [| c s IH]; intros in_run; simpl;
    [now split |].
  destruct (is_space c) eqn:E.
  - destruct in_run.
    + apply IH.
    + destruct (IH true) as [H1 H2]. simpl. rewrite H1, (H2 eq_refl).
      split; [reflexivity | discriminate].
  - destruct (IH false) as [H1 _]. simpl. rewrite E, H1. now split.
Qed.

Lemma collapse_fixed (in_run : bool) (s : string) :
  single_spaced s = true ->
  (in_run = true -> first_is_space s = false) ->
  collapse_ws_from in_run s = s.
Proof.
  revert in_run. induction s as [| c s IH]; intros in_run Hs Hf; simpl;
    [reflexivity |].
  simpl in Hs. apply andb_prop in Hs. destruct Hs as [H1 H2].
  destruct (is_space c) eqn:E.
  - simpl in H1. apply andb_prop in H1. destruct H1 as [Hc Hn].
    apply Ascii.eqb_eq in Hc. apply negb_true_iff in Hn.
    destruct in_run.
    + specialize (Hf eq_refl). simpl in Hf. congruence.
    + subst c. now rewrite (IH true H2 (fun _ => Hn)).
  - now rewrite (IH false H2 (fun H => False_ind _ (diff_false_true H))).
Qed.

Lemma single_spaced_append (a b : string) :
  single_spaced (a ++ b) = true ->
  single_spaced a = true /\ single_spaced b = true.
Proof.
  induction a as [| c a IH]; simpl; [now split |].
  intros H. apply andb_prop in H. destruct H as [H1 H2].
  destruct (IH H2) as [Ha Hb]. rewrite Ha. split; [| exact Hb].
  rewrite andb_true_r.
  destruct a as [| x a]; [| exact H1].
  simpl in *. destruct (is_space c); simpl in *; [| reflexivity].
  apply andb_prop in H1. destruct H1 as [-> _]. reflexivity.
Qed.

Lemma tag_free_append (a b : string) :
  tag_free (a ++ b) = true -> tag_free a = true /\ tag_free b = true.
Proof.
  induction a as [| c a IH]; simpl; [now split |].
  intros H. apply andb_prop in H. destruct H as [H1 H2].
  destruct (IH H2) as [Ha Hb]. rewrite Ha. split; [| exact Hb].
  rewrite andb_true_r. rewrite has_char_append in H1.
  destruct (Ascii.eqb c "<"); simpl in *; [| reflexivity].
  apply negb_true_iff in H1. apply orb_false_elim in H1.
  destruct H1 as [-> _]. reflexivity.
Qed.

(** What [trim] returns is a part of its argument. *)
Lemma trim_part (s : string) :
  exists before behind, s = before ++ trim s ++ behind.
Proof.
  destruct (trimStart_suffix s) as (blank & Hs & _).
  destruct (trimStart_suffix (rev_string EmptyString (trimStart s)))
    as (blank' & Hr & _).
  exists blank, (rev_string EmptyString blank').
  unfold trim. rewrite <- rev_string_append, <- Hr, rev_string_involutive.
  exact Hs.
Qed.

(** X19.  The body that is embedded is plain text: it holds no tag (no
    [<] with a [>] behind it), its only white space is single spaces
    between words, and it neither starts nor ends with white space.  A
    body that is already plain text is embedded as it is, and no other
    body is. *)
Theorem plainBody_plain (body : string) :
  plain (IndexContent.plainBody body) = true /\
  (IndexContent.plainBody body = body <-> plain body = true).
Proof.
  assert (P : plain (IndexContent.plainBody body) = true).
  { unfold plain, IndexContent.plainBody.
    destruct (trim_ends (collapse_ws (replace_tags body))) as [-> ->].
    destruct (trim_part (collapse_ws (replace_tags body)))
      as (before & behind & E).
    assert (T : tag_free (collapse_ws (replace_tags body)) = true)
      by (unfold collapse_ws; rewrite collapse_tag_free;
          apply replace_tags_tag_free).
    assert (S : single_spaced (collapse_ws (replace_tags body)) = true)
      by apply collapse_single_spaced.
    rewrite E in T, S.
    apply tag_free_append in T. destruct T as [_ T].
    apply tag_free_append in T. destruct T as [T _].
    apply single_spaced_append in S. destruct S as [_ S].
    apply single_spaced_append in S. destruct S as [S _].
    now rewrite T, S. }
  split; [exact P |]. split.
  - intros E. now rewrite <- E.
  - unfold plain. intros H.
    apply andb_prop in H. destruct H as [H Hl].
    apply andb_prop in H. destruct H as [H Hf].
    apply andb_prop in H. destruct H as [Ht Hs].
    apply negb_true_iff in Hl, Hf.
    unfold IndexContent.plainBody, replace_tags, collapse_ws.
    rewrite (replace_tags_fixed _ Ht).
    rewrite (@collapse_fixed false body Hs
               (fun H => False_ind _ (diff_false_true H))).
    now apply trim_fixed.
Qed.

Lemma take_all (n : nat) (s : string) :
  (String.length s <= n)%nat -> take n s = s.
Proof.
  revert n. induction s as [| c s IH]; intros [| n]; simpl; trivial;
    try lia.
  intros H. rewrite IH; [reflexivity | lia].
Qed.

Lemma take_prefix (n : nat) (s : string) :
  exists rest, s = take n s ++ rest /\
               String.length (take n s) = Nat.min n (String.length s).
Proof.
  revert n. induction s as [| c s IH]; intros [| n]; simpl;
    try (eexists; split; reflexivity).
  destruct (IH n) as (rest & E & L). exists rest.
  split; [now rewrite <- E | now rewrite L].
Qed.

Lemma truncatedText_cut (text : string) :
  exists rest,
    text = IndexContent.truncatedText text ++ rest /\
    Z.of_nat (String.length (IndexContent.truncatedText text)) =
    Z.min 32000 (Z.of_nat (String.length text)).
Proof.
  unfold IndexContent.truncatedText, slice0.
  change (32000 <? 0) with false. cbv iota.
  destruct (take_prefix
              (Z.to_nat (Z.min 32000 (Z.of_nat (String.length text)))) text)
    as (rest & E & L).
  exists rest. split; [exact E |]. rewrite L. lia.
Qed.

(** X20.  The text that is sent to the embedding provider is the start of
    the article's text (title, blank line, summary, blank line, plain
    body): a text of at most 32000 code units is sent whole, a longer
    one is cut to exactly its first 32000. *)
Theorem truncatedText_prefix (title summary body : string) :
  let text :=
    IndexContent.textToEmbed title summary (IndexContent.plainBody body) in
  (exists rest, text = IndexContent.truncatedText text ++ rest) /\
  Z.of_nat (String.length (IndexContent.truncatedText text)) =
  Z.min 32000 (Z.of_nat (String.length text)) /\
  (Z.of_nat (String.length text) <= 32000 ->
   IndexContent.truncatedText text = text).
Proof.
  intros text.
  destruct (truncatedText_cut text) as (rest & E & L).
  split; [now exists rest |]. split; [exact L |].
  intros H. unfold IndexContent.truncatedText, slice0.
  change (32000 <? 0) with false. cbv iota. apply take_all. lia.
Qed.

(** The steps of the code on the body follow the specification. *)














(* ================================================================== *)
(** * The fetch of the articles *)
(* ================================================================== *)

Section SourceFacts.
Import Queries ContentSource.

Lemma lookup_cons (key k : string) (v : value)
      (fields : list (string * value)) :
  lookup key ((k, v) :: fields) =
  if String.eqb k key then v else lookup key fields.
Proof. reflexivity. Qed.

Lemma map_node_truthy (now : string) (node : value) :
  truthy node = true ->
  map_node now node =
  (replaced <- path_replace (get node "path") ;;
   tags <- split_tags (get node "tags") ;;
   Return (VObj
     [ ("id", get node "id");
       ("title", get node "title");
       ("slug", or_else replaced (get node "id"));
       ("body", or_else (opt_get (get node "body") "processed") (VStr ""));
       ("summary", or_else (opt_get (get node "summary") "value") (VStr ""));
       ("category", or_else (get node "category") (VStr "General"));
       ("tags", tags);
       ("readTime", or_else (get node "readTime") (VStr "5 min read"));
       ("publishedAt",
         or_else (opt_get (get node "created") "time") (VStr now));
       ("image",
         if truthy (get node "image") then
           VObj
             [ ("url", get (get node "image") "url");
               ("alt", or_else (get (get node "image") "alt")
                               (get node "title")) ]
         else VUndefined) ])).
Proof. destruct node; try discriminate; reflexivity. Qed.

(** X21.  The indexer and the pages normalize a node alike.  On a node
    that is not falsy, the callback of the indexer's fetch and
    [transformArticle] throw the same error or return articles with the
    same fields, but for the image, of which the indexer keeps the url
    and the alt text and drops the size.  They part on a falsy node:
    [transformArticle] returns [null], the indexer's callback never
    does. *)
Theorem map_node_agrees_with_transformArticle (now : string) (node : value) :
  (truthy node = true ->
   match transformArticle now node, map_node now node with
   | Return page, Return indexed =>
       (forall key, key <> "image" -> get indexed key = get page key) /\
       truthy (get indexed "image") = truthy (get page "image") /\
       get (get indexed "image") "url" = get (get page "image") "url" /\
       get (get indexed "image") "alt" = get (get page "image") "alt" /\
       get (get indexed "image") "width" = VUndefined /\
       get (get indexed "image") "height" = VUndefined
   | Throw e, Throw e' => e = e'
   | _, _ => False
   end) /\
  (truthy node = false ->
   transformArticle now node = Return VNull /\
   map_node now node <> Return VNull).
Proof.
  split.
  - intros Ht. rewrite (map_node_truthy now node Ht).
    unfold transformArticle. rewrite Ht. cbn [negb].
    destruct (path_replace (get node "path")) as [replaced | e];
      cbn [bind]; [| reflexivity].
    destruct (split_tags (get node "tags")) as [tags | e];
      cbn [bind]; [| reflexivity].
    split.
    + intros key Hk. cbn [get]. rewrite !lookup_cons.
      repeat match goal with
             | |- context [String.eqb ?k key] =>
                 destruct (String.eqb k key) eqn:?; [reflexivity |]
             end.
      destruct (String.eqb "image" key) eqn:E; [| reflexivity].
      apply String.eqb_eq in E. now contradiction Hk.
    + destruct (truthy (get node "image")); repeat split; reflexivity.
  - intros Hf. unfold transformArticle. rewrite Hf. cbn [negb].
    split; [reflexivity |].
    unfold map_node.
    destruct node; try discriminate;
      destruct (path_replace _); cbn [bind]; try discriminate;
      destruct (split_tags _); cbn [bind]; discriminate.
Qed.

Lemma map_nodes_each (clock : nat -> string) (nodes : list value) :
  forall (i : nat) (articles : list value),
    map_nodes clock i nodes = Return articles ->
    List.length articles = List.length nodes /\
    forall (k : nat) (node : value),
      nth_error nodes k = Some node ->
      exists article,
        nth_error articles k = Some article /\
        map_node (clock (i + k)%nat) node = Return article.
Proof.
  induction nodes as [| n nodes IH]; intros i articles; cbn [map_nodes].
  - intros H. injection H as <-. split; [reflexivity |].
    intros [| k] node H; discriminate H.
  - destruct (map_node (clock i) n) as [a |] eqn:Ea; cbn [bind];
      [| discriminate].
    destruct (map_nodes clock (S i) nodes) as [rest |] eqn:Er; cbn [bind];
      [| discriminate].
    intros H. injection H as <-.
    destruct (IH (S i) rest Er) as [Hl Hn].
    split; [cbn; now rewrite Hl |].
    intros [| k] node H; cbn [nth_error] in *.
    + injection H as <-. exists a. now rewrite Nat.add_0_r.
    + destruct (Hn k node H) as (article & H1 & H2).
      exists article. split; [exact H1 |].
      now replace (i + S k)%nat with (S i + k)%nat by lia.
Qed.

(** The ways [getAccessToken] goes. *)
Lemma getAccessToken_cases (d : Drupal) :
  (configured d = false /\ exists e, getAccessToken d = ([], Throw e)) \/
  (exists base id secret,
     configured d = true /\
     baseUrl_of d = Some base /\ IndexContent.env_set (Some base) = true /\
     DRUPAL_CLIENT_ID d = Some id /\ DRUPAL_CLIENT_SECRET d = Some secret /\
     ((exists e,
         getAccessToken d =
         ([TokenRequest (base ++ "/oauth/token") id secret], Throw e)) \/
      (exists response data,
         token_endpoint d (base ++ "/oauth/token") id secret
         = Return response /\
         ok response = true /\ json response = Return data /\
         getAccessToken d =
         ([TokenRequest (base ++ "/oauth/token") id secret],
          Return (get data "access_token"))))).
Proof.
  unfold getAccessToken, configured.
  destruct (DRUPAL_CLIENT_ID d) as [[| c1 s1] |];
    try (left; split; [reflexivity | eexists; reflexivity]).
  destruct (DRUPAL_CLIENT_SECRET d) as [[| c2 s2] |];
    try (left; split; [reflexivity | eexists; reflexivity]).
  destruct (baseUrl_of d) as [[| c3 s3] |];
    try (left; split; [reflexivity | eexists; reflexivity]).
  right. exists (String c3 s3), (String c1 s1), (String c2 s2).
  repeat (split; [reflexivity |]).
  cbv zeta. unfold fetch, and_then.
  destruct (token_endpoint d (String c3 s3 ++ "/oauth/token")
                           (String c1 s1) (String c2 s2))
    as [[okay text js] | e]; [| left; now exists e].
  cbn [ok statusText json].
  destruct okay; cbn [negb]; [| left; eexists; reflexivity].
  destruct js as [data | e]; cbn [lift]; [| left; now exists e].
  destruct data; cbn [throw pure app];
    try (left; eexists; reflexivity);
    right; eexists; eexists; repeat split; reflexivity.
Qed.

(** X22.  The fetch sends nothing without its configuration, and the
    token comes first.  Unless a base URL, a client id and a client
    secret are set (and not empty), [fetchArticles] throws before any
    request; otherwise its first request is the token request, to
    [/oauth/token] under the base URL, with that id and secret.  A
    GraphQL request is made only behind a token request that was
    answered [ok] with a JSON body; it goes to [/graphql] under the same
    base URL and carries the [access_token] of that body; and nothing
    is requested after it. *)
Theorem fetchArticles_token_first (d : Drupal) :
  (configured d = false -> exists e, fetchArticles d = ([], Throw e)) /\
  (configured d = true ->
   exists base id secret after,
     baseUrl_of d = Some base /\
     DRUPAL_CLIENT_ID d = Some id /\ DRUPAL_CLIENT_SECRET d = Some secret /\
     fst (fetchArticles d) =
     TokenRequest (base ++ "/oauth/token") id secret :: after /\
     (after = [] \/
      exists response data,
        token_endpoint d (base ++ "/oauth/token") id secret
        = Return response /\
        ok response = true /\ json response = Return data /\
        after = [GraphQLRequest (base ++ "/graphql")
                                (get data "access_token")])).
Proof.
  unfold fetchArticles.
  destruct (getAccessToken_cases d)
    as [[Hc [e He]] |
        (base & id & secret & Hc & Hb & Hs & Hi & Hk &
         [[e He] | (response & data & Hr & Ho & Hj & He)])];
    rewrite Hc; (split; [intros H; try discriminate H | intros H; try discriminate H]).
  - destruct (baseUrl_of d) as [[| c s] |]; try (eexists; reflexivity).
    rewrite He. eexists; reflexivity.
  - exists base, id, secret, []. rewrite Hb.
    destruct base as [| c s]; [discriminate Hs |].
    rewrite He. cbn [and_then fst]. repeat split; auto.
  - exists base, id, secret,
      [GraphQLRequest (base ++ "/graphql") (get data "access_token")].
    rewrite Hb. destruct base as [| c s]; [discriminate Hs |].
    rewrite He. cbv zeta. unfold fetch. cbn [and_then].
    repeat split; auto.
    + destruct (graphql_endpoint d _ _) as [[okay text js] | e'];
        [| reflexivity].
      cbn [ok statusText json]. destruct okay; cbn [negb];
        [| reflexivity].
      destruct js as [data' | e']; cbn [lift and_then]; [| reflexivity].
      destruct data'; cbn [throw]; try reflexivity;
        (match goal with
         | |- context [truthy ?x] => destruct (truthy x); [reflexivity |]
         end);
        (match goal with
         | |- context [nodes_of ?x] =>
             destruct (nodes_of x); cbn [throw lift]; reflexivity
         end).
    + right. exists response, data. auto.
Qed.

(** X23.  [fetchArticles] returns one article for every node of the
    response, in the order of the nodes, each the node as the callback
    normalizes it; it returns only when the GraphQL response was [ok],
    its body held no [errors] that are not falsy, and every node could
    be normalized: if the callback throws on one node, the fetch throws
    and returns no article at all. *)
Theorem fetchArticles_maps_every_node (d : Drupal) (articles : list value) :
  snd (fetchArticles d) = Return articles ->
  exists base token response data nodes,
    baseUrl_of d = Some base /\
    graphql_endpoint d (base ++ "/graphql") token = Return response /\
    ok response = true /\ json response = Return data /\
    truthy (get data "errors") = false /\
    nodes_of data = VArr nodes /\
    List.length articles = List.length nodes /\
    (forall (k : nat) (node : value),
       nth_error nodes k = Some node ->
       exists article,
         nth_error articles k = Some article /\
         map_node (clock d k) node = Return article).
Proof.
  unfold fetchArticles.
  destruct (baseUrl_of d) as [[| c s] |] eqn:Hb; try discriminate.
  cbv zeta.
  destruct (getAccessToken d) as [t [token | e]]; cbn [and_then];
    [| discriminate].
  unfold fetch.
  destruct (graphql_endpoint d (String c s ++ "/graphql") token)
    as [[okay text js] | e] eqn:Hg; [| discriminate].
  cbn [ok statusText json and_then]. destruct okay; cbn [negb];
    [| discriminate].
  destruct js as [data | e]; cbn [lift and_then]; [| discriminate].
  intros H.
  assert (G : truthy (get data "errors") = false /\
              exists nodes, nodes_of data = VArr nodes /\
                            map_nodes (clock d) 0 nodes = Return articles).
  { destruct data; cbn [throw] in H; try discriminate H;
      (match type of H with
       | context [truthy ?x] => destruct (truthy x); [discriminate H |]
       end);
      (split; [reflexivity |]);
      (match type of H with
       | context [nodes_of ?x] =>
           destruct (nodes_of x) as [| | | | | nodes |];
           try discriminate H
       end);
      exists nodes; split; trivial;
      cbn [lift snd] in H; exact H. }
  destruct G as (Herr & nodes & Hn & Hm).
  destruct (map_nodes_each _ _ _ Hm) as [Hl Hk].
  exists (String c s), token, (mkResponse true text (Return data)), data, nodes.
  repeat split; trivial.
Qed.

Lemma fetchArticles_maps_every_node_witness :
  exists base token response data nodes,
    baseUrl_of site_abc = Some base /\
    graphql_endpoint site_abc (base ++ "/graphql") token = Return response /\
    ok response = true /\ json response = Return data /\
    truthy (get data "errors") = false /\
    nodes_of data = VArr nodes /\
    List.length [article_abc] = List.length nodes /\
    (forall (k : nat) (node : value),
       nth_error nodes k = Some node ->
       exists article,
         nth_error [article_abc] k = Some article /\
         map_node (clock site_abc k) node = Return article).
Proof.
  apply (@fetchArticles_maps_every_node site_abc [article_abc]).
  vm_compute. reflexivity.
Defined.

End SourceFacts.

(* ================================================================== *)
(** * The revalidation webhook *)
(* ================================================================== *)

Section WebhookFacts.
Import RevalidateRoute.

Lemma differs_false (secret : value) (expected : string) :
  differs secret expected = false <-> secret = VStr expected.
Proof.
  unfold differs. destruct secret; try (split; discriminate).
  destruct (String.eqb_spec s expected) as [-> | N]; cbn.
  - now split.
  - split; [discriminate | intros H; injection H as ->; contradiction].
Qed.

Lemma path_of_slash (slug : value) (path : string) :
  path_of slug = Return path -> startsWith path "/" = true.
Proof.
  unfold path_of. destruct (truthy slug).
  - destruct slug; try discriminate.
    destruct (startsWith s "/") eqn:E; intros H; injection H as <-;
      [exact E | reflexivity].
  - intros H. injection H as <-. reflexivity.
Qed.

(** X24.  Nothing is revalidated for a caller that does not know the
    secret.  If [POST] calls into the cache at all, or answers with
    status 200, then a secret is configured (and not empty) and the
    request carried exactly that string as its secret: in the form when
    the content type says so, otherwise in the JSON body or, when the
    body has none, in the [x-revalidate-secret] header. *)
Theorem POST_needs_secret (env : Env) (request : Request) :
  fst (POST env request) <> [] \/ status (snd (POST env request)) = 200 ->
  exists expected slug,
    DRUPAL_REVALIDATE_SECRET env = Some expected /\
    expected <> EmptyString /\
    credentials request = Return (VStr expected, slug).
Proof.
  unfold POST, attempt.
  destruct (DRUPAL_REVALIDATE_SECRET env) as [[| c s] |];
    try (cbn; intros [H | H]; [now contradiction H | discriminate H]).
  destruct (credentials request) as [[secret slug] | e];
    [| cbn; intros [H | H]; [now contradiction H | discriminate H]].
  destruct (differs secret (String c s)) eqn:D;
    [cbn; intros [H | H]; [now contradiction H | discriminate H] |].
  apply differs_false in D. subst secret. intros _.
  exists (String c s), slug. repeat split. discriminate.
Qed.

Lemma POST_needs_secret_witness :
  exists expected slug,
    DRUPAL_REVALIDATE_SECRET env_secret = Some expected /\
    expected <> EmptyString /\
    credentials form_request = Return (VStr expected, slug).
Proof.
  apply (@POST_needs_secret env_secret form_request).
  right. reflexivity.
Defined.

(** X25.  What [POST] revalidates.  Its calls into the cache are, in
    this order, the tag [drupal] with expiry 0 and then one path, and
    the path is never revalidated without the tag before it.  The path
    always starts with a slash: it is the slug of the request when that
    starts with a slash, the slug behind a slash when it does not, and
    [/] when the request has no slug.  The answer of status 200 names
    the path that was revalidated. *)
Theorem POST_revalidates_path (env : Env) (request : Request) :
  (fst (POST env request) = [] \/
   fst (POST env request) = [RevalidateTag "drupal" 0] \/
   exists path, fst (POST env request) =
                [RevalidateTag "drupal" 0; RevalidatePath path]) /\
  (forall path, In (RevalidatePath path) (fst (POST env request)) ->
     startsWith path "/" = true /\
     exists secret slug,
       credentials request = Return (secret, slug) /\
       path_of slug = Return path /\
       (forall s, slug = VStr s -> s <> EmptyString ->
                  path = if startsWith s "/" then s else "/" ++ s) /\
       (truthy slug = false -> path = "/")) /\
  (forall path timestamp,
     body (snd (POST env request)) = Revalidated path timestamp ->
     status (snd (POST env request)) = 200 /\
     fst (POST env request) = [RevalidateTag "drupal" 0; RevalidatePath path]).
Proof.
  unfold POST, attempt.
  destruct (DRUPAL_REVALIDATE_SECRET env) as [[| c s] |];
    try (cbn; repeat split; auto; try contradiction; discriminate).
  destruct (credentials request) as [[secret slug] | e];
    [| cbn; repeat split; auto; try contradiction; discriminate].
  destruct (differs secret (String c s));
    [cbn; repeat split; auto; try contradiction; discriminate |].
  destruct (path_of slug) as [path | e] eqn:P;
    [| cbn; repeat split; auto; try contradiction; discriminate].
  assert (Q : forall s0, slug = VStr s0 -> s0 <> EmptyString ->
                path = if startsWith s0 "/" then s0 else "/" ++ s0).
  { intros s0 -> Hs. unfold path_of in P.
    destruct s0 as [| c0 s0]; [contradiction |].
    cbn [truthy] in P. now injection P as <-. }
  assert (R : truthy slug = false -> path = "/").
  { intros H. unfold path_of in P. rewrite H in P. now injection P as <-. }
  pose proof (path_of_slash _ P) as Sl.
  destruct (revalidateTag env "drupal") as [[] | e].
  - destruct (revalidatePath env path) as [[] | e]; cbn [fst snd body status].
    + split; [right; right; now exists path |]. split.
      * intros p [H | [H | []]]; [discriminate H |]. injection H as <-.
        split; [exact Sl |]. exists secret, slug. auto.
      * intros p t H. injection H as <- _. now split.
    + split; [right; right; now exists path |]. split.
      * intros p [H | [H | []]]; [discriminate H |]. injection H as <-.
        split; [exact Sl |]. exists secret, slug. auto.
      * intros p t H. discriminate H.
  - cbn [fst snd body status]. split; [right; left; reflexivity |]. split.
    + intros p [H | []]. discriminate H.
    + intros p t H. discriminate H.
Qed.

(** X26.  The statuses of [POST].  It answers 200, 401 or 500.  Without
    a configured secret it answers 500 whatever the request, and reads
    nothing of it.  It answers 401 exactly when a secret is configured,
    the request could be read, and its secret is not that string; then
    nothing was revalidated. *)
Theorem POST_statuses (env : Env) (request : Request) :
  (status (snd (POST env request)) = 200 \/
   status (snd (POST env request)) = 401 \/
   status (snd (POST env request)) = 500) /\
  (IndexContent.env_set (DRUPAL_REVALIDATE_SECRET env) = false ->
   forall other, POST env other = POST env request /\
                 POST env request =
                 ([], mkResponse 500
                        (Message "Revalidate secret not configured"))) /\
  (status (snd (POST env request)) = 401 <->
   exists expected secret slug,
     DRUPAL_REVALIDATE_SECRET env = Some expected /\
     expected <> EmptyString /\
     credentials request = Return (secret, slug) /\
     secret <> VStr expected) /\
  (status (snd (POST env request)) = 401 -> fst (POST env request) = []).
Proof.
  assert (U : forall r : Request,
            IndexContent.env_set (DRUPAL_REVALIDATE_SECRET env) = false ->
            POST env r =
            ([], mkResponse 500 (Message "Revalidate secret not configured"))).
  { intros r. unfold POST.
    now destruct (DRUPAL_REVALIDATE_SECRET env) as [[| c s] |]. }
  split; [| split; [| split]].
  - unfold POST, attempt.
    destruct (DRUPAL_REVALIDATE_SECRET env) as [[| c s] |]; cbn; auto.
    destruct (credentials request) as [[secret slug] | e]; cbn; auto.
    destruct (differs secret (String c s)); cbn; auto.
    destruct (path_of slug) as [path | e]; cbn; auto.
    destruct (revalidateTag env "drupal") as [[] | e]; cbn; auto.
    destruct (revalidatePath env path) as [[] | e]; cbn; auto.
  - intros H other. rewrite (U other H), (U request H). now split.
  - unfold POST, attempt.
    destruct (DRUPAL_REVALIDATE_SECRET env) as [[| c s] |].
    + cbn. split; [discriminate |].
      intros (expected & _ & _ & H & N & _). injection H as <-.
      now contradiction N.
    + destruct (credentials request) as [[secret slug] | e].
      * destruct (differs secret (String c s)) eqn:D.
        -- cbn. split; [| reflexivity].
           intros _. exists (String c s), secret, slug.
           repeat split; try discriminate.
           intros ->. unfold differs in D.
           now rewrite String.eqb_refl in D.
        -- apply differs_false in D. subst secret.
           assert (N : ~ exists expected secret slug',
                         Some (String c s) = Some expected /\
                         expected <> EmptyString /\
                         Return (VStr (String c s), slug) =
                         Return (secret, slug') /\
                         secret <> VStr expected).
           { intros (expected & secret & slug' & H1 & _ & H2 & H3).
             injection H1 as <-. injection H2 as <- _.
             now contradiction H3. }
           destruct (path_of slug) as [path | e];
             [destruct (revalidateTag env "drupal") as [[] | e];
              [destruct (revalidatePath env path) as [[] | e] |] |];
             cbn; (split; [discriminate | intros H; now destruct (N H)]).
      * cbn. split; [discriminate |].
        intros (expected & secret & slug' & _ & _ & H2 & _). discriminate H2.
    + cbn. split; [discriminate |].
      intros (expected & _ & _ & H & _). discriminate H.
  - unfold POST, attempt.
    destruct (DRUPAL_REVALIDATE_SECRET env) as [[| c s] |]; cbn; auto.
    destruct (credentials request) as [[secret slug] | e]; cbn; auto.
    destruct (differs secret (String c s)); cbn; auto.
    destruct (path_of slug) as [path | e]; cbn; auto.
    destruct (revalidateTag env "drupal") as [[] | e]; cbn;
      [| discriminate].
    destruct (revalidatePath env path) as [[] | e]; cbn; discriminate.
Qed.

End WebhookFacts.

(* ================================================================== *)
(** * The search route in demo mode *)
(* ================================================================== *)

Lemma mockSearch_limit_0 (articles : list Article) (query : string) :
  mockSearch articles query 0 = [].
Proof.
  unfold mockSearch. rewrite slice_from_0. cbn [Z.ltb Z.compare].
  match goal with
  | |- firstn (Z.to_nat (Z.min 0 ?n)) _ = _ =>
      replace (Z.min 0 n) with 0 by lia
  end.
  reflexivity.
Qed.

(** X27.  In demo mode the search route works without the vector
    backend: for every request it answers what it would answer with any
    other backend, it never calls [searchArticles], and its status is
    200 or 400, never a failure. *)
Theorem GET_demo_mode_offline (env : SearchRoute.Env)
        (request : SearchRoute.Request)
        (backend : string -> option Z -> result (list SearchResult)) :
  SearchRoute.isDemoMode env = true ->
  SearchRoute.GET (with_searchArticles env backend) request =
  SearchRoute.GET env request /\
  (SearchRoute.status (snd (SearchRoute.GET env request)) = 200 \/
   SearchRoute.status (snd (SearchRoute.GET env request)) = 400) /\
  (forall query limit,
     ~ In (SearchRoute.CallSearchArticles query limit)
          (fst (SearchRoute.GET env request))).
Proof.
  intros Hd. unfold SearchRoute.GET.
  change (SearchRoute.isDemoMode (with_searchArticles env backend))
    with (SearchRoute.isDemoMode env).
  rewrite Hd.
  destruct (SearchRoute.q request) as [[| c query] |]; cbn.
  - repeat split; auto.
  - repeat split; auto. intros q l [H | []]. discriminate H.
  - repeat split; auto.
Qed.

Lemma GET_demo_mode_offline_witness :
  SearchRoute.GET
    (with_searchArticles demo_env (fun _ _ => Return []))
    (SearchRoute.mkRequest (Some "typescript") None) =
  SearchRoute.GET demo_env (SearchRoute.mkRequest (Some "typescript") None) /\
  (SearchRoute.status
     (snd (SearchRoute.GET demo_env
             (SearchRoute.mkRequest (Some "typescript") None))) = 200 \/
   SearchRoute.status
     (snd (SearchRoute.GET demo_env
             (SearchRoute.mkRequest (Some "typescript") None))) = 400) /\
  (forall query limit,
     ~ In (SearchRoute.CallSearchArticles query limit)
          (fst (SearchRoute.GET demo_env
                  (SearchRoute.mkRequest (Some "typescript") None)))).
Proof.
  apply (@GET_demo_mode_offline demo_env
           (SearchRoute.mkRequest (Some "typescript") None)
           (fun _ _ => Return [])).
  reflexivity.
Defined.

(** X28.  The [limit] parameter of a demo search.  A request with a
    query is answered with status 200, the query as it was sent, the
    results, and their number as [totalResults].  Without a [limit]
    parameter, or with an empty one, the results are those of
    [mockSearch] for the limit 10, so at most 10.  A [limit] that is
    not empty and does not start with a number gives no result at
    all. *)
Theorem GET_demo_limit (env : SearchRoute.Env) (query : string)
        (lim : option string) :
  SearchRoute.isDemoMode env = true ->
  query <> EmptyString ->
  exists results,
    snd (SearchRoute.GET env (SearchRoute.mkRequest (Some query) lim)) =
    SearchRoute.mkResponse 200
      (SearchRoute.ResultsBody query results
                               (Z.of_nat (List.length results))) /\
    (lim = None \/ lim = Some EmptyString ->
     results = mockSearch (SearchRoute.mockArticles env) query 10 /\
     Z.of_nat (List.length results) <= 10) /\
    (forall l, lim = Some l -> l <> EmptyString ->
               SearchRoute.parseInt l = None -> results = []).
Proof.
  intros Hd Hq. unfold SearchRoute.GET.
  cbn [SearchRoute.q SearchRoute.limit]. rewrite Hd.
  destruct query as [| c query]; [contradiction |].
  eexists. cbn [snd]. split; [reflexivity |]. split.
  - assert (L : Z.of_nat (List.length
                  (mockSearch (SearchRoute.mockArticles env)
                              (String c query) 10)) <= 10)
      by (unfold mockSearch; apply length_slice_from_0; lia).
    intros [-> | ->]; (split; [reflexivity | exact L]).
  - intros l -> Hl Hp. destruct l as [| c' l]; [contradiction |].
    rewrite Hp. apply mockSearch_limit_0.
Qed.

Lemma GET_demo_limit_witness :
  exists results,
    snd (SearchRoute.GET demo_env
           (SearchRoute.mkRequest (Some "typescript") (Some "many"))) =
    SearchRoute.mkResponse 200
      (SearchRoute.ResultsBody "typescript" results
                               (Z.of_nat (List.length results))) /\
    (Some "many" = None \/ Some "many" = Some EmptyString ->
     results = mockSearch (SearchRoute.mockArticles demo_env) "typescript" 10 /\
     Z.of_nat (List.length results) <= 10) /\
    (forall l, Some "many" = Some l -> l <> EmptyString ->
               SearchRoute.parseInt l = None -> results = []).
Proof.
  apply (@GET_demo_limit demo_env "typescript" (Some "many"));
    [reflexivity | discriminate].
Defined.

(* ================================================================== *)
(** * The home page *)
(* ================================================================== *)

(** X29.  The home page with three screens offers the search exactly in
    demo mode or when both a Drupal base URL and a Pinecone API key are
    set; outside demo mode it shows the [AlmostThere] screen exactly when
    the base URL is set and the key is not, and the setup guide exactly
    when no base URL is set, with or without a key.  An empty variable
    counts as unset, and only the value [true] turns demo mode on.  The
    home page with two screens offers the search in exactly the same
    environments, and shows the setup guide in all others. *)
Theorem HomePage_screen (env : Home.Env) :
  let drupal :=
    (IndexContent.env_set (Home.DRUPAL_BASE_URL env) ||
     IndexContent.env_set (Home.NEXT_PUBLIC_DRUPAL_BASE_URL env))%bool in
  let pinecone := IndexContent.env_set (Home.PINECONE_API_KEY env) in
  let demo :=
    match Home.NEXT_PUBLIC_DEMO_MODE env with
    | Some v => String.eqb v "true"
    | None => false
    end in
  (Home.HomePage env = Home.SearchResults <->
   (demo || (drupal && pinecone))%bool = true) /\
  (Home.HomePage env = Home.AlmostThere <->
   (negb demo && drupal && negb pinecone)%bool = true) /\
  (Home.HomePage env = Home.SetupGuide <->
   (negb demo && negb drupal)%bool = true) /\
  (HomeBasic.HomePage env = Home.SearchResults <->
   Home.HomePage env = Home.SearchResults) /\
  (HomeBasic.HomePage env <> Home.SearchResults ->
   HomeBasic.HomePage env = Home.SetupGuide).
Proof.
  unfold HomeBasic.HomePage, HomeBasic.isConfigured.
  unfold Home.HomePage, Home.getConfigStatus, Home.isDemoMode.
  cbn [Home.hasDrupal Home.isFullyConfigured].
  destruct (match Home.NEXT_PUBLIC_DEMO_MODE env with
            | Some v => String.eqb v "true"
            | None => false
            end);
    destruct (Home.DRUPAL_BASE_URL env) as [[| c1 s1] |];
    destruct (Home.NEXT_PUBLIC_DRUPAL_BASE_URL env) as [[| c2 s2] |];
    destruct (Home.PINECONE_API_KEY env) as [[| c3 s3] |];
    cbn; repeat split;
    first [reflexivity | discriminate | intros H; now contradiction H].
Qed.
